(** * Perplexity Codex: conversation harvesting and incremental export

    A shallow embedding of the TypeScript sources of the exporter
    (ConversationSaver, listConversations, utils, DownloadManager, the
    runAutoExport driver, saveConversation, fileDownloader, the indexer and
    the export endpoint of the server) together with the properties the
    design document states about them and further properties that the
    sources themselves show.

    Conventions of the embedding.
    - JavaScript numbers that hold integers (epoch milliseconds, counters)
      are [Z] or [nat]; [NaN] is [None] in an [option Z].
    - Strings are Rocq strings of 8-bit characters; library text and URLs
      are taken to be ASCII.
    - JavaScript objects used as dictionaries are [gmap string _]; arrays
      are lists; [Set<string>] is [gset string].
    - A value that may be [null], [undefined] or absent is an [option];
      where the source only ever tests such a string field for truthiness,
      the absent value and the empty string are identified and the field is
      a plain [string].
    - Code that can throw returns a [Result]; effects on the local disk are
      threaded through a small state-and-exception monad [IO].
    - What the host and the browser do is given from outside: the time
      zone and the date parser, Node's [path] module, and the outcome of
      the calls that drive the page. *)

From Stdlib Require Import ZArith String Ascii List Lia Bool.
From Stdlib Require OrderedTypeEx.
From stdpp Require Import base gmap strings list sorting pretty.

Local Open Scope string_scope.
Local Open Scope Z_scope.
Local Open Scope list_scope.

(* ================================================================== *)
(** * Part I: the embedding *)
(* ================================================================== *)

(** ** JavaScript values and built-ins used by the sources *)

Module Js.

(** An [Error] object: its message and, for [DownloadError], the optional
    status code. *)
Record Error := mkError { message : string; statusCode : option Z }.

Inductive Result (A : Type) : Type :=
  | Ok (a : A)
  | Throw (e : Error).
Arguments Ok {A} a.
Arguments Throw {A} e.

(** Truthiness of a string and of a nullable string. *)
Definition truthy (s : string) : bool := negb (String.eqb s "").

Definition truthy_opt (s : option string) : bool :=
  match s with
  | Some s => truthy s
  | None => false
  end.

(** [a || b] on strings. *)
Definition or_else (a b : string) : string := if truthy a then a else b.

(** [String.prototype.includes]. *)
Fixpoint includes (s sub : string) : bool :=
  String.prefix sub s ||
  match s with
  | EmptyString => false
  | String _ s' => includes s' sub
  end.

Definition lower_char (c : ascii) : ascii :=
  let n := nat_of_ascii c in
  if (65 <=? n)%nat && (n <=? 90)%nat then ascii_of_nat (n + 32) else c.

(** [String.prototype.toLowerCase] on ASCII text. *)
Fixpoint toLowerCase (s : string) : string :=
  match s with
  | EmptyString => EmptyString
  | String c s' => String (lower_char c) (toLowerCase s')
  end.

(** White space and line terminators in the ASCII range: what [trim]
    strips and what the regular-expression class [\s] matches. *)
Definition is_space (c : ascii) : bool :=
  let n := nat_of_ascii c in
  ((9 <=? n)%nat && (n <=? 13)%nat) || (n =? 32)%nat.

(** The class [\d]. *)
Definition is_digit (c : ascii) : bool :=
  let n := nat_of_ascii c in (48 <=? n)%nat && (n <=? 57)%nat.

(** The class [\w]. *)
Definition is_word (c : ascii) : bool :=
  let n := nat_of_ascii c in
  is_digit c || ((65 <=? n)%nat && (n <=? 90)%nat)
  || ((97 <=? n)%nat && (n <=? 122)%nat) || (n =? 95)%nat.

Fixpoint trimStart (s : string) : string :=
  match s with
  | String c s' => if is_space c then trimStart s' else s
  | EmptyString => EmptyString
  end.

Definition reverse (s : string) : string :=
  string_of_list_ascii (rev (list_ascii_of_string s)).

(** [String.prototype.trim]. *)
Definition trim (s : string) : string :=
  reverse (trimStart (reverse (trimStart s))).

(** The longest prefix whose characters satisfy [p], and the rest. *)
Fixpoint span (p : ascii → bool) (s : string) : string * string :=
  match s with
  | String c s' =>
      if p c then let '(a, b) := span p s' in (String c a, b)
      else (EmptyString, s)
  | EmptyString => (EmptyString, EmptyString)
  end.

Fixpoint drop (n : nat) (s : string) : string :=
  match n, s with
  | S n', String _ s' => drop n' s'
  | _, _ => s
  end.

Definition digit_value (c : ascii) : Z := Z.of_nat (nat_of_ascii c) - 48.

Fixpoint parseInt_acc (acc : Z) (digits : string) : Z :=
  match digits with
  | EmptyString => acc
  | String c s' => parseInt_acc (10 * acc + digit_value c) s'
  end.

(** [parseInt(digits, 10)] on a non-empty string of decimal digits. *)
Definition parseInt (digits : string) : Z := parseInt_acc 0 digits.

(** JSON values.  Objects are finite maps: the sources never depend on
    the order of properties. *)
#[warnings="-register-all"]
Inductive json :=
  | JNull
  | JBool (b : bool)
  | JNum (z : Z)
  | JStr (s : string)
  | JArr (l : list json)
  | JObj (o : gmap string json).

(** [Array.prototype.join]. *)
Fixpoint join (sep : string) (parts : list string) : string :=
  match parts with
  | [] => ""
  | [s] => s
  | s :: rest => s +:+ sep +:+ join sep rest
  end.

(** [String(v)] for a parsed JSON value: the conversion applied to a
    value used as a property key. *)
Fixpoint ToString (v : json) : string :=
  match v with
  | JNull => "null"
  | JBool true => "true"
  | JBool false => "false"
  | JNum z => pretty z
  | JStr s => s
  | JArr l =>
      join "," ((fun e => match e with JNull => "" | _ => ToString e end) <$> l)
  | JObj _ => "[object Object]"
  end.

(** [typeof v] and the truthiness of a parsed JSON value. *)
Definition typeof (v : json) : string :=
  match v with
  | JNull => "object"
  | JBool _ => "boolean"
  | JNum _ => "number"
  | JStr _ => "string"
  | JArr _ | JObj _ => "object"
  end.

Definition js_truthy (v : json) : bool :=
  match v with
  | JNull => false
  | JBool b => b
  | JNum z => negb (z =? 0)
  | JStr s => truthy s
  | JArr _ | JObj _ => true
  end.

(** [String.prototype.startsWith]. *)
Definition startsWith (s searchString : string) : bool := String.prefix searchString s.

(** An object used as a map from strings to strings, with its
    properties in the order of insertion, which [Object.keys] follows
    for keys that are not array indices.  [set_prop] is [obj[key] = value]
    and [Object_assign] is [Object.assign(target, source)]. *)
Fixpoint set_prop (obj : list (string * string)) (key value : string)
    : list (string * string) :=
  match obj with
  | [] => [(key, value)]
  | (k, v) :: rest =>
      if String.eqb k key then (k, value) :: rest
      else (k, v) :: set_prop rest key value
  end.

Definition Object_assign (target source : list (string * string))
    : list (string * string) :=
  foldl (fun target kv => set_prop target kv.1 kv.2) target source.

End Js.

(** ** Time values ([Date]) *)

Module Date.

Definition msPerSecond : Z := 1000.
Definition msPerMinute : Z := 60000.
Definition msPerHour : Z := 3600000.
Definition msPerDay : Z := 86400000.

Definition Day (t : Z) : Z := t / msPerDay.
Definition TimeWithinDay (t : Z) : Z := t mod msPerDay.
Definition HourFromTime (t : Z) : Z := (t / msPerHour) mod 24.
Definition MinFromTime (t : Z) : Z := (t / msPerMinute) mod 60.
Definition SecFromTime (t : Z) : Z := (t / msPerSecond) mod 60.
Definition msFromTime (t : Z) : Z := t mod msPerSecond.

(** Day number of a date of the proleptic Gregorian calendar, month in
    1..12, counted from 1 January 1970. *)
Definition days_from_civil (y m d : Z) : Z :=
  let y' := if m <=? 2 then y - 1 else y in
  let era := y' / 400 in
  let yoe := y' - era * 400 in
  let doy := (153 * (m + (if 2 <? m then -3 else 9)) + 2) / 5 + d - 1 in
  let doe := yoe * 365 + yoe / 4 - yoe / 100 + doy in
  era * 146097 + doe - 719468.

(** The inverse: year, month in 1..12 and day of the month. *)
Definition civil_from_days (z : Z) : Z * Z * Z :=
  let z := z + 719468 in
  let era := z / 146097 in
  let doe := z - era * 146097 in
  let yoe := (doe - doe / 1460 + doe / 36524 - doe / 146096) / 365 in
  let doy := doe - (365 * yoe + yoe / 4 - yoe / 100) in
  let mp := (5 * doy + 2) / 153 in
  let d := doy - (153 * mp + 2) / 5 + 1 in
  let m := if mp <? 10 then mp + 3 else mp - 9 in
  let y := yoe + era * 400 in
  (if m <=? 2 then y + 1 else y, m, d).

Definition YearFromTime (t : Z) : Z := (civil_from_days (Day t)).1.1.
(** Months are numbered from 0, as [getMonth] does. *)
Definition MonthFromTime (t : Z) : Z := (civil_from_days (Day t)).1.2 - 1.
Definition DateFromTime (t : Z) : Z := (civil_from_days (Day t)).2.

Definition MakeTime (hour min sec ms : Z) : Z :=
  hour * msPerHour + min * msPerMinute + sec * msPerSecond + ms.

Definition MakeDay (year month date : Z) : Z :=
  let ym := year + month / 12 in
  let mn := month mod 12 in
  days_from_civil ym (mn + 1) 1 + date - 1.

Definition MakeDate (day time : Z) : Z := day * msPerDay + time.

(** [TimeClip]: time values beyond 8.64e15 ms are [NaN]. *)
Definition TimeClip (t : Z) : option Z :=
  if Z.abs t <=? 8640000000000000 then Some t else None.

(** What the host leaves open: the offset of local time, as ECMAScript's
    [LocalTZA(t, isUTC)], and [Date.parse] ([None] is [NaN]). *)
Class Host := {
  LocalTZA : Z → bool → Z;
  Date_parse : string → option Z;
}.

Section WithHost.
Context `{Host}.

Definition LocalTime (t : Z) : Z := t + LocalTZA t true.
Definition UTC (t : Z) : Z := t - LocalTZA t false.

(** [new Date(s)] for a string [s]. *)
Definition ofString (s : string) : option Z :=
  match Date_parse s with
  | Some t => TimeClip t
  | None => None
  end.

Definition getSeconds (t : Z) : Z := SecFromTime (LocalTime t).
Definition getMinutes (t : Z) : Z := MinFromTime (LocalTime t).
Definition getHours (t : Z) : Z := HourFromTime (LocalTime t).
Definition getDate (t : Z) : Z := DateFromTime (LocalTime t).
Definition getMonth (t : Z) : Z := MonthFromTime (LocalTime t).

(** The setters, applied to a valid time value; the result is the new
    time value of the object, [None] when it is out of range. *)
Definition setSeconds (t sec : Z) : option Z :=
  let tl := LocalTime t in
  TimeClip (UTC (MakeDate (Day tl)
    (MakeTime (HourFromTime tl) (MinFromTime tl) sec (msFromTime tl)))).

Definition setMinutes (t min : Z) : option Z :=
  let tl := LocalTime t in
  TimeClip (UTC (MakeDate (Day tl)
    (MakeTime (HourFromTime tl) min (SecFromTime tl) (msFromTime tl)))).

Definition setHours (t hour : Z) : option Z :=
  let tl := LocalTime t in
  TimeClip (UTC (MakeDate (Day tl)
    (MakeTime hour (MinFromTime tl) (SecFromTime tl) (msFromTime tl)))).

Definition setHours4 (t hour min sec ms : Z) : option Z :=
  let tl := LocalTime t in
  TimeClip (UTC (MakeDate (Day tl) (MakeTime hour min sec ms))).

Definition setDate (t date : Z) : option Z :=
  let tl := LocalTime t in
  TimeClip (UTC (MakeDate
    (MakeDay (YearFromTime tl) (MonthFromTime tl) date)
    (TimeWithinDay tl))).

Definition setMonth (t month : Z) : option Z :=
  let tl := LocalTime t in
  TimeClip (UTC (MakeDate
    (MakeDay (YearFromTime tl) month (DateFromTime tl))
    (TimeWithinDay tl))).
End WithHost.

(** [a > b] on numbers that may be [NaN]: false as soon as one is. *)
Definition gt (a b : option Z) : bool :=
  match a, b with
  | Some x, Some y => y <? x
  | _, _ => false
  end.

(** *** The simplified ISO 8601 format of [toISOString] *)

Definition digit_char (d : Z) : ascii := ascii_of_nat (Z.to_nat (d mod 10) + 48).

(** [n] written with exactly [width] decimal digits. *)
Fixpoint pad (width : nat) (n : Z) : string :=
  match width with
  | O => EmptyString
  | S w => pad w (n / 10) +:+ String (digit_char n) EmptyString
  end.

(** [Date.prototype.toISOString] of a valid time value. *)
Definition toISOString (t : Z) : string :=
  let '(y, m, d) := civil_from_days (Day t) in
  let year :=
    if (0 <=? y) && (y <=? 9999) then pad 4 y
    else (if y <? 0 then "-" else "+") +:+ pad 6 (Z.abs y) in
  year +:+ "-" +:+ pad 2 m +:+ "-" +:+ pad 2 d +:+ "T"
    +:+ pad 2 (HourFromTime t) +:+ ":" +:+ pad 2 (MinFromTime t) +:+ ":"
    +:+ pad 2 (SecFromTime t) +:+ "." +:+ pad 3 (msFromTime t) +:+ "Z".

Definition all_digits (s : string) : bool :=
  forallb Js.is_digit (list_ascii_of_string s).

Definition field (s : string) (start len : nat) : string :=
  String.substring start len s.

(** [Date.parse] on the format [YYYY-MM-DDTHH:mm:ss.sssZ], the one
    [toISOString] writes for years 0 to 9999. *)
Definition parse_iso (s : string) : option Z :=
  let num a n := Js.parseInt (field s a n) in
  if (String.length s =? 24)%nat
     && all_digits (field s 0 4) && String.eqb (field s 4 1) "-"
     && all_digits (field s 5 2) && String.eqb (field s 7 1) "-"
     && all_digits (field s 8 2) && String.eqb (field s 10 1) "T"
     && all_digits (field s 11 2) && String.eqb (field s 13 1) ":"
     && all_digits (field s 14 2) && String.eqb (field s 16 1) ":"
     && all_digits (field s 17 2) && String.eqb (field s 19 1) "."
     && all_digits (field s 20 3) && String.eqb (field s 23 1) "Z"
  then
    let '(y, m, d) := (num 0%nat 4%nat, num 5%nat 2%nat, num 8%nat 2%nat) in
    let '(hh, mm, ss) := (num 11%nat 2%nat, num 14%nat 2%nat, num 17%nat 2%nat) in
    if (1 <=? m) && (m <=? 12) && (1 <=? d)
       && (d <=? days_from_civil (y + m / 12) (m mod 12 + 1) 1
                 - days_from_civil y m 1)
       && (hh <=? 23) && (mm <=? 59) && (ss <=? 59)
    then Some (MakeDate (days_from_civil y m d)
                        (MakeTime hh mm ss (num 20%nat 3%nat)))
    else None
  else None.

(** A host whose local time is UTC and that parses the ISO format only. *)
Definition utc_host : Host :=
  {| LocalTZA := fun _ _ => 0; Date_parse := parse_iso |}.

End Date.

(** ** types/conversation.ts *)

Module Types.

(** An entry of a thread.  Of the declared fields the sources under study
    read [uuid] and the two timestamps; [query_str] stands for the rest of
    the entry's content. *)
Record ConversationEntry := mkEntry {
  uuid : string;
  updated_datetime : string;
  entry_updated_datetime : string;
  query_str : string;
}.

Record ConversationResponse := mkResponse {
  status : string;
  entries : list ConversationEntry;
  has_next_page : bool;
  next_cursor : option string;
  domUrls : option (list string);
}.

Definition set_entries (c : ConversationResponse) (es : list ConversationEntry) :=
  mkResponse (status c) es (has_next_page c) (next_cursor c) (domUrls c).

Definition set_cursor (c : ConversationResponse) (more : bool) (cur : option string) :=
  mkResponse (status c) (entries c) more cur (domUrls c).

Definition set_domUrls (c : ConversationResponse) (urls : list string) :=
  mkResponse (status c) (entries c) (has_next_page c) (next_cursor c) (Some urls).

Definition uuids (es : list ConversationEntry) : list string := uuid <$> es.

End Types.

(** ** ConversationSaver.ts *)

Module ConversationSaver.
Import Js Types.

(** *** The response handler installed by [initialize] *)

(** The body of the merge loop, for one entry of the new payload: the
    entry is pushed onto the buffer when its uuid is not in the set. *)
Record MergeState := mkMerge {
  merged : list ConversationEntry;
  existingUuids : gset string;
  addedCount : nat;
}.

Definition merge_step (st : MergeState) (newEntry : ConversationEntry) : MergeState :=
  if decide (uuid newEntry ∈ existingUuids st) then st
  else mkMerge (merged st ++ [newEntry])
               ({[uuid newEntry]} ∪ existingUuids st)
               (S (addedCount st)).

Definition merge_entries (existing : list ConversationEntry)
    (incoming : list ConversationEntry) : MergeState :=
  foldl merge_step (mkMerge existing (list_to_set (uuids existing)) 0%nat) incoming.

(** [hasCursor = !!(data.has_next_page || data.next_cursor)]. *)
Definition hasCursor (data : ConversationResponse) : bool :=
  has_next_page data || truthy_opt (next_cursor data).

(** The merge into an existing buffer. *)
Definition merge_into (existing data : ConversationResponse) : ConversationResponse :=
  let existing := set_entries existing (merged (merge_entries (entries existing) (entries data))) in
  if hasCursor data
  then set_cursor existing (has_next_page data) (next_cursor data)
  else existing.

(** The handler, from the point where the thread id has been read off
    the URL and the body has parsed to an object with [entries]. *)
Definition onResponse (capturedResponses : gmap string ConversationResponse)
    (threadId : string) (data : ConversationResponse)
    : gmap string ConversationResponse :=
  match capturedResponses !! threadId with
  | None => <[threadId := data]> capturedResponses
  | Some existing => <[threadId := merge_into existing data]> capturedResponses
  end.

(** *** [fetchNextPages] *)

(** What [page.evaluate] resolves with: the parsed body of the page
    request, or the object the in-page code builds on failure.  An absent
    [error] is the empty string, absent [entries] the empty list. *)
Record PageData := mkPage {
  pd_error : string;
  pd_entries : list ConversationEntry;
  pd_has_next_page : bool;
  pd_next_cursor : option string;
}.

(** The remote side: the answer to the request for page [pageNum] of a
    thread at a cursor; [None] when [page.evaluate] itself rejects. *)
Definition PageServer := nat → string → string → option PageData.

Record LoopState := mkLoop {
  allEntries : list ConversationEntry;
  seenUuids : gset string;
  cursor : option string;
  hasNext : bool;
  pageNum : nat;
  (** ghost: the cursors of the page requests issued so far *)
  requested : list string;
}.

Record Dedup := mkDedup {
  newEntries : list ConversationEntry;
  seen : gset string;
}.

Definition dedup_step (st : Dedup) (entry : ConversationEntry) : Dedup :=
  if decide (uuid entry ∈ seen st) then st
  else mkDedup (newEntries st ++ [entry]) ({[uuid entry]} ∪ seen st).

Definition cursor_text (c : option string) : string := default "" c.

Inductive Step :=
  | Break (st : LoopState)
  | Continue (st : LoopState)
  | Rejected (e : Error).

(** One iteration of the [while] loop, entered with its condition true. *)
Definition loop_body (server : PageServer) (threadId : string) (st : LoopState) : Step :=
  let pageNum := S (pageNum st) in
  let cur := cursor_text (cursor st) in
  let st := mkLoop (allEntries st) (seenUuids st) (cursor st) (hasNext st)
                   pageNum (requested st ++ [cur]) in
  match server pageNum threadId cur with
  | None => Rejected (mkError "page.evaluate failed" None)
  | Some nextPageData =>
      if truthy (pd_error nextPageData) then Break st
      else if (length (pd_entries nextPageData) =? 0)%nat then Break st
      else
        let d := foldl dedup_step (mkDedup [] (seenUuids st)) (pd_entries nextPageData) in
        let allEntries :=
          if (0 <? length (newEntries d))%nat
          then newEntries d ++ allEntries st
          else allEntries st in
        let hasNext := pd_has_next_page nextPageData in
        let cursor := pd_next_cursor nextPageData in
        let hasNext := if hasNext && negb (truthy_opt cursor) then false else hasNext in
        Continue (mkLoop allEntries (seen d) cursor hasNext pageNum (requested st))
  end.

(** The loop condition [hasNext && cursor]. *)
Definition loop_cond (st : LoopState) : bool :=
  hasNext st && truthy_opt (cursor st).

(** The loop, for at most [fuel] iterations; [None] when they do not
    suffice. *)
Fixpoint loop (fuel : nat) (server : PageServer) (threadId : string)
    (st : LoopState) : option (Result LoopState) :=
  if loop_cond st then
    match fuel with
    | O => None
    | S fuel =>
        match loop_body server threadId st with
        | Break st' => Some (Ok st')
        | Continue st' => loop fuel server threadId st'
        | Rejected e => Some (Throw e)
        end
    end
  else Some (Ok st).

Definition initial (firstPage : ConversationResponse) : LoopState :=
  mkLoop (entries firstPage) (list_to_set (uuids (entries firstPage)))
         (next_cursor firstPage) (has_next_page firstPage) 1%nat [].

(** The value returned once the loop has ended in state [st]. *)
Definition finish (firstPage : ConversationResponse) (st : LoopState) : ConversationResponse :=
  mkResponse (status firstPage) (allEntries st) false None (domUrls firstPage).

(** The run of the loop, with the requests it issued. *)
Definition fetchNextPages_run (fuel : nat) (server : PageServer) (threadId : string)
    (firstPage : ConversationResponse) : option (Result LoopState) :=
  loop fuel server threadId (initial firstPage).

Definition fetchNextPages (fuel : nat) (server : PageServer) (threadId : string)
    (firstPage : ConversationResponse) : option (Result ConversationResponse) :=
  match fetchNextPages_run fuel server threadId firstPage with
  | Some (Ok st) => Some (Ok (finish firstPage st))
  | Some (Throw e) => Some (Throw e)
  | None => None
  end.

(** *** The final sort of [loadThreadFromURL] *)

Section Sorting.
Context {A : Type} (compareFn : A → A → option Z).

(** The comparator's verdict "[a] after [b]": a result greater than 0;
    [NaN] counts as 0. *)
Definition after (a b : A) : bool :=
  match compareFn a b with
  | Some v => 0 <? v
  | None => false
  end.

Fixpoint insert_sorted (x : A) (sorted : list A) : list A :=
  match sorted with
  | [] => [x]
  | y :: rest =>
      if after y x then x :: y :: rest else y :: insert_sorted x rest
  end.

(** [Array.prototype.sort(compareFn)], which ECMAScript requires to be
    stable: equal elements keep their order.  For a consistent
    comparator the result is the same for every stable algorithm; it is
    computed here by insertion. *)
Definition sort (l : list A) : list A :=
  foldl (fun sorted x => insert_sorted x sorted) [] l.
End Sorting.

Section WithHost.
Context `{Date.Host}.

(** [new Date(e.updated_datetime || e.entry_updated_datetime || 0).getTime()] *)
Definition entry_time (e : ConversationEntry) : option Z :=
  let s := or_else (updated_datetime e) (entry_updated_datetime e) in
  if truthy s then Date.ofString s else Some 0.

(** The comparator [(a, b) => timeA - timeB]. *)
Definition by_time (a b : ConversationEntry) : option Z :=
  match entry_time a, entry_time b with
  | Some timeA, Some timeB => Some (timeA - timeB)
  | _, _ => None
  end.

Definition sort_entries (es : list ConversationEntry) : list ConversationEntry :=
  sort by_time es.
End WithHost.

(** *** [loadThreadFromURL] *)

Record ThreadData := mkThread {
  thread_id : string;
  conversation : ConversationResponse;
  thread_domUrls : list string;
}.

(** The text after the last occurrence of [c]; the whole text when there
    is none: [s.split(c).pop()]. *)
Fixpoint has_char (c : ascii) (s : string) : bool :=
  match s with
  | EmptyString => false
  | String x s' => Ascii.eqb c x || has_char c s'
  end.

Fixpoint after_last (c : ascii) (s : string) : string :=
  match s with
  | EmptyString => EmptyString
  | String x s' => if has_char c s then after_last c s' else s
  end.

(** The text before the first occurrence of [c]: [s.split(c)[0]]. *)
Fixpoint before_first (c : ascii) (s : string) : string :=
  match s with
  | EmptyString => EmptyString
  | String x s' => if Ascii.eqb c x then EmptyString else String x (before_first c s')
  end.

Definition threadIdFromUrl (url : string) : string :=
  before_first "?" (after_last "/" url).

(** What the page does while the thread is loaded: the thread responses
    the handler sees until the buffer is read, the links found in the DOM,
    and the answers to page requests. *)
Record Browser := mkBrowser {
  responses : list (string * ConversationResponse);
  dom_links : list string;
  server : PageServer;
}.

Section WithHost.
Context `{Date.Host}.

(** Navigation errors are caught and the extraction of inline artifacts
    is not modelled.  The second component is the response buffer when
    the call ends; the buffered object is the one that is returned
    unless pages were fetched, so it carries the DOM links and, then,
    the sorted entries. *)
Definition loadThreadFromURL (fuel : nat)
    (capturedResponses : gmap string ConversationResponse)
    (browser : Browser) (url : string)
    : option (Result ThreadData * gmap string ConversationResponse) :=
  let threadId := threadIdFromUrl url in
  let captured := delete threadId capturedResponses in
  let captured :=
    foldl (fun caps r => onResponse caps r.1 r.2) captured (responses browser) in
  match captured !! threadId with
  | None =>
      Some (Throw (mkError
              ("Timeout waiting for thread data API response for " +:+ threadId)
              None),
            captured)
  | Some conversation =>
      let conversation := set_domUrls conversation (dom_links browser) in
      if has_next_page conversation || truthy_opt (next_cursor conversation) then
        match fetchNextPages fuel (server browser) threadId conversation with
        | None => None
        | Some (Throw e) => Some (Throw e, <[threadId := conversation]> captured)
        | Some (Ok finalConversation) =>
            let finalConversation :=
              set_entries finalConversation (sort_entries (entries finalConversation)) in
            Some (Ok (mkThread threadId finalConversation (dom_links browser)),
                  <[threadId := conversation]> captured)
        end
      else
        let finalConversation :=
          set_entries conversation (sort_entries (entries conversation)) in
        Some (Ok (mkThread threadId finalConversation (dom_links browser)),
              <[threadId := finalConversation]> captured)
  end.
End WithHost.

(** *** The routing of the response handler *)

(** The text after the first occurrence of [sep], [None] when there is
    none, and the text before it, the whole text when there is none:
    [s.split(sep)[1]] is the second applied to the first. *)
Fixpoint after_first (sep s : string) : option string :=
  if String.prefix sep s then Some (drop (String.length sep) s)
  else
    match s with
    | EmptyString => None
    | String _ s' => after_first sep s'
    end.

Fixpoint before_sub (sep s : string) : string :=
  if String.prefix sep s then EmptyString
  else
    match s with
    | EmptyString => EmptyString
    | String c s' => String c (before_sub sep s')
    end.

(** The thread id the handler reads off the URL of a response, [None]
    when it ignores the response. *)
Definition harvestedThreadId (method url : string) : option string :=
  if String.eqb method "GET" && includes url "/rest/thread/" then
    match after_first "/rest/thread/" url with
    | None => None
    | Some rest =>
        let threadId := before_first "?" (before_sub "/rest/thread/" rest) in
        if String.eqb threadId "list_recent" then None else Some threadId
    end
  else None.

(** The handler: [body] is the parsed body of the response when it is an
    object with [entries]; a body that does not parse or has no entries
    is ignored. *)
Definition handleResponse (capturedResponses : gmap string ConversationResponse)
    (method url : string) (body : option ConversationResponse)
    : gmap string ConversationResponse :=
  match harvestedThreadId method url, body with
  | Some threadId, Some data => onResponse capturedResponses threadId data
  | _, _ => capturedResponses
  end.

(** The URL of the page requests of [fetchNextPages];
    [cur] is [encodeURIComponent(cursor)]. *)
Definition pageRequestUrl (tId cur : string) : string :=
  "https://www.perplexity.ai/rest/thread/" +:+ tId +:+ "?cursor=" +:+ cur.

End ConversationSaver.

(** ** The local disk *)

Module Fs.
Import Js.

(** The content of a file, up to [JSON.parse]: a file holds either the
    JSON text of a value, as [JSON.stringify] writes it, or text that
    [JSON.parse] rejects. *)
Inductive FileData :=
  | JsonText (v : json)
  | Text (s : string).

(** The files present and the paths that cannot be written (read-only
    location, full disk). *)
Record Disk := mkDisk {
  files : gmap string FileData;
  failing : gset string;
}.

(** Computations that read and write the disk and may throw. *)
Definition IO (A : Type) : Type := Disk → Result A * Disk.

Definition ret {A} (a : A) : IO A := fun d => (Ok a, d).
Definition throw {A} (e : Error) : IO A := fun d => (Throw e, d).

Definition bind {A B} (m : IO A) (k : A → IO B) : IO B :=
  fun d =>
    match m d with
    | (Ok a, d') => k a d'
    | (Throw e, d') => (Throw e, d')
    end.

(** [try { body } catch (e) { handler(e) }] *)
Definition try_catch {A} (body : IO A) (handler : Error → IO A) : IO A :=
  fun d =>
    match body d with
    | (Ok a, d') => (Ok a, d')
    | (Throw e, d') => handler e d'
    end.

Definition lift {A} (r : Result A) : IO A := fun d => (r, d).

(** [fs.readFile(path, "utf-8")] *)
Definition readFile (path : string) : IO FileData :=
  fun d =>
    match files d !! path with
    | Some content => (Ok content, d)
    | None => (Throw (mkError ("ENOENT: no such file or directory, open " +:+ path) None), d)
    end.

(** [fs.writeFile(path, data)] *)
Definition writeFile (path : string) (data : FileData) : IO unit :=
  fun d =>
    if decide (path ∈ failing d)
    then (Throw (mkError ("EACCES: permission denied, open " +:+ path) None), d)
    else (Ok tt, mkDisk (<[path := data]> (files d)) (failing d)).

(** [fs.mkdir(path, { recursive: true })].  Directories are not files
    of the disk: the call changes nothing, and it throws where the path
    cannot be written or holds a file. *)
Definition mkdir (path : string) : IO unit :=
  fun d =>
    if decide (path ∈ failing d)
    then (Throw (mkError ("EACCES: permission denied, mkdir " +:+ path) None), d)
    else
      match files d !! path with
      | Some _ => (Throw (mkError ("EEXIST: file already exists, mkdir " +:+ path) None), d)
      | None => (Ok tt, d)
      end.

(** [JSON.parse(content)] *)
Definition JSON_parse (content : FileData) : Result json :=
  match content with
  | JsonText v => Ok v
  | Text _ => Throw (mkError "Unexpected token in JSON" None)
  end.

End Fs.

#[export] Instance IO_ret : MRet Fs.IO := @Fs.ret.
#[export] Instance IO_bind : MBind Fs.IO := fun A B k m => Fs.bind m k.

(** ** types.ts and utils.ts *)

Module Utils.
Import Js Fs.

Record Conversation := mkConversation {
  title : string;
  url : string;
  libraryTimestamp : option string;
}.

Record ProcessedThread := mkProcessed {
  lastUpdated : string;
  downloadedAt : string;
}.

Record DoneFile := mkDone {
  processed : gmap string ProcessedThread;
}.

(** The property [key] of a JSON value that is not [null]: [None] stands
    for [undefined]. *)
Definition prop (v : json) (key : string) : option json :=
  match v with
  | JObj o => o !! key
  | _ => None
  end.

Definition string_prop (v : json) (key : string) : string :=
  match prop v key with
  | Some (JStr s) => s
  | _ => ""
  end.

(** The cast [raw as DoneFile] reads the entries at their declared type. *)
Definition thread_of_json (v : json) : ProcessedThread :=
  mkProcessed (string_prop v "lastUpdated") (string_prop v "downloadedAt").

Definition json_of_thread (p : ProcessedThread) : json :=
  JObj (<["lastUpdated" := JStr (lastUpdated p)]>
        (<["downloadedAt" := JStr (downloadedAt p)]> ∅)).

Definition json_of_DoneFile (d : DoneFile) : json :=
  JObj (<["processed" := JObj (json_of_thread <$> processed d)]> ∅).

(** The key under which [processed[url] = ...] stores an element of the
    legacy list: the element itself when it is a string, as the declared
    type [string[]] has it, and its conversion to a string otherwise. *)
Definition key_of (url : json) : string := ToString url.

Definition empty_DoneFile : DoneFile := mkDone ∅.

(** The migration loop over [raw.processedUrls]. *)
Definition migrate (now : string) (processedUrls : list json)
    : gmap string ProcessedThread :=
  foldl (fun processed url => <[key_of url := mkProcessed now now]> processed)
        ∅ processedUrls.

(** [loadDoneFile]; [now] is the clock reading of [new Date()]. *)
Definition loadDoneFile (now : Z) (doneFilePath : string) : IO DoneFile :=
  try_catch
    (content ← readFile doneFilePath;
     raw ← lift (JSON_parse content);
     match raw with
     | JNull => throw (mkError "Cannot read properties of null" None)
     | _ =>
         match prop raw "processed" with
         | Some (JObj o) => ret (mkDone (thread_of_json <$> o))
         | _ =>
             match prop raw "processedUrls" with
             | Some (JArr processedUrls) =>
                 let migrated := mkDone (migrate (Date.toISOString now) processedUrls) in
                 writeFile doneFilePath (JsonText (json_of_DoneFile migrated));;
                 ret migrated
             | _ => ret empty_DoneFile
             end
         end
     end)
    (fun error => ret empty_DoneFile).

Definition saveDoneFile (doneFile : DoneFile) (doneFilePath : string) : IO unit :=
  writeFile doneFilePath (JsonText (json_of_DoneFile doneFile)).

(** [url in doneFile.processed], for keys that are URLs of threads.
    The operator also answers for the names every object inherits
    ([toString], [constructor] and the like); these are no URLs and the
    lookup leaves them out. *)
Definition isProcessed (doneFile : DoneFile) (url : string) : bool :=
  bool_decide (is_Some (processed doneFile !! url)).

Definition processedCount (doneFile : DoneFile) : nat :=
  size (processed doneFile).

Definition markProcessed (now : Z) (doneFile : DoneFile) (url : string)
    (lastUpdated : string) : DoneFile :=
  mkDone (<[url := mkProcessed lastUpdated (Date.toISOString now)]> (processed doneFile)).

End Utils.

(** ** listConversations.ts *)

Module ListConversations.
Import Js Utils.

(** [t.replace(/CCL$/i, "")] *)
Definition strip_CCL (t : string) : string :=
  let n := String.length t in
  if String.eqb (toLowerCase (String.substring (n - 3) 3 t)) "ccl"
  then String.substring 0 (n - 3) t
  else t.

Inductive Unit := Second | Minute | Hour | Day | Week | Month.

(** [/^(\d+)([smhd])\b/]: the amount and the unit. *)
Definition shortRelMatch (t : string) : option (Z * Unit) :=
  let '(digits, rest) := span is_digit t in
  if truthy digits then
    match rest with
    | String u rest' =>
        let boundary :=
          match rest' with
          | EmptyString => true
          | String c _ => negb (is_word c)
          end in
        if boundary then
          if Ascii.eqb u "s" then Some (parseInt digits, Second)
          else if Ascii.eqb u "m" then Some (parseInt digits, Minute)
          else if Ascii.eqb u "h" then Some (parseInt digits, Hour)
          else if Ascii.eqb u "d" then Some (parseInt digits, Day)
          else None
        else None
    | EmptyString => None
    end
  else None.

Definition unit_words : list (string * Unit) :=
  [("second", Second); ("minute", Minute); ("hour", Hour);
   ("day", Day); ("week", Week); ("month", Month)].

(** The tail [s?\s+ago$] of the long relative form. *)
Definition ago_tail (rest : string) : bool :=
  let rest :=
    match rest with
    | String c rest' => if Ascii.eqb c "s" then rest' else rest
    | EmptyString => rest
    end in
  let '(spaces, rest) := span is_space rest in
  truthy spaces && String.eqb rest "ago".

(** [/^(\d+)\s+(second|minute|hour|day|week|month)s?\s+ago$/] *)
Definition relMatch (t : string) : option (Z * Unit) :=
  let '(digits, rest) := span is_digit t in
  let '(spaces, rest) := span is_space rest in
  if truthy digits && truthy spaces then
    match List.find (fun w => String.prefix w.1 rest) unit_words with
    | Some (word, unit) =>
        if ago_tail (drop (String.length word) rest)
        then Some (parseInt digits, unit)
        else None
    | None => None
    end
  else None.

Section WithHost.
Context `{Date.Host}.

(** The [switch] on the unit, applied to [now = new Date()]. *)
Definition shift_back (now : Z) (amount : Z) (unit : Unit) : option Z :=
  match unit with
  | Second => Date.setSeconds now (Date.getSeconds now - amount)
  | Minute => Date.setMinutes now (Date.getMinutes now - amount)
  | Hour => Date.setHours now (Date.getHours now - amount)
  | Day => Date.setDate now (Date.getDate now - amount)
  | Week => Date.setDate now (Date.getDate now - amount * 7)
  | Month => Date.setMonth now (Date.getMonth now - amount)
  end.

(** [parseLibraryTimestamp]: [None] is [null]; a returned [Date] holds
    a time value or is invalid ([Some None]); [now] is the clock. *)
Definition parseLibraryTimestamp (now : Z) (text : string) : option (option Z) :=
  if negb (truthy text) then None else
  let t := toLowerCase (trim (strip_CCL (trim text))) in
  match shortRelMatch t with
  | Some (amount, unit) => Some (shift_back now amount unit)
  | None =>
      match relMatch t with
      | Some (amount, unit) => Some (shift_back now amount unit)
      | None =>
          if String.eqb t "just now" || String.eqb t "now" then Some (Some now)
          else
            match Date.ofString (trim text) with
            | Some d =>
                if negb (includes text ":")
                   && negb (includes (toLowerCase text) "am")
                   && negb (includes (toLowerCase text) "pm")
                then Some (Date.setHours4 d 23 59 59 999)
                else Some (Some d)
            | None => None
            end
      end
  end.

(** [shouldReDownload] *)
Definition shouldReDownload (now : Z) (doneFile : DoneFile) (url : string)
    (libraryTimestamp : option string) : bool :=
  if negb (isProcessed doneFile url) then true
  else if negb (truthy_opt libraryTimestamp) then false
  else
    match processed doneFile !! url with
    | None => true
    | Some record =>
        match parseLibraryTimestamp now (default "" libraryTimestamp) with
        | None => false
        | Some libDate =>
            let downloadedDate := Date.ofString (downloadedAt record) in
            Date.gt libDate ((fun t => t + 1000) <$> downloadedDate)
        end
    end.

(** The filter of [getConversations] that selects the threads to fetch. *)
Definition toProcess (now : Z) (doneFile : DoneFile)
    (conversations : list Conversation) : list Conversation :=
  List.filter
    (fun conv =>
       if negb (isProcessed doneFile (url conv)) then true
       else shouldReDownload now doneFile (url conv) (libraryTimestamp conv))
    conversations.
End WithHost.

(** *** [discoverThreadSelector]

    The candidate selectors hold double quotes. *)
Definition dq : string := String "034" "".

Definition candidates : list string :=
  ["a[href*=" +:+ dq +:+ "/search/" +:+ dq +:+ "]";
   "a[href*=" +:+ dq +:+ "/thread/" +:+ dq +:+ "]";
   "a[href*=" +:+ dq +:+ "/page/" +:+ dq +:+ "]"].

(** The loop over the candidates; [count sel] is what the page answers
    for [document.querySelectorAll(sel).length]. *)
Fixpoint discover (count : string → nat) (candidates : list string) : string * nat :=
  match candidates with
  | [] => ("", 0%nat)
  | sel :: rest =>
      if (0 <? count sel)%nat then (sel, count sel) else discover count rest
  end.

Definition discoverThreadSelector (count : string → nat) : string * nat :=
  discover count candidates.

(** *** [scrollToBottomOfConversations] *)

Inductive ScanMode := ScanFull | ScanTop.

Definition is_top (m : ScanMode) : bool :=
  match m with ScanTop => true | ScanFull => false end.

Record Scroll := mkScroll {
  scrollRounds : nat;
  previousCount : nat;
  stableRounds : nat;
}.

Definition MAX_STABLE_ROUNDS : nat := 3.

(** One round of the [while (true)] loop, from the scroll to the three
    tests that leave it; [currentCount] is the number of thread links the
    page shows after the scroll.  The flag tells whether the loop is
    left. *)
Definition scroll_round (scanMode : ScanMode) (scanLimit : nat) (currentCount : nat)
    (st : Scroll) : bool * Scroll :=
  let scrollRounds := S (scrollRounds st) in
  let stableRounds :=
    if (currentCount =? previousCount st)%nat then S (stableRounds st) else 0%nat in
  let st := mkScroll scrollRounds currentCount stableRounds in
  if (MAX_STABLE_ROUNDS <=? stableRounds)%nat then (true, st)
  else if is_top scanMode && (scanLimit <=? currentCount)%nat then (true, st)
  else if (100 <? scrollRounds)%nat then (true, st)
  else (false, st).

(** The loop, for at most [fuel] rounds; [counts k] is the number of
    links shown after the scroll of round [k]. *)
Fixpoint scroll (fuel : nat) (counts : nat → nat) (scanMode : ScanMode) (scanLimit : nat)
    (st : Scroll) : option Scroll :=
  match fuel with
  | O => None
  | S fuel =>
      let '(stop, st) :=
        scroll_round scanMode scanLimit (counts (S (scrollRounds st))) st in
      if stop then Some st else scroll fuel counts scanMode scanLimit st
  end.

Definition scrollToBottomOfConversations (fuel : nat) (counts : nat → nat)
    (scanMode : ScanMode) (scanLimit : nat) : option Scroll :=
  scroll fuel counts scanMode scanLimit (mkScroll 0 0 0).

End ListConversations.

(** ** Node's [path] module *)

Module Path.

(** [path.join] and [path.relative] belong to the host: a POSIX host and
    a Windows host answer differently. *)
Class Host := {
  join : list string → string;
  relative : string → string → string;
}.

(** *** A POSIX host

    [path.posix] of Node, told by the segments between the separators. *)

Fixpoint segments (path : string) : list string :=
  match path with
  | EmptyString => [EmptyString]
  | String c rest =>
      if Ascii.eqb c "/" then EmptyString :: segments rest
      else
        match segments rest with
        | segment :: others => String c segment :: others
        | [] => [String c EmptyString]
        end
  end.

(** What [normalizeString] does with one segment: an empty segment and
    [.] are dropped, [..] removes the segment before it unless there is
    none or it is [..] itself, in which case it is kept when the path
    may climb above its start. *)
Definition normalize_segment (allowAboveRoot : bool) (res : list string)
    (segment : string) : list string :=
  if String.eqb segment "" || String.eqb segment "." then res
  else if String.eqb segment ".." then
    match last res with
    | Some previous =>
        if String.eqb previous ".."
        then (if allowAboveRoot then res ++ [".."] else res)
        else removelast res
    | None => if allowAboveRoot then [".."] else []
    end
  else res ++ [segment].

Definition normalizeString (path : string) (allowAboveRoot : bool) : list string :=
  foldl (normalize_segment allowAboveRoot) [] (segments path).

Definition isAbsolute (path : string) : bool :=
  match path with
  | String c _ => Ascii.eqb c "/"
  | EmptyString => false
  end.

Fixpoint trailingSeparator (path : string) : bool :=
  match path with
  | EmptyString => false
  | String c EmptyString => Ascii.eqb c "/"
  | String _ rest => trailingSeparator rest
  end.

Definition normalize (path : string) : string :=
  if String.eqb path "" then "."
  else
    let res := Js.join "/" (normalizeString path (negb (isAbsolute path))) in
    if String.eqb res "" then
      if isAbsolute path then "/"
      else if trailingSeparator path then "./" else "."
    else
      (if isAbsolute path then "/" else "") +:+ res
      +:+ (if trailingSeparator path then "/" else "").

Definition posix_join (paths : list string) : string :=
  match List.filter Js.truthy paths with
  | [] => "."
  | parts => normalize (Js.join "/" parts)
  end.

(** [path.resolve(path)] in the working directory [cwd], an absolute
    path: the segments after the root. *)
Definition resolve (cwd path : string) : list string :=
  normalizeString (if isAbsolute path then path else cwd +:+ "/" +:+ path) false.

Fixpoint drop_common (a b : list string) : list string * list string :=
  match a, b with
  | x :: a', y :: b' => if String.eqb x y then drop_common a' b' else (a, b)
  | _, _ => (a, b)
  end.

Definition posix_relative (cwd from to : string) : string :=
  if String.eqb from to then ""
  else
    let '(up, down) := drop_common (resolve cwd from) (resolve cwd to) in
    Js.join "/" (((fun _ => "..") <$> up) ++ down).

Definition posix (cwd : string) : Host :=
  {| join := posix_join; relative := posix_relative cwd |}.

End Path.

(** ** DownloadManager.ts *)

Module DownloadManager.
Import Js.

Inductive DownloadState := inProgress | completed | canceled | interrupted.

(** A [Browser.downloadProgress] event; an absent [error] is the empty
    string. *)
Record DownloadProgressEvent := mkEvent {
  state : DownloadState;
  error : string;
}.

(** The state of a promise created by [waitForDownload]. *)
Inductive Settlement :=
  | Pending
  | Fulfilled (filename : string)
  | Failed (e : Error).

(** The fields of the manager and the promises it has created, by
    handle.  [downloadResolve] and [downloadReject] hold the resolving
    functions of the promise whose handle they name. *)
Record Manager := mkManager {
  downloadPath : string;
  lastDownloadedFile : option string;
  downloadPromise : option nat;
  downloadResolve : option nat;
  downloadReject : option nat;
  currentDownloadFilename : option string;
  promises : list Settlement;
}.

Definition create (downloadPath : string) : Manager :=
  mkManager downloadPath None None None None None [].

(** Calling a resolving function settles its promise once; later calls
    have no effect. *)
Definition settle (p : nat) (s : Settlement) (ps : list Settlement) : list Settlement :=
  match ps !! p with
  | Some Pending => <[p := s]> ps
  | _ => ps
  end.

(** The listener of [Browser.downloadWillBegin]. *)
Definition downloadWillBegin (suggestedFilename : string) (m : Manager) : Manager :=
  mkManager (downloadPath m) (lastDownloadedFile m) (downloadPromise m)
            (downloadResolve m) (downloadReject m) (Some suggestedFilename)
            (promises m).

Definition is_completed (s : DownloadState) : bool :=
  match s with completed => true | _ => false end.

Definition is_aborted (s : DownloadState) : bool :=
  match s with canceled | interrupted => true | _ => false end.

Section WithHost.
Context `{Path.Host}.

(** The listener of [Browser.downloadProgress]. *)
Definition downloadProgress (event : DownloadProgressEvent) (m : Manager) : Manager :=
  if is_completed (state event) && truthy_opt (currentDownloadFilename m) then
    let file := Path.join [downloadPath m; default "" (currentDownloadFilename m)] in
    match downloadResolve m with
    | Some p =>
        mkManager (downloadPath m) (Some file) (downloadPromise m) None None None
                  (settle p (Fulfilled file) (promises m))
    | None =>
        mkManager (downloadPath m) (Some file) (downloadPromise m)
                  (downloadResolve m) (downloadReject m) None (promises m)
    end
  else if is_aborted (state event) then
    let isRateLimit := includes (error event) "429" || includes (error event) "rate limit" in
    match downloadReject m with
    | Some p =>
        let e := mkError ("Download failed: " +:+ or_else (error event) "Unknown error")
                         (if isRateLimit then Some 429 else None) in
        mkManager (downloadPath m) (lastDownloadedFile m) (downloadPromise m) None None None
                  (settle p (Failed e) (promises m))
    | None =>
        mkManager (downloadPath m) (lastDownloadedFile m) (downloadPromise m)
                  (downloadResolve m) (downloadReject m) None (promises m)
    end
  else m.

End WithHost.

Definition set_downloadPromise (m : Manager) (p : option nat) : Manager :=
  mkManager (downloadPath m) (lastDownloadedFile m) p
            (downloadResolve m) (downloadReject m) (currentDownloadFilename m)
            (promises m).

(** *** [waitForDownload]

    The function is asynchronous: a call runs to its first [await], is
    suspended, and is resumed later.  [Call] records where a call stands. *)
Inductive Call :=
  (** returned [this.downloadPromise] at once: the call settles as that
      promise does *)
  | Following (p : nat)
  (** suspended in [await triggerDownload()] *)
  | AtTrigger
  (** suspended in [await this.downloadPromise]; [None] when the field
      held [null] *)
  | AtPromise (p : option nat)
  (** the call has returned a file name ([None] is [null]) or thrown *)
  | Done (r : Result (option string)).

(** The call, up to its first suspension. *)
Definition waitForDownload (triggerDownload : bool) (m : Manager) : Call * Manager :=
  match downloadPromise m with
  | Some p => (Following p, m)
  | None =>
      let p := length (promises m) in
      let m := mkManager (downloadPath m) (lastDownloadedFile m) (Some p)
                         (Some p) (Some p) (currentDownloadFilename m)
                         (promises m ++ [Pending]) in
      if triggerDownload then (AtTrigger, m) else (AtPromise (downloadPromise m), m)
  end.

(** [triggerDownload()] has completed. *)
Definition trigger_returned (c : Call) (m : Manager) : Call * Manager :=
  match c with
  | AtTrigger => (AtPromise (downloadPromise m), m)
  | _ => (c, m)
  end.

(** [triggerDownload()] has thrown [e]: the [catch] block runs. *)
Definition trigger_threw (e : Error) (c : Call) (m : Manager) : Call * Manager :=
  match c with
  | AtTrigger => (Done (Throw e), set_downloadPromise m None)
  | _ => (c, m)
  end.

(** A suspended call is resumed if what it awaits has settled. *)
Definition resume (c : Call) (m : Manager) : Call * Manager :=
  match c with
  | AtPromise None => (Done (Ok None), set_downloadPromise m None)
  | AtPromise (Some p) =>
      match promises m !! p with
      | Some (Fulfilled f) => (Done (Ok (Some f)), set_downloadPromise m None)
      | Some (Failed e) => (Done (Throw e), set_downloadPromise m None)
      | _ => (c, m)
      end
  | Following p =>
      match promises m !! p with
      | Some (Fulfilled f) => (Done (Ok (Some f)), m)
      | Some (Failed e) => (Done (Throw e), m)
      | _ => (c, m)
      end
  | _ => (c, m)
  end.

(** *** Interleavings

    The manager together with the calls made so far, and what can happen
    next: a new call, the outcome of a trigger, a browser event, or the
    resumption of a call. *)
Record System := mkSystem {
  manager : Manager;
  calls : list Call;
}.

Inductive Action :=
  | CallWait (triggerDownload : bool)
  | TriggerReturned (i : nat)
  | TriggerThrew (i : nat) (e : Error)
  | WillBegin (suggestedFilename : string)
  | Progress (event : DownloadProgressEvent)
  | Resume (i : nat).

Definition at_call (i : nat) (f : Call → Manager → Call * Manager) (s : System) : System :=
  match calls s !! i with
  | Some c =>
      let '(c', m') := f c (manager s) in
      mkSystem m' (<[i := c']> (calls s))
  | None => s
  end.

Section WithHost.
Context `{Path.Host}.

Definition step (s : System) (a : Action) : System :=
  match a with
  | CallWait t =>
      let '(c, m) := waitForDownload t (manager s) in
      mkSystem m (calls s ++ [c])
  | TriggerReturned i => at_call i trigger_returned s
  | TriggerThrew i e => at_call i (trigger_threw e) s
  | WillBegin name => mkSystem (downloadWillBegin name (manager s)) (calls s)
  | Progress ev => mkSystem (downloadProgress ev (manager s)) (calls s)
  | Resume i => at_call i resume s
  end.

Definition run (s : System) (trace : list Action) : System := foldl step s trace.

End WithHost.

(** What the [i]-th call has returned or thrown, once it has. *)
Definition observed (s : System) (i : nat) : option (Result (option string)) :=
  match calls s !! i with
  | Some (Done r) => Some r
  | _ => None
  end.

End DownloadManager.

(** ** indexer.ts *)

Module Indexer.
Import Js Fs Utils.

Definition INDEX_FILE : string := "search-index.json".

(** [item.id === id], for an item that is not [null]. *)
Definition has_id (id : string) (item : json) : bool :=
  match prop item "id" with
  | Some (JStr s) => String.eqb s id
  | _ => false
  end.

(** [index.findIndex(item => item.id === id)]: [None] is -1; reading
    the [id] of a [null] item throws. *)
Fixpoint findIndex (id : string) (index : list json) : Result (option nat) :=
  match index with
  | [] => Ok None
  | item :: rest =>
      match item with
      | JNull => Throw (mkError "Cannot read properties of null (reading 'id')" None)
      | _ =>
          if has_id id item then Ok (Some 0%nat)
          else
            match findIndex id rest with
            | Ok (Some i) => Ok (Some (S i))
            | r => r
            end
      end
  end.

(** [updateSearchIndex], from the index read from disk to the index
    written back.  [firstEntry] tells whether the conversation has a first
    entry; [entry] is the object built for the thread, with its title,
    snippet and content, which are computed from the conversation and are
    taken as given here. *)
Definition updateSearchIndex (id : string) (firstEntry : bool) (entry : json) : IO unit :=
  index ← try_catch
             (content ← readFile INDEX_FILE; lift (JSON_parse content))
             (fun e => mret (JArr []));
  if negb firstEntry then mret tt
  else
    match index with
    | JArr index =>
        existingIndex ← lift (findIndex id index);
        let index :=
          match existingIndex with
          | Some i => <[i := entry]> index
          | None => index ++ [entry]
          end in
        writeFile INDEX_FILE (JsonText (JArr index))
    | _ => throw (mkError "index.findIndex is not a function" None)
    end.

End Indexer.

(** ** auto-export.ts *)

Module AutoExport.
Import Js Fs Types Utils ConversationSaver.

Definition DONE_FILE : string := "done.json".
Definition ERROR_FILE : string := "errors.json".
Definition STATUS_FILE : string := "status.json".
Definition FOUND_FILE : string := "found.json".
Definition SKIPPED_FILE : string := "skipped.json".
Definition MAX_ATTEMPTS : nat := 3.

Record Config := mkConfig {
  file_prefix : string;
  batch_size : nat;
  output_dir : string;
}.

Definition error_entry (now : Z) (url error : string) : json :=
  JObj (<["url" := JStr url]>
        (<["error" := JStr error]>
         (<["timestamp" := JStr (Date.toISOString now)]> ∅))).

(** [logError]: an unreadable or unparseable log is read as the empty
    list; [errors.push] needs the parsed value to be an array. *)
Definition logError (now : Z) (url error : string) : IO unit :=
  errors ← try_catch
              (content ← readFile ERROR_FILE; lift (JSON_parse content))
              (fun e => mret (JArr []));
  match errors with
  | JArr errors =>
      writeFile ERROR_FILE (JsonText (JArr (errors ++ [error_entry now url error])))
  | _ => throw (mkError "errors.push is not a function" None)
  end.

(** A file that [downloadGeneratedFiles] gave up on. *)
Record Skipped := mkSkipped {
  skipped_url : string;
  skipped_error : string;
}.

Definition json_of_skipped (s : Skipped) : json :=
  JObj (<["url" := JStr (skipped_url s)]> (<["error" := JStr (skipped_error s)]> ∅)).

Definition skipped_entry (now : Z) (threadId : string) (skipped : list Skipped) : json :=
  JObj (<["threadId" := JStr threadId]>
        (<["skipped" := JArr (json_of_skipped <$> skipped)]>
         (<["timestamp" := JStr (Date.toISOString now)]> ∅))).

(** [logSkippedFiles], which is [logError] for [skipped.json]. *)
Definition logSkippedFiles (now : Z) (threadId : string) (skipped : list Skipped)
    : IO unit :=
  allSkipped ← try_catch
                  (content ← readFile SKIPPED_FILE; lift (JSON_parse content))
                  (fun e => mret (JArr []));
  match allSkipped with
  | JArr allSkipped =>
      writeFile SKIPPED_FILE
                (JsonText (JArr (allSkipped ++ [skipped_entry now threadId skipped])))
  | _ => throw (mkError "allSkipped.push is not a function" None)
  end.

Definition status_json (now : Z) (current total : nat) (message phase : string) : json :=
  JObj (<["current" := JNum (Z.of_nat current)]>
        (<["total" := JNum (Z.of_nat total)]>
         (<["message" := JStr message]>
          (<["phase" := JStr phase]>
           (<["timestamp" := JStr (Date.toISOString now)]>
            (<["active" := JBool (negb (String.eqb phase "complete")
                                  && negb (String.eqb phase "idle"))]>
             (<["type" := JStr "export"]> ∅))))))).

(** [updateStatus] *)
Definition updateStatus (now : Z) (current total : nat) (message phase : string)
    : IO unit :=
  writeFile STATUS_FILE (JsonText (status_json now current total message phase)).

Definition found_json (now : Z) (conversations : list Conversation) : json :=
  JObj (<["count" := JNum (Z.of_nat (length conversations))]>
        (<["timestamp" := JStr (Date.toISOString now)]>
         (<["urls" := JArr ((fun c => JObj (<["title" := JStr (title c)]>
                                            (<["url" := JStr (url c)]> ∅)))
                            <$> conversations)]> ∅))).

(** [logFoundUrls] *)
Definition logFoundUrls (now : Z) (conversations : list Conversation) : IO unit :=
  writeFile FOUND_FILE (JsonText (found_json now conversations)).

(** An inline artifact of the thread data: the file name and the
    content that [extractInlineArtifacts] found in the blocks of the
    entries. *)
Record InlineArtifact := mkArtifact {
  filename : string;
  content : string;
}.

(** What [downloadGeneratedFiles] returns. *)
Record Downloads := mkDownloads {
  localFiles : list (string * string);
  skippedFiles : list Skipped;
}.

(** What lies outside the driver while one thread is processed: the
    browser, the modules that drive it, and what they compute from the
    blocks of the entries, which the entries of the model do not carry.
    - [attempt k] is the outcome of the [k]-th call of
      [loadThreadFromURL], and [inlineArtifacts] the inline artifacts of
      the thread data it returns;
    - [isLoginPage k] and [login k] are the outcomes of the calls of
      [isLoginPage] and of [login] after the [k]-th failure;
    - [clock] is the clock reading used for the time stamps written for
      this thread;
    - [downloadGeneratedFiles] is the call of that name, with what it
      does to the disk;
    - [render] is [renderConversation] on a conversation that has
      entries, and [index_entry] the object [updateSearchIndex] builds
      for the thread. *)
Record RecordEnv := mkEnv {
  attempt : nat → Result ThreadData;
  isLoginPage : nat → Result bool;
  login : nat → Result unit;
  clock : Z;
  inlineArtifacts : list InlineArtifact;
  downloadGeneratedFiles :
    ConversationResponse → string → string → list string → IO Downloads;
  render : ConversationResponse → list (string * string) → Result string;
  index_entry : json;
}.

(** The retry loop [while (attempts < MAX_ATTEMPTS)], with [remaining] the
    iterations left: after [attempts++] the counter is
    [MAX_ATTEMPTS - remaining].  The result is [threadData], [None] when it is
    [null] or still [undefined].  An error thrown in the [catch] block,
    by [logError], [isLoginPage] or [login], leaves the loop. *)
Fixpoint retry (env : RecordEnv) (url : string) (remaining : nat) : IO (option ThreadData) :=
  match remaining with
  | O => mret None
  | S remaining =>
      let attempts := (MAX_ATTEMPTS - remaining)%nat in
      match attempt env attempts with
      | Ok threadData => mret (Some threadData)
      | Throw error =>
          if includes (message error) "Perplexity API Error" then
            logError (clock env) url (message error);; mret None
          else if includes (message error) "Timeout waiting for thread data" then
            loginNeeded ← lift (isLoginPage env attempts);
            if loginNeeded : bool then
              lift (login env attempts);; retry env url remaining
            else if (MAX_ATTEMPTS <=? attempts)%nat then
              logError (clock env) url "Timeout waiting for API response";; mret None
            else retry env url remaining
          else
            loginNeeded ← lift (isLoginPage env attempts);
            if loginNeeded : bool then
              lift (login env attempts);; retry env url remaining
            else if (MAX_ATTEMPTS <=? attempts)%nat then
              logError (clock env) url (message error);; mret None
            else retry env url remaining
      end
  end.

Definition fetchThread (env : RecordEnv) (url : string) : IO (option ThreadData) :=
  retry env url MAX_ATTEMPTS.

Definition json_of_entry (e : ConversationEntry) : json :=
  JObj (<["uuid" := JStr (uuid e)]>
        (<["updated_datetime" := JStr (updated_datetime e)]>
         (<["entry_updated_datetime" := JStr (entry_updated_datetime e)]>
          (<["query_str" := JStr (query_str e)]> ∅)))).

Definition json_of_conversation (c : ConversationResponse) : json :=
  JObj (<["status" := JStr (status c)]>
        (<["entries" := JArr (json_of_entry <$> entries c)]>
         (<["has_next_page" := JBool (has_next_page c)]>
          (<["next_cursor" := from_option JStr JNull (next_cursor c)]>
           (<["domUrls" := from_option (fun l => JArr (JStr <$> l)) JNull (domUrls c)]> ∅))))).

(** The default [sort()] of strings. *)
Definition compare_strings (a b : string) : option Z :=
  Some (match String.compare a b with Lt => -1 | Eq => 0 | Gt => 1 end).

(** The latest time stamp among the entries, or the current time. *)
Definition latestUpdated (now : Z) (c : ConversationResponse) : string :=
  let stamps :=
    List.filter truthy
      ((fun e => or_else (updated_datetime e) (entry_updated_datetime e)) <$> entries c) in
  or_else (default "" (last (sort compare_strings stamps))) (Date.toISOString now).

(** [renderConversation]: a conversation without entries renders as the
    empty document. *)
Definition renderConversation (env : RecordEnv) (conversation : ConversationResponse)
    (localFiles : list (string * string)) : Result string :=
  match entries conversation with
  | [] => Ok ""
  | _ => render env conversation localFiles
  end.

Section WithPath.
Context `{Path.Host}.

(** The loop over [threadData.inlineArtifacts]: each artifact is written
    under [artifactDir] and entered, under its file name, with its path
    relative to the output directory. *)
Fixpoint writeArtifacts (config : Config) (artifactDir : string)
    (artifacts : list InlineArtifact) (inlineLocalFiles : list (string * string))
    : IO (list (string * string)) :=
  match artifacts with
  | [] => mret inlineLocalFiles
  | artifact :: rest =>
      let targetPath := Path.join [artifactDir; filename artifact] in
      writeFile targetPath (Text (content artifact));;
      let relativePath := Path.relative (output_dir config) targetPath in
      writeArtifacts config artifactDir rest
        (set_prop inlineLocalFiles ("inline://" +:+ filename artifact) relativePath)
  end.

Definition saveInlineArtifacts (config : Config) (threadId : string)
    (artifacts : list InlineArtifact) : IO (list (string * string)) :=
  if (0 <? length artifacts)%nat then
    let artifactDir := Path.join [output_dir config; "files"; threadId] in
    mkdir artifactDir;;
    writeArtifacts config artifactDir artifacts []
  else mret [].

(** One iteration of the [for] loop over the threads to process, from
    the retry loop on; [i] is the index of the thread and [limit] the
    size of the batch.  A thread without data is skipped, [continue];
    otherwise every step is awaited in turn and an error thrown by any
    of them leaves the loop.  The delay between threads and the debug
    log are not modelled. *)
Definition processConversation (config : Config) (env : RecordEnv) (i limit : nat)
    (doneFile : DoneFile) (conv : Conversation) : IO DoneFile :=
  threadData ← fetchThread env (url conv);
  match threadData with
  | None => mret doneFile
  | Some threadData =>
      let threadId := thread_id threadData in
      let safeTitle := file_prefix config +:+ threadId in
      writeFile (output_dir config +:+ "/" +:+ safeTitle +:+ ".json")
                (JsonText (json_of_conversation (conversation threadData)));;
      inlineLocalFiles ← saveInlineArtifacts config threadId (inlineArtifacts env);
      downloads ← downloadGeneratedFiles env (conversation threadData)
                     (output_dir config) threadId (thread_domUrls threadData);
      let localFiles := Object_assign (localFiles downloads) inlineLocalFiles in
      (if (0 <? length (skippedFiles downloads))%nat
       then logSkippedFiles (clock env) threadId (skippedFiles downloads)
       else mret tt);;
      markdown ← lift (renderConversation env (conversation threadData) localFiles);
      writeFile (output_dir config +:+ "/" +:+ safeTitle +:+ ".md") (Text markdown);;
      let doneFile :=
        markProcessed (clock env) doneFile (url conv)
                      (latestUpdated (clock env) (conversation threadData)) in
      saveDoneFile doneFile DONE_FILE;;
      Indexer.updateSearchIndex threadId
        (bool_decide (entries (conversation threadData) ≠ [])) (index_entry env);;
      updateStatus (clock env) (S i) limit ("Processed " +:+ title conv) "downloading";;
      mret doneFile
  end.

(** The message shown while a thread is saved, with the bytes of its
    pictograph as the source file has them. *)
Definition saving_message (conv : Conversation) : string :=
  "ðŸ“‚ Saving: " +:+ title conv +:+ "...".

(** The [for] loop; [i] is the index of the first thread of [convs]. *)
Fixpoint processAll (config : Config) (envs : nat → RecordEnv) (i limit : nat)
    (doneFile : DoneFile) (convs : list Conversation) : IO DoneFile :=
  match convs with
  | [] => mret doneFile
  | conv :: rest =>
      updateStatus (clock (envs i)) i limit (saving_message conv) "downloading";;
      doneFile ← processConversation config (envs i) i limit doneFile conv;
      processAll config envs (S i) limit doneFile rest
  end.

Context `{Date.Host}.

(** The run once the state is loaded and the library has been scanned:
    [discovered] is what [getConversations] found.  The browser, [login]
    and the scan come before it and are taken to have succeeded. *)
Definition exportBatch (config : Config) (now : Z) (discovered : list Conversation)
    (envs : nat → RecordEnv) (doneFile : DoneFile) : IO DoneFile :=
  let toProcess := ListConversations.toProcess now doneFile discovered in
  logFoundUrls now discovered;;
  if (length toProcess =? 0)%nat then
    updateStatus now 0 0 "Idle - Library up to date" "idle";;
    mret doneFile
  else
    let limit := Nat.min (length toProcess) (batch_size config) in
    updateStatus now 0 limit "ðŸš€ Initializing export..." "initializing";;
    doneFile ← processAll config envs 0 limit doneFile (take limit toProcess);
    updateStatus now limit limit "Batch completed!" "complete";;
    mret doneFile.

(** The run, from the creation of the output directory and the loading
    of the state to the end of the batch.  The outer [try/catch] of
    [runAutoExport] turns an exception into the end of the run. *)
Definition runAutoExport (config : Config) (now : Z)
    (discovered : list Conversation) (envs : nat → RecordEnv) : IO DoneFile :=
  mkdir (output_dir config);;
  doneFile ← loadDoneFile now DONE_FILE;
  exportBatch config now discovered envs doneFile.

End WithPath.

End AutoExport.

(** ** saveConversation.ts *)

Module SaveConversation.
Import Js.

(** What happens while one conversation is exported: the outcome of the
    [k]-th call of [waitForDownload], counted from 0, and of the click
    that reopens the menu before retry [k], [None] when it succeeds. *)
Record ExportEnv := mkExportEnv {
  download : nat → Result string;
  menu_click : nat → option Error;
}.

Definition maxRetries : nat := 4.

(** [error instanceof DownloadError && error.statusCode === 429] *)
Definition is_rate_limit (error : Error) : bool :=
  match statusCode error with
  | Some code => code =? 429
  | None => false
  end.

(** The loop [while (retryCount < maxRetries)] with [remaining]
    iterations left, so that [retryCount] is [maxRetries - remaining];
    the result is the file that was downloaded.  The loop before it,
    which opens the menu until the export option shows, is not
    modelled. *)
Fixpoint export_retry (env : ExportEnv) (remaining : nat) : Result (option string) :=
  match remaining with
  | O => Ok None
  | S remaining =>
      let retryCount := (maxRetries - S remaining)%nat in
      match download env retryCount with
      | Ok downloadedFile => Ok (Some downloadedFile)
      | Throw error =>
          if is_rate_limit error then
            let retryCount := S retryCount in
            if (retryCount <? maxRetries)%nat then
              match menu_click env retryCount with
              | Some e => Throw e
              | None => export_retry env remaining
              end
            else Throw error
          else Throw error
      end
  end.

Definition saveConversation (env : ExportEnv) : Result (option string) :=
  export_retry env maxRetries.

End SaveConversation.

(** ** fileDownloader.ts *)

Module FileDownloader.
Import Js.

(** [extractAllUrls], which [renderConversation] has as well.  The
    properties of an object are visited in the order of the finite map;
    the sources visit them in the order of insertion. *)
Fixpoint extractAllUrls (obj : json) : list string :=
  if negb (js_truthy obj) || negb (String.eqb (typeof obj) "object") then []
  else if String.eqb (typeof obj) "string" then
    match obj with
    | JStr s => if startsWith s "http://" || startsWith s "https://" then [s] else []
    | _ => []
    end
  else
    match obj with
    | JArr l => foldl (fun urls v => urls ++ extractAllUrls v) [] l
    | JObj o => map_fold (fun _ v urls => urls ++ extractAllUrls v) [] o
    | _ => []
    end.

Definition GENERATED_DOMAINS : list string :=
  ["perplexity.ai"; "s3.amazonaws.com"; "ppl-ai"; "imagedelivery.net"].

Definition skipPatterns : list string :=
  ["google.com"; "bing.com"; "youtube.com"; "twitter.com"; "facebook.com"; "linkedin.com"].

(** The filter on the URLs. *)
Definition is_generated (url : string) : bool :=
  let matchesDomain :=
    existsb (fun domain => includes (toLowerCase url) (toLowerCase domain))
            GENERATED_DOMAINS in
  let isNotSkipped :=
    negb (existsb (fun p => includes (toLowerCase url) p) skipPatterns) in
  matchesDomain && isNotSkipped.

(** [Array.from(new Set(urls))]: the first occurrence of each element,
    in order. *)
Fixpoint unique_from (seen : gset string) (urls : list string) : list string :=
  match urls with
  | [] => []
  | url :: rest =>
      if decide (url ∈ seen) then unique_from seen rest
      else url :: unique_from ({[url]} ∪ seen) rest
  end.

(** The URLs that [downloadGeneratedFiles] goes on to fetch. *)
Definition uniqueUrls (conversation : json) (extraUrls : list string) : list string :=
  let allUrls := extractAllUrls conversation ++ extraUrls in
  List.filter is_generated (unique_from ∅ allUrls).

End FileDownloader.

(** ** server.ts: the export endpoint *)

Module Server.

(** The flag [isExporting] and, as a ghost, the number of handlers of
    [POST /api/export] that have started an export and have not reached
    their [finally] block. *)
Record State := mkState {
  isExporting : bool;
  exports : nat;
}.

Definition initial : State := mkState false 0.

(** What happens at the endpoint: a request arrives, or the export
    started by an earlier request settles, with or without an error. *)
Inductive Event := ExportRequest | ExportSettled.

(** The handler up to its first [await], with the status of the
    response it sends. *)
Definition exportRequest (s : State) : Z * State :=
  if isExporting s then (429, s)
  else (200, mkState true (S (exports s))).

(** The [finally] block of a handler that started an export. *)
Definition exportSettled (s : State) : State :=
  match exports s with
  | O => s
  | S n => mkState false n
  end.

Definition step (s : State) (ev : Event) : State :=
  match ev with
  | ExportRequest => (exportRequest s).2
  | ExportSettled => exportSettled s
  end.

Definition run (s : State) (events : list Event) : State := foldl step s events.

End Server.

(* ================================================================== *)
(** * Part II: the vocabulary of the properties, and sample data *)
(* ================================================================== *)

Section HarvestVocabulary.
Import Js Types ConversationSaver.

(** The invariant of the merge loop: the set holds the uuids of the
    buffer. *)
Definition merge_inv (st : MergeState) : Prop :=
  ∀ u, u ∈ existingUuids st ↔ u ∈ uuids (merged st).

(** What an iteration does with the page it receives. *)
Definition requests_one (st st' : LoopState) : Prop :=
  requested st' = requested st ++ [cursor_text (cursor st)] ∧
  pageNum st' = S (pageNum st).

(** A page on which every run ends: the request fails, or the page
    carries an error, no entries, no further page or no cursor. *)
Definition final_page (page : option PageData) : bool :=
  match page with
  | None => true
  | Some page =>
      truthy (pd_error page) || (length (pd_entries page) =? 0)%nat
      || negb (pd_has_next_page page && truthy_opt (pd_next_cursor page))
  end.

End HarvestVocabulary.

Section KeyOrder.
Context {A : Type} (key : A → option Z).

(** [a] may stand before [b]: both keys are numbers and the first is not
    the greater one. *)
Definition not_after (a b : A) : Prop :=
  ∃ x y, key a = Some x ∧ key b = Some y ∧ x ≤ y.

Definition has_key (a : A) : Prop := is_Some (key a).

End KeyOrder.

Section TimeVocabulary.
Import Js Types ConversationSaver.
Context `{Date.Host}.

(** Ascending by time stamp, read position by position. *)
Definition chronological (es : list ConversationEntry) : Prop :=
  ∀ i j a b, (i < j)%nat → es !! i = Some a → es !! j = Some b →
    ∃ timeA timeB,
      entry_time a = Some timeA ∧ entry_time b = Some timeB ∧ timeA ≤ timeB.

(** The same with every entry strictly later than the ones before it. *)
Definition strictly_chronological (es : list ConversationEntry) : Prop :=
  ∀ i j a b, (i < j)%nat → es !! i = Some a → es !! j = Some b →
    ∃ timeA timeB,
      entry_time a = Some timeA ∧ entry_time b = Some timeB ∧ timeA < timeB.

Definition dated (es : list ConversationEntry) : Prop :=
  Forall (fun e => is_Some (entry_time e)) es.

(** A zone whose offset from UTC is the same at all times. *)
Definition fixed_offset (z : Z) : Prop := ∀ t isUTC, Date.LocalTZA t isUTC = z.

End TimeVocabulary.

Section DownloadVocabulary.
Import Js DownloadManager.

(** A call that created the promise it waits for and has not yet left
    [waitForDownload]. *)
Definition is_owner (c : Call) : bool :=
  match c with
  | AtTrigger | AtPromise _ => true
  | _ => false
  end.

(** What holds of every state reached from a fresh manager: a call
    suspended in [waitForDownload] owns the promise in the field
    [downloadPromise], and there is at most one such call. *)
Record wf (s : System) : Prop := mkWf {
  wf_promise : ∀ i q, calls s !! i = Some (AtPromise q) →
    q = downloadPromise (manager s) ∧ is_Some q;
  wf_trigger : ∀ i, calls s !! i = Some AtTrigger →
    is_Some (downloadPromise (manager s));
  wf_owner : ∀ i j ci cj,
    calls s !! i = Some ci → calls s !! j = Some cj →
    is_owner ci = true → is_owner cj = true → i = j;
}.

(** What a call observes when the promise it follows has settled. *)
Definition settled_as (st : option Settlement) (r : Result (option string)) : Prop :=
  match st, r with
  | Some (Fulfilled f), Ok (Some f') => f = f'
  | Some (Failed e), Throw e' => e = e'
  | _, _ => False
  end.

(** Promises are only ever added or settled: one that has settled stays
    as it is. *)
Definition extends (m m' : Manager) : Prop :=
  ∀ p st, promises m !! p = Some st → st ≠ Pending → promises m' !! p = Some st.

(** The first call: it still owns promise [p], or it has observed how
    [p] settled. *)
Definition first_ok (p : nat) (c : Call) (m : Manager) : Prop :=
  match c with
  | AtTrigger => downloadPromise m = Some p
  | AtPromise q => q = Some p ∧ downloadPromise m = Some p
  | Done r => settled_as (promises m !! p) r
  | Following _ => False
  end.

(** The second call: it follows promise [p], or it has observed how [p]
    settled. *)
Definition second_ok (p : nat) (c : Call) (m : Manager) : Prop :=
  match c with
  | Following q => q = p
  | Done r => settled_as (promises m !! p) r
  | _ => False
  end.

Record paired (i0 i1 p : nat) (s : System) : Prop := mkPaired {
  paired_first : ∃ c, calls s !! i0 = Some c ∧ first_ok p c (manager s);
  paired_second : ∃ c, calls s !! i1 = Some c ∧ second_ok p c (manager s);
}.

(** The three ways in which a suspended call moves on. *)
Definition moves_on (f : Call → Manager → Call * Manager) : Prop :=
  (∀ c m, promises (f c m).2 = promises m) ∧
  (∀ c m, is_owner c = false → (f c m).2 = m) ∧
  (∀ p c m, second_ok p c m → second_ok p (f c m).1 (f c m).2).

End DownloadVocabulary.

Section ExportVocabulary.
Import Js Fs Types Utils ConversationSaver AutoExport.

(** The error log can be appended to: its file can be written and, if it
    parses at all, holds a list. *)
Definition error_log_ok (disk : Disk) : Prop :=
  (ERROR_FILE ∉ failing disk) ∧
  ∀ v, files disk !! ERROR_FILE = Some (JsonText v) → ∃ errors, v = JArr errors.

(** The entries of the error log, as [logError] reads them. *)
Definition logged (disk : Disk) : list json :=
  match files disk !! ERROR_FILE with
  | Some (JsonText (JArr errors)) => errors
  | _ => []
  end.

Definition with_error (now : Z) (url error : string) (disk : Disk) : Disk :=
  mkDisk (<[ERROR_FILE := JsonText (JArr (logged disk ++ [error_entry now url error]))]>
            (files disk))
         (failing disk).


(** Neither the login check nor [login] throws. *)
Definition login_returns (env : RecordEnv) : Prop :=
  ∀ k, (∃ loginNeeded, isLoginPage env k = Ok loginNeeded) ∧ login env k = Ok tt.

(** The [k]-th attempt fails and leaves the loop running: its error is
    not a report of the remote API, and the page does not show the login
    form or [login] returns. *)
Definition retried (env : RecordEnv) (k : nat) : Prop :=
  ∃ e, attempt env k = Throw e ∧
       includes (message e) "Perplexity API Error" = false ∧
       (isLoginPage env k = Ok false ∨
        (isLoginPage env k = Ok true ∧ login env k = Ok tt)).


(** A fetch that fails on every attempt. *)
Definition always_fails (env : RecordEnv) : Prop :=
  ∀ k, ∃ e, attempt env k = Throw e.

(** The errors of the three attempts are not reports of the remote API. *)
Definition transient (env : RecordEnv) : Prop :=
  ∀ k, ∃ e, attempt env k = Throw e ∧
            includes (message e) "Perplexity API Error" = false.

(** The message logged for an error of the last attempt. *)
Definition logged_message (e : Error) : string :=
  if includes (message e) "Timeout waiting for thread data"
  then "Timeout waiting for API response"
  else message e.

End ExportVocabulary.

Section PaginationSamples.
Import Js Types ConversationSaver.

Definition page1 : ConversationResponse :=
  mkResponse "ok" [mkEntry "n1" "" "" "newest"] true (Some "c1") None.

(** A remote side that answers the first request with one older entry and
    the contradiction "more pages, no cursor". *)
Definition one_older_page : PageServer :=
  fun _ _ _ => Some (mkPage "" [mkEntry "o1" "" "" "older"] true None).

(** A remote side that keeps answering with the entry already known, a
    further page and the same cursor. *)
Definition stale_pages : PageServer :=
  fun _ _ _ => Some (mkPage "" [mkEntry "n1" "" "" "newest"] true (Some "c1")).

End PaginationSamples.

Section OrderSamples.
Import Js Types ConversationSaver.

Definition noon : string := "2026-02-20T12:00:00.000Z".

Definition morning : string := "2026-02-20T08:30:00.000Z".

(** Two harvested fragments of thread [t1], the later one first. *)
Definition two_fragments : Browser :=
  mkBrowser
    [("t1", mkResponse "ok" [mkEntry "b" noon "" "second"] false None None);
     ("t1", mkResponse "ok" [mkEntry "a" "" morning "first"] false None None)]
    [] (fun _ _ _ => None).

End OrderSamples.

Section ClassifySamples.
Import Js Utils ListConversations.

(** 20 February 2026, 12:00 UTC *)
Definition midday : Z := 1771588800000.

Definition thread_url : string := "https://www.perplexity.ai/search/t1".

(** A thread last changed remotely at 09:00 and downloaded at 11:00. *)
Definition downloaded_at_11 : DoneFile :=
  mkDone (<[thread_url := mkProcessed "2026-02-20T09:00:00.000Z" "2026-02-20T11:00:00.000Z"]> ∅).

(** The same thread downloaded at 09:00. *)
Definition downloaded_at_9 : DoneFile :=
  mkDone (<[thread_url := mkProcessed "2026-02-20T09:00:00.000Z" "2026-02-20T09:00:00.000Z"]> ∅).

End ClassifySamples.

Section StateSamples.
Import Js Fs Utils.

Definition legacy_file (urls : list string) : Disk :=
  mkDisk (<["done.json" := JsonText (JObj (<["processedUrls" := JArr (JStr <$> urls)]> ∅))]> ∅) ∅.

End StateSamples.

Section HostSamples.

(** A POSIX host with the working directory [/srv]. *)
Definition posix_host : Path.Host := Path.posix "/srv".

End HostSamples.

Section DownloadSamples.
Import Js DownloadManager.

Definition a_download : list Action :=
  [WillBegin "report.pdf"; Progress (mkEvent completed "")].

End DownloadSamples.

Section OrchestratorSamples.
Import Js Fs Types Utils ConversationSaver AutoExport.

Definition config0 : Config := mkConfig "thread-" 10 "out".

Definition thread1 : Conversation :=
  mkConversation "A thread" "https://www.perplexity.ai/search/t1" (Some "2 hours ago").

Definition thread1_data : ThreadData :=
  mkThread "t1"
    (mkResponse "ok" [mkEntry "a" "2026-02-20T08:30:00.000Z" "" "first"] false None (Some []))
    [].

Definition timeout : Error :=
  mkError "Timeout waiting for thread data API response for t1" None.


(** No file is downloaded and none is skipped. *)
Definition no_downloads
    : ConversationResponse → string → string → list string → IO Downloads :=
  fun _ _ _ _ => mret (mkDownloads [] []).

Definition index_entry1 : json :=
  JObj (<["id" := JStr "t1"]> (<["title" := JStr "first"]> ∅)).

(** The fetch succeeds at once. *)
Definition fetch_ok : RecordEnv :=
  mkEnv (fun _ => Ok thread1_data) (fun _ => Ok false) (fun _ => Ok tt) 1771588800000
        [] no_downloads (fun _ _ => Ok "# A thread") index_entry1.

(** The first attempt times out and the second succeeds. *)
Definition fetch_ok_second : RecordEnv :=
  mkEnv (fun k => if (k =? 1)%nat then Throw timeout else Ok thread1_data)
        (fun _ => Ok false) (fun _ => Ok tt) 1771588800000
        [] no_downloads (fun _ _ => Ok "# A thread") index_entry1.

(** Every attempt times out and the page never shows the login form. *)
Definition fetch_times_out : RecordEnv :=
  mkEnv (fun _ => Throw timeout) (fun _ => Ok false) (fun _ => Ok tt) 1771588800000
        [] no_downloads (fun _ _ => Ok "") JNull.

(** Every attempt times out and the login form shows after the third. *)
Definition fetch_times_out_then_login : RecordEnv :=
  mkEnv (fun _ => Throw timeout) (fun k => Ok (k =? 3)%nat) (fun _ => Ok tt) 1771588800000
        [] no_downloads (fun _ _ => Ok "") JNull.






End OrchestratorSamples.

Section JsonVocabulary.
Import Js.

(** The number of constructors of a JSON value. *)
Fixpoint json_size (v : json) : nat :=
  match v with
  | JArr l => S (foldr (fun v n => json_size v + n)%nat 0%nat l)
  | JObj o => S (map_fold (fun _ v n => json_size v + n)%nat 0%nat o)
  | _ => 1%nat
  end.

End JsonVocabulary.

Section PaginationVocabulary.
Import Js Types ConversationSaver.

(** The invariant of the pagination loop: no uuid occurs twice among
    the entries collected, and the set holds their uuids. *)
Definition collected (st : LoopState) : Prop :=
  NoDup (uuids (allEntries st)) ∧
  ∀ u, u ∈ seenUuids st ↔ u ∈ uuids (allEntries st).

(** The invariant of the loop over the entries of one page, entered with
    the set [seen0]. *)
Definition fresh (seen0 : gset string) (d : Dedup) : Prop :=
  NoDup (uuids (newEntries d)) ∧
  (∀ u, u ∈ uuids (newEntries d) → u ∉ seen0) ∧
  (∀ u, u ∈ seen d ↔ u ∈ seen0 ∨ u ∈ uuids (newEntries d)).

End PaginationVocabulary.

(* ================================================================== *)
(** * Part III: properties *)
(* ================================================================== *)
(** ** The response harvester *)

Section Harvester.
Import Js Types ConversationSaver.

Lemma uuids_cons e es : uuids (e :: es) = uuid e :: uuids es.
Proof. reflexivity. Qed.

Lemma uuids_app es1 es2 : uuids (es1 ++ es2) = uuids es1 ++ uuids es2.
Proof. apply fmap_app. Qed.

Lemma elem_of_uuids e es : e ∈ es → uuid e ∈ uuids es.
Proof. intros. apply list_elem_of_fmap. eauto. Qed.

Lemma merge_step_old st e :
  uuid e ∈ existingUuids st → merge_step st e = st.
Proof. intros. unfold merge_step. by rewrite decide_True. Qed.

Lemma merge_step_new st e :
  uuid e ∉ existingUuids st →
  merge_step st e
  = mkMerge (merged st ++ [e]) ({[uuid e]} ∪ existingUuids st) (S (addedCount st)).
Proof. intros. unfold merge_step. by rewrite decide_False. Qed.

Lemma merge_step_inv st e : merge_inv st → merge_inv (merge_step st e).
Proof.
  intros Hinv. destruct (decide (uuid e ∈ existingUuids st)) as [Hin|Hin].
  - by rewrite merge_step_old.
  - rewrite merge_step_new by done. intros u. simpl.
    rewrite uuids_app, elem_of_app, elem_of_union, elem_of_singleton, (Hinv u).
    rewrite uuids_cons, list_elem_of_singleton. tauto.
Qed.

Lemma not_in_snoc (u : string) (us : list string) (v : string) :
  u ∉ us ++ [v] ↔ (u ∉ us) ∧ (u ≠ v).
Proof. rewrite elem_of_app, list_elem_of_singleton. tauto. Qed.

Lemma merge_inv_initial existing :
  merge_inv (mkMerge existing (list_to_set (uuids existing)) 0).
Proof. intros u. simpl. by rewrite elem_of_list_to_set. Qed.

(** What one run of the loop appends to a buffer. *)
Lemma merge_loop_spec incoming : ∀ st,
  merge_inv st →
  merge_inv (foldl merge_step st incoming) ∧
  ∃ added,
    merged (foldl merge_step st incoming) = merged st ++ added ∧
    added `sublist_of` incoming ∧
    (∀ e, e ∈ added → uuid e ∉ uuids (merged st)) ∧
    NoDup (uuids added) ∧
    (∀ i e, incoming !! i = Some e →
       uuid e ∉ uuids (merged st) → uuid e ∉ uuids (take i incoming) → e ∈ added) ∧
    (∀ e, e ∈ added →
       ∃ i, incoming !! i = Some e ∧ uuid e ∉ uuids (take i incoming)) ∧
    (∀ e, e ∈ incoming → uuid e ∈ uuids (merged st) ∨ uuid e ∈ uuids added).
Proof.
  induction incoming as [|x incoming IH]; intros st Hinv.
  - split; [done|]. exists []. simpl. rewrite app_nil_r.
    split; [done|]. split; [done|]. split; [by intros e ?%elem_of_nil|].
    split; [constructor|]. split; [done|].
    split; by intros e ?%elem_of_nil.
  - simpl foldl.
    destruct (IH (merge_step st x) (merge_step_inv st x Hinv))
      as (Hinv' & added & Hm & Hsub & Hfresh & Hnd & Hfirst & Hpos & Hcov).
    clear IH. split; [done|].
    destruct (decide (uuid x ∈ existingUuids st)) as [Hx|Hx].
    + (* the uuid of [x] is in the buffer: [x] is skipped *)
      rewrite merge_step_old in * by done. apply Hinv in Hx.
      exists added. split; [done|]. split; [by apply sublist_cons|].
      split; [done|]. split; [done|]. split; [|split].
      * intros [|i] e Hi Hne Hpre; simpl in Hi.
        -- by simplify_eq.
        -- apply (Hfirst i e Hi Hne).
           change (uuid e ∉ uuid x :: uuids (take i incoming)) in Hpre.
           by apply not_elem_of_cons in Hpre as [_ ?].
      * intros e Hin. destruct (Hpos e Hin) as (i & Hi & Hpre).
        exists (S i). split; [done|].
        change (uuid e ∉ uuid x :: uuids (take i incoming)).
        apply not_elem_of_cons. split; [|done].
        intros Heq. apply (Hfresh e Hin). by rewrite Heq.
      * intros e [->|Hin]%elem_of_cons; [by left | by apply Hcov].
    + (* [x] is pushed *)
      rewrite merge_step_new in * by done. simpl in *.
      assert (uuid x ∉ uuids (merged st)) as Hx' by (by rewrite <- (Hinv _)).
      assert (∀ e, e ∈ added → (uuid e ∉ uuids (merged st)) ∧ (uuid e ≠ uuid x)) as Hfresh'.
      { intros e Hin. apply not_in_snoc. rewrite <- (uuids_app _ [x]). by apply Hfresh. }
      exists (x :: added). rewrite Hm, <- app_assoc.
      split; [done|]. split; [by apply sublist_skip|]. split; [|split; [|split; [|split]]].
      * intros e [->|Hin]%elem_of_cons; [done|]. by apply Hfresh'.
      * rewrite uuids_cons. apply NoDup_cons. split; [|done].
        intros (e & He & Hin)%list_elem_of_fmap. by apply (Hfresh' e Hin).
      * intros [|i] e Hi Hne Hpre; simpl in Hi.
        -- simplify_eq. by left.
        -- right. change (uuid e ∉ uuid x :: uuids (take i incoming)) in Hpre.
           apply not_elem_of_cons in Hpre as [Hneq Hpre].
           apply (Hfirst i e Hi); [|done].
           rewrite uuids_app. by apply not_in_snoc.
      * intros e [->|Hin]%elem_of_cons.
        -- exists 0%nat. split; [done|]. simpl. by intros ?%elem_of_nil.
        -- destruct (Hpos e Hin) as (i & Hi & Hpre).
           exists (S i). split; [done|].
           change (uuid e ∉ uuid x :: uuids (take i incoming)).
           apply not_elem_of_cons. split; [by apply Hfresh'|done].
      * intros e [->|Hin]%elem_of_cons.
        -- right. rewrite uuids_cons. by left.
        -- destruct (Hcov e Hin) as [Hl|Hr].
           ++ rewrite uuids_app in Hl. apply elem_of_app in Hl as [Hl|Hl]; [by left|].
              right. rewrite uuids_cons. apply list_elem_of_singleton in Hl.
              rewrite Hl. by left.
           ++ right. rewrite uuids_cons. by right.
Qed.

Lemma merge_entries_spec existing incoming :
  ∃ added,
    merged (merge_entries existing incoming) = existing ++ added ∧
    added `sublist_of` incoming ∧
    (∀ e, e ∈ added → uuid e ∉ uuids existing) ∧
    NoDup (uuids added) ∧
    (∀ i e, incoming !! i = Some e →
       uuid e ∉ uuids existing → uuid e ∉ uuids (take i incoming) → e ∈ added) ∧
    (∀ e, e ∈ added →
       ∃ i, incoming !! i = Some e ∧ uuid e ∉ uuids (take i incoming)) ∧
    (∀ e, e ∈ incoming → uuid e ∈ uuids existing ∨ uuid e ∈ uuids added).
Proof.
  destruct (merge_loop_spec incoming _ (merge_inv_initial existing)) as (_ & added & H).
  by exists added.
Qed.

Lemma entries_merge_into existing data :
  entries (merge_into existing data)
  = merged (merge_entries (entries existing) (entries data)).
Proof. unfold merge_into. by destruct (hasCursor data). Qed.

(** The buffer after a first and a later observation for one thread. *)
Lemma onResponse_twice caps threadId first later :
  caps !! threadId = None →
  onResponse (onResponse caps threadId first) threadId later !! threadId
  = Some (merge_into first later).
Proof.
  intros Hnew. unfold onResponse at 2. rewrite Hnew.
  unfold onResponse. rewrite lookup_insert_eq. by rewrite lookup_insert_eq.
Qed.

(** C1, as the code has it.  After a first and a later payload for one
    thread id, the buffer holds the first payload's entries followed by
    those entries of the later payload whose uuid was not present when
    they were reached, each uuid once, in the order of the payload.  The
    uuids of the buffer are the union of the uuids of the two payloads,
    and none occurs twice provided none occurs twice in the first
    payload, which is stored as it arrives. *)
Theorem harvest_merge_union (caps : gmap string ConversationResponse)
    (threadId : string) (first later : ConversationResponse) :
  caps !! threadId = None →
  ∃ buffer added,
    onResponse (onResponse caps threadId first) threadId later !! threadId = Some buffer ∧
    entries buffer = entries first ++ added ∧
    added `sublist_of` entries later ∧
    (∀ e, e ∈ added ↔
          ∃ i, entries later !! i = Some e ∧
               (uuid e ∉ uuids (entries first)) ∧
               (uuid e ∉ uuids (take i (entries later)))) ∧
    NoDup (uuids added) ∧
    (∀ u, u ∈ uuids (entries buffer)
          ↔ u ∈ uuids (entries first) ∨ u ∈ uuids (entries later)) ∧
    (NoDup (uuids (entries first)) → NoDup (uuids (entries buffer))).
Proof.
  intros Hnew.
  destruct (merge_entries_spec (entries first) (entries later))
    as (added & Hm & Hsub & Hfresh & Hnd & Hfirst & Hpos & Hcov).
  exists (merge_into first later), added.
  rewrite onResponse_twice, entries_merge_into by done.
  split; [done|]. split; [done|]. split; [done|]. split; [|split; [done|split]].
  - intros e. split.
    + intros Hin. destruct (Hpos e Hin) as (i & Hi & Hpre).
      exists i. split; [done|]. split; [by apply Hfresh | done].
    + intros (i & Hi & Hne & Hpre). by apply (Hfirst i).
  - intros u. rewrite Hm, uuids_app, elem_of_app. split.
    + intros [Hl|(e & -> & Hin)%list_elem_of_fmap]; [by left|].
      right. apply elem_of_uuids. by eapply elem_of_sublist.
    + intros [Hl|(e & -> & Hin)%list_elem_of_fmap]; [by left|].
      destruct (Hcov e Hin) as [Hc|Hc]; [by left | by right].
  - intros Hnd1. rewrite Hm, uuids_app. apply NoDup_app.
    split; [done|]. split; [|done].
    intros u Hu (e & -> & Hin)%list_elem_of_fmap. by apply (Hfresh e Hin).
Qed.

Lemma harvest_merge_union_witness :
  ∃ buffer added,
    onResponse (onResponse ∅ "t1" (mkResponse "ok" [mkEntry "a" "" "" "q1"] true (Some "c") None))
               "t1" (mkResponse "ok" [mkEntry "a" "" "" "q1'"; mkEntry "b" "" "" "q2"] false None None)
      !! "t1" = Some buffer ∧
    entries buffer = [mkEntry "a" "" "" "q1"] ++ added ∧
    added = [mkEntry "b" "" "" "q2"].
Proof.
  destruct (harvest_merge_union ∅ "t1"
              (mkResponse "ok" [mkEntry "a" "" "" "q1"] true (Some "c") None)
              (mkResponse "ok" [mkEntry "a" "" "" "q1'"; mkEntry "b" "" "" "q2"] false None None)
              (lookup_empty _))
    as (buffer & added & Hb & He & _).
  exists buffer, added. split; [exact Hb|]. split; [exact He|].
  vm_compute in Hb. injection Hb as <-. simpl in He.
  injection He as He. symmetry. exact He.
Defined.

(** C1 as stated fails: the first payload becomes the buffer as it is, so
    a uuid that occurs twice in it occurs twice in the merged buffer. *)
Lemma harvest_merge_first_payload_duplicates :
  let first := mkResponse "ok" [mkEntry "a" "" "" "q1"; mkEntry "a" "" "" "q2"] false None None in
  let later := mkResponse "ok" [mkEntry "b" "" "" "q3"] false None None in
  ∃ buffer,
    onResponse (onResponse ∅ "t1" first) "t1" later !! "t1" = Some buffer ∧
    uuids (entries buffer) = ["a"; "a"; "b"] ∧
    ¬ NoDup (uuids (entries buffer)).
Proof.
  eexists. split; [vm_compute; reflexivity|]. split; [reflexivity|].
  simpl. intros Hnd. apply NoDup_cons in Hnd as [Hnin _]. apply Hnin. by left.
Qed.

(** C9, as the code has it.  An observation for a thread that is already
    buffered overwrites the buffer's flag and cursor with its own exactly
    when it reports more pages or carries a non-empty cursor; otherwise
    the buffer keeps the flag and cursor it had. *)
Theorem harvest_cursor_update (caps : gmap string ConversationResponse)
    (threadId : string) (existing data : ConversationResponse) :
  caps !! threadId = Some existing →
  ∃ buffer,
    onResponse caps threadId data !! threadId = Some buffer ∧
    (hasCursor data = true →
       has_next_page buffer = has_next_page data ∧ next_cursor buffer = next_cursor data) ∧
    (hasCursor data = false →
       has_next_page buffer = has_next_page existing ∧
       next_cursor buffer = next_cursor existing).
Proof.
  intros Hex. exists (merge_into existing data). unfold onResponse. rewrite Hex.
  rewrite lookup_insert_eq. split; [done|].
  unfold merge_into. split; intros ->; done.
Qed.

Lemma harvest_cursor_update_witness :
  ∃ buffer,
    onResponse (<["t1" := mkResponse "ok" [] false None None]> ∅) "t1"
               (mkResponse "ok" [] true (Some "c2") None) !! "t1" = Some buffer ∧
    has_next_page buffer = true ∧ next_cursor buffer = Some "c2".
Proof.
  destruct (harvest_cursor_update (<["t1" := mkResponse "ok" [] false None None]> ∅) "t1"
              (mkResponse "ok" [] false None None)
              (mkResponse "ok" [] true (Some "c2") None)
              (lookup_insert_eq _ _ _))
    as (buffer & Hb & Hyes & _).
  exists buffer. split; [exact Hb|]. exact (Hyes eq_refl).
Defined.

(** C9 as stated fails: an observation that reports no further page and
    carries no cursor leaves the buffer's flag and cursor as they were. *)
Lemma harvest_cursor_kept_without_cursor :
  let existing := mkResponse "ok" [mkEntry "a" "" "" "q1"] true (Some "c1") None in
  let data := mkResponse "ok" [mkEntry "b" "" "" "q2"] false None None in
  ∃ buffer,
    onResponse (<["t1" := existing]> ∅) "t1" data !! "t1" = Some buffer ∧
    has_next_page buffer = true ∧ next_cursor buffer = Some "c1" ∧
    ¬ (has_next_page buffer = has_next_page data ∧ next_cursor buffer = next_cursor data).
Proof.
  eexists. split; [vm_compute; reflexivity|]. simpl.
  split; [done|]. split; [done|]. intros [? _]. done.
Qed.

End Harvester.

(** ** The pagination fetcher *)

Section Pagination.
Import Js Types ConversationSaver.

Context (server : PageServer) (threadId : string).

Lemma loop_unfold fuel st :
  loop fuel server threadId st =
  if loop_cond st then
    match fuel with
    | O => None
    | S fuel =>
        match loop_body server threadId st with
        | Break st' => Some (Ok st')
        | Continue st' => loop fuel server threadId st'
        | Rejected e => Some (Throw e)
        end
    end
  else Some (Ok st).
Proof. by destruct fuel. Qed.

(** The loop is not entered when its condition is false. *)
Lemma loop_not_entered fuel st :
  loop_cond st = false → loop fuel server threadId st = Some (Ok st).
Proof. intros H. rewrite loop_unfold. by rewrite H. Qed.

(** More fuel does not change the outcome of a run that ends. *)
Lemma loop_fuel_mono fuel : ∀ st res extra,
  loop fuel server threadId st = Some res →
  loop (fuel + extra) server threadId st = Some res.
Proof.
  induction fuel as [|fuel IH]; intros st res extra Hrun.
  - rewrite loop_unfold in Hrun. rewrite loop_unfold.
    destruct (loop_cond st); [done|]. done.
  - rewrite loop_unfold in Hrun. rewrite loop_unfold.
    destruct (loop_cond st); [|done]. simpl.
    destruct (loop_body server threadId st); try done. by apply IH.
Qed.

Lemma loop_body_error st page :
  server (S (pageNum st)) threadId (cursor_text (cursor st)) = Some page →
  truthy (pd_error page) = true →
  ∃ st', loop_body server threadId st = Break st' ∧
         requests_one st st' ∧ allEntries st' = allEntries st.
Proof.
  intros Hpage Herr. unfold loop_body. rewrite Hpage. simpl. rewrite Herr.
  eexists. split; [done|]. by split.
Qed.

Lemma loop_body_no_entries st page :
  server (S (pageNum st)) threadId (cursor_text (cursor st)) = Some page →
  pd_entries page = [] →
  ∃ st', loop_body server threadId st = Break st' ∧
         requests_one st st' ∧ allEntries st' = allEntries st.
Proof.
  intros Hpage Hempty. unfold loop_body. rewrite Hpage. simpl. rewrite Hempty. simpl.
  destruct (truthy (pd_error page)); eexists; (split; [done|]); by split.
Qed.

(** A page that reports no further page, or reports one without giving a
    cursor, is merged and leaves the loop condition false. *)
Lemma loop_body_last_page st page :
  server (S (pageNum st)) threadId (cursor_text (cursor st)) = Some page →
  pd_has_next_page page = false ∨ truthy_opt (pd_next_cursor page) = false →
  ∃ st', (loop_body server threadId st = Break st' ∨
          loop_body server threadId st = Continue st' ∧ loop_cond st' = false) ∧
         requests_one st st'.
Proof.
  intros Hpage Hlast. unfold loop_body. rewrite Hpage. simpl.
  destruct (truthy (pd_error page)); [eexists; split; [by left|done]|].
  destruct (length (pd_entries page) =? 0)%nat; [eexists; split; [by left|done]|].
  eexists. split; [right; split; [done|]|done].
  unfold loop_cond. simpl.
  destruct Hlast as [-> | ->]; [done|].
  by destruct (pd_has_next_page page).
Qed.

Lemma loop_body_keeps_entries st st' :
  loop_body server threadId st = Break st' ∨ loop_body server threadId st = Continue st' →
  ∃ older, allEntries st' = older ++ allEntries st.
Proof.
  unfold loop_body.
  destruct (server _ _ _) as [page|]; [|by intros [|]].
  destruct (truthy (pd_error page)).
  { intros [[= <-]|]; [|done]. by exists []. }
  destruct (length (pd_entries page) =? 0)%nat.
  { intros [[= <-]|]; [|done]. by exists []. }
  intros [|[= <-]]; [done|]. simpl.
  destruct (0 <? length _)%nat; [by eexists | by exists []].
Qed.

Lemma loop_keeps_entries fuel : ∀ st st',
  loop fuel server threadId st = Some (Ok st') →
  ∃ older, allEntries st' = older ++ allEntries st.
Proof.
  induction fuel as [|fuel IH]; intros st st'; rewrite loop_unfold;
    destruct (loop_cond st); try done; try (intros [= <-]; by exists []).
  destruct (loop_body server threadId st) as [st1|st1|e] eqn:Hbody; [| |done].
  - intros [= <-]. apply loop_body_keeps_entries. by left.
  - intros Hrun. destruct (IH _ _ Hrun) as [older1 ->].
    destruct (loop_body_keeps_entries st st1) as [older2 ->]; [by right|].
    exists (older1 ++ older2). by rewrite app_assoc.
Qed.

Lemma loop_body_pageNum st st' :
  loop_body server threadId st = Continue st' → pageNum st' = S (pageNum st).
Proof.
  unfold loop_body. destruct (server _ _ _) as [page|]; [|done].
  destruct (truthy _); [done|]. destruct (_ =? _)%nat; [done|]. by intros [= <-].
Qed.

Lemma loop_body_final st st' :
  (∀ cur, final_page (server (S (pageNum st)) threadId cur) = true) →
  loop_body server threadId st = Continue st' → loop_cond st' = false.
Proof.
  intros Hfinal. specialize (Hfinal (cursor_text (cursor st))). revert Hfinal.
  unfold loop_body. destruct (server _ _ _) as [page|]; [|done]. simpl.
  destruct (truthy (pd_error page)); [done|].
  destruct (length (pd_entries page) =? 0)%nat; [done|]. simpl.
  intros Hlast [= <-]. unfold loop_cond. simpl.
  destruct (pd_has_next_page page), (truthy_opt (pd_next_cursor page)); done.
Qed.

(** The fetch returns as soon as the remote side answers some request
    with a final page: [k] iterations suffice when the [k]-th request
    from the current state is answered so. *)
Lemma loop_terminates k : ∀ st,
  (∀ cur, final_page (server (pageNum st + S k)%nat threadId cur) = true) →
  ∃ res, loop (S k) server threadId st = Some res.
Proof.
  induction k as [|k IH]; intros st Hfinal; rewrite loop_unfold;
    (destruct (loop_cond st); [|by eexists]);
    destruct (loop_body server threadId st) as [st1|st1|e] eqn:Hbody;
    try by eexists.
  - rewrite loop_not_entered; [by eexists|].
    apply (loop_body_final st); [|done].
    intros cur. rewrite <- (Hfinal cur).
    by replace (pageNum st + 1)%nat with (S (pageNum st)) by lia.
  - apply IH. intros cur. rewrite <- (Hfinal cur).
    rewrite (loop_body_pageNum st st1 Hbody).
    by replace (pageNum st + S (S k))%nat with (S (pageNum st) + S k)%nat by lia.
Qed.

Lemma fetchNextPages_returns k firstPage :
  (∀ cur, final_page (server (S (S k)) threadId cur) = true) →
  ∃ res, fetchNextPages (S k) server threadId firstPage = Some res.
Proof.
  intros Hfinal. unfold fetchNextPages, fetchNextPages_run.
  destruct (loop_terminates k (initial firstPage)) as [[st|e] ->]; [done|by eexists..].
Qed.

(** C5, as the code has it.  A first page that reports a further page but
    carries no cursor is returned as the single-page result, with the flag
    cleared, and no page request is issued.  More generally the loop
    issues no request once the flag is false or the cursor is missing, and
    a request is the last one when it is answered with an error, with no
    entries at all, with a page that reports no further page, or with one
    that gives no cursor. *)
Theorem pagination_stops (fuel : nat) :
  (∀ firstPage,
     has_next_page firstPage = true → truthy_opt (next_cursor firstPage) = false →
     fetchNextPages_run fuel server threadId firstPage = Some (Ok (initial firstPage)) ∧
     requested (initial firstPage) = [] ∧
     fetchNextPages fuel server threadId firstPage
     = Some (Ok (mkResponse (status firstPage) (entries firstPage) false None
                            (domUrls firstPage)))) ∧
  (∀ st,
     hasNext st = false ∨ truthy_opt (cursor st) = false →
     loop fuel server threadId st = Some (Ok st)) ∧
  (∀ st page,
     loop_cond st = true →
     server (S (pageNum st)) threadId (cursor_text (cursor st)) = Some page →
     truthy (pd_error page) = true ∨ pd_entries page = [] ∨
     pd_has_next_page page = false ∨ truthy_opt (pd_next_cursor page) = false →
     ∃ st', loop (S fuel) server threadId st = Some (Ok st') ∧ requests_one st st').
Proof.
  split; [|split].
  - intros firstPage Hmore Hcur.
    assert (loop_cond (initial firstPage) = false) as Hcond.
    { unfold loop_cond. simpl. by rewrite Hcur, andb_false_r. }
    unfold fetchNextPages, fetchNextPages_run. by rewrite loop_not_entered.
  - intros st Hst. apply loop_not_entered. unfold loop_cond.
    destruct Hst as [-> | ->]; [done | by rewrite andb_false_r].
  - intros st page Hcond Hpage Hlast. rewrite loop_unfold, Hcond.
    destruct Hlast as [Herr|[Hempty|Hlast]].
    + destruct (loop_body_error st page Hpage Herr) as (st' & -> & Hreq & _).
      by exists st'.
    + destruct (loop_body_no_entries st page Hpage Hempty) as (st' & -> & Hreq & _).
      by exists st'.
    + destruct (loop_body_last_page st page Hpage Hlast) as (st' & [-> | [-> Hc]] & Hreq).
      * by exists st'.
      * exists st'. by rewrite loop_not_entered.
Qed.

(** C10.  Whatever ends the loop, the conversation that [fetchNextPages]
    returns has its flag cleared and no cursor; it keeps the status and
    the DOM links of the first page and its entries end with the first
    page's entries. *)
Theorem fetchNextPages_discards_cursor (fuel : nat)
    (firstPage result : ConversationResponse) :
  fetchNextPages fuel server threadId firstPage = Some (Ok result) →
  has_next_page result = false ∧ next_cursor result = None ∧
  status result = status firstPage ∧ domUrls result = domUrls firstPage ∧
  ∃ older, entries result = older ++ entries firstPage.
Proof.
  unfold fetchNextPages, fetchNextPages_run.
  destruct (loop fuel server threadId (initial firstPage)) as [[st|e]|] eqn:Hrun; [|done..].
  intros [= <-]. simpl. repeat split. by apply (loop_keeps_entries fuel (initial firstPage)).
Qed.

End Pagination.

Section PaginationExamples.
Import Js Types ConversationSaver.

Lemma pagination_stops_witness :
  fetchNextPages 0 one_older_page "t1"
    (mkResponse "ok" [mkEntry "n1" "" "" "newest"] true None None)
  = Some (Ok (mkResponse "ok" [mkEntry "n1" "" "" "newest"] false None None)) ∧
  ∃ st', loop 1 one_older_page "t1" (initial page1) = Some (Ok st') ∧
         requests_one (initial page1) st'.
Proof.
  destruct (pagination_stops one_older_page "t1" 0) as (Hfirst & _ & Hlast).
  split.
  - exact (proj2 (proj2 (Hfirst
             (mkResponse "ok" [mkEntry "n1" "" "" "newest"] true None None)
             eq_refl eq_refl))).
  - exact (Hlast (initial page1)
             (mkPage "" [mkEntry "o1" "" "" "older"] true None)
             eq_refl eq_refl (or_intror (or_intror (or_intror eq_refl)))).
Defined.

Lemma fetchNextPages_discards_cursor_witness :
  has_next_page (mkResponse "ok" [mkEntry "o1" "" "" "older"; mkEntry "n1" "" "" "newest"]
                            false None None) = false ∧
  next_cursor (mkResponse "ok" [mkEntry "o1" "" "" "older"; mkEntry "n1" "" "" "newest"]
                          false None None) = None.
Proof.
  destruct (fetchNextPages_discards_cursor one_older_page "t1" 1 page1
              (mkResponse "ok" [mkEntry "o1" "" "" "older"; mkEntry "n1" "" "" "newest"]
                          false None None))
    as (Hflag & Hcur & _).
  - vm_compute. reflexivity.
  - split; [exact Hflag | exact Hcur].
Defined.

Lemma stale_loop_runs_on fuel : ∀ pageNum requested,
  loop fuel stale_pages "t1"
    (mkLoop [mkEntry "n1" "" "" "newest"] (list_to_set ["n1"]) (Some "c1") true
            pageNum requested) = None.
Proof.
  induction fuel as [|fuel IH]; intros pageNum requested; [done|].
  rewrite loop_unfold. apply IH.
Qed.

(** C5 as stated fails: a page whose entries are all known already adds
    nothing, and yet the loop goes on; against a remote side that keeps
    sending such a page with a cursor it never ends. *)
Lemma pagination_continues_after_page_without_new_entries :
  (∃ st', loop_body stale_pages "t1" (initial page1) = Continue st' ∧
          allEntries st' = allEntries (initial page1) ∧
          loop_cond st' = true) ∧
  (∀ fuel, fetchNextPages fuel stale_pages "t1" page1 = None).
Proof.
  split.
  - eexists. split; [reflexivity|]. split; reflexivity.
  - intros fuel. unfold fetchNextPages, fetchNextPages_run.
    change (initial page1) with
      (mkLoop [mkEntry "n1" "" "" "newest"] (list_to_set ["n1"]) (Some "c1") true 1 []).
    by rewrite stale_loop_runs_on.
Qed.

End PaginationExamples.

(** ** The order of a thread's entries *)

(** *** Stable sorting by a numeric key *)

Section StableSort.
Import ConversationSaver.

Context {A : Type} (key : A → option Z) (compareFn : A → A → option Z).

(** The comparator subtracts the keys, as [(a, b) => timeA - timeB] does;
    the difference is [NaN] when a key is. *)
Hypothesis compareFn_key : ∀ a b,
  compareFn a b =
  match key a, key b with
  | Some x, Some y => Some (x - y)
  | _, _ => None
  end.

Lemma after_true y x :
  after compareFn y x = true ↔ ∃ ky kx, key y = Some ky ∧ key x = Some kx ∧ kx < ky.
Proof.
  unfold after. rewrite compareFn_key. split.
  - destruct (key y) as [ky|], (key x) as [kx|]; try done.
    intros Hlt%Z.ltb_lt. exists ky, kx. repeat split. lia.
  - intros (ky & kx & -> & -> & Hlt). apply Z.ltb_lt. lia.
Qed.

Lemma after_false y x :
  (has_key key) y → (has_key key) x → after compareFn y x = false → (not_after key) y x.
Proof.
  intros [ky Hy] [kx Hx] Hafter. exists ky, kx. split; [done|]. split; [done|].
  destruct (decide (ky ≤ kx)) as [|Hgt]; [done|].
  assert (after compareFn y x = true) as Ht; [|congruence].
  apply after_true. exists ky, kx. repeat split; try done. lia.
Qed.

Lemma not_after_after y x : (not_after key) y x → after compareFn y x = false.
Proof.
  intros (ky & kx & Hy & Hx & Hle). apply not_true_is_false.
  intros (ky' & kx' & Hy' & Hx' & Hlt)%after_true. simplify_eq. lia.
Qed.

Lemma not_after_trans a b c : (not_after key) a b → (not_after key) b c → (not_after key) a c.
Proof.
  intros (x & y & Ha & Hb & Hxy) (y' & z & Hb' & Hc & Hyz). simplify_eq.
  exists x, z. repeat split; try done. lia.
Qed.

Lemma insert_sorted_perm x l : insert_sorted compareFn x l ≡ₚ x :: l.
Proof.
  induction l as [|y l IH]; simpl; [done|].
  destruct (after compareFn y x); [done|]. rewrite IH. apply perm_swap.
Qed.

Lemma sort_from_perm l : ∀ sorted,
  foldl (fun sorted x => insert_sorted compareFn x sorted) sorted l ≡ₚ sorted ++ l.
Proof.
  induction l as [|x l IH]; intros sorted; simpl; [by rewrite app_nil_r|].
  rewrite IH, insert_sorted_perm. by rewrite <- Permutation_middle.
Qed.

(** Sorting rearranges the list: nothing is lost or duplicated. *)
Lemma sort_perm l : sort compareFn l ≡ₚ l.
Proof. apply (sort_from_perm l []). Qed.

Lemma insert_sorted_ascending x l :
  (has_key key) x → Forall (has_key key) l →
  StronglySorted (not_after key) l → StronglySorted (not_after key) (insert_sorted compareFn x l).
Proof.
  intros Hx Hl Hs. induction Hs as [|y l Hs IH Hy]; simpl.
  - repeat constructor.
  - apply Forall_cons in Hl as [Hky Hl].
    destruct (after compareFn y x) eqn:Hafter.
    + apply after_true in Hafter as (ky & kx & Hyk & Hxk & Hlt).
      constructor; [by constructor|]. constructor.
      * exists kx, ky. repeat split; try done. lia.
      * eapply Forall_impl; [exact Hy|]. intros z Hz. simpl in Hz.
        apply (not_after_trans x y z); [|done].
        exists kx, ky. repeat split; try done. lia.
    + constructor; [by apply IH|].
      rewrite insert_sorted_perm. constructor; [|done]. by apply after_false.
Qed.

Lemma sort_from_ascending l : ∀ sorted,
  Forall (has_key key) sorted → Forall (has_key key) l → StronglySorted (not_after key) sorted →
  StronglySorted (not_after key)
    (foldl (fun sorted x => insert_sorted compareFn x sorted) sorted l).
Proof.
  induction l as [|x l IH]; intros sorted Hks Hkl Hs; simpl; [done|].
  apply Forall_cons in Hkl as [Hx Hkl]. apply IH; [|done|].
  - rewrite insert_sorted_perm. by constructor.
  - by apply insert_sorted_ascending.
Qed.

(** When every key is a number, the sorted list is ascending. *)
Lemma sort_ascending l :
  Forall (has_key key) l → StronglySorted (not_after key) (sort compareFn l).
Proof. intros Hl. apply sort_from_ascending; [done..|constructor]. Qed.

Lemma insert_sorted_at_end x l :
  Forall (fun y => (not_after key) y x) l → insert_sorted compareFn x l = l ++ [x].
Proof.
  induction 1 as [|y l Hy _ IH]; simpl; [done|].
  by rewrite (not_after_after y x Hy), IH.
Qed.

(** A list that is ascending already is left as it is. *)
Lemma sort_ascending_id l : StronglySorted (not_after key) l → sort compareFn l = l.
Proof.
  induction l as [|x l IH] using rev_ind; intros Hs; [done|].
  unfold sort in *. rewrite foldl_app. simpl.
  apply StronglySorted_app in Hs as (Hlx & Hl & _).
  rewrite IH by done. apply insert_sorted_at_end.
  apply Forall_forall. intros y Hy. apply Hlx; [done|]. by left.
Qed.

(** Sorting twice is sorting once. *)
Lemma sort_idempotent l :
  Forall (has_key key) l → sort compareFn (sort compareFn l) = sort compareFn l.
Proof. intros Hl. by apply sort_ascending_id, sort_ascending. Qed.

Lemma ascending_lookup l i j a b :
  StronglySorted (not_after key) l → (i < j)%nat →
  l !! i = Some a → l !! j = Some b → (not_after key) a b.
Proof.
  intros Hs Hij Hi Hj. rewrite <- (take_drop j l) in Hs.
  apply (StronglySorted_app_1_elem_of _ _ _ a b Hs).
  - apply list_elem_of_lookup. exists i. by rewrite lookup_take_lt.
  - apply list_elem_of_lookup. exists 0%nat. rewrite lookup_drop. by rewrite Nat.add_0_r.
Qed.

End StableSort.

(** *** The entries handed on by [loadThreadFromURL] *)

Section Chronological.
Import Js Types ConversationSaver.
Context `{Date.Host}.

Lemma by_time_key a b :
  by_time a b =
  match entry_time a, entry_time b with
  | Some x, Some y => Some (x - y)
  | _, _ => None
  end.
Proof. reflexivity. Qed.

Lemma sort_entries_chronological es :
  dated es → chronological (sort_entries es).
Proof.
  intros Hd i j a b Hij Hi Hj.
  apply (ascending_lookup entry_time (sort_entries es) i j a b); try done.
  by apply (sort_ascending entry_time by_time by_time_key).
Qed.

Lemma sort_entries_idempotent es :
  dated es → sort_entries (sort_entries es) = sort_entries es.
Proof. apply (sort_idempotent entry_time by_time by_time_key). Qed.

Lemma sort_entries_perm es : sort_entries es ≡ₚ es.
Proof. apply sort_perm. Qed.

(** Every thread that is returned carries a list that went through the
    final sort. *)
Lemma loadThreadFromURL_sorted fuel caps browser url threadData caps' :
  loadThreadFromURL fuel caps browser url = Some (Ok threadData, caps') →
  ∃ es, entries (conversation threadData) = sort_entries es.
Proof.
  unfold loadThreadFromURL.
  destruct (foldl _ _ _ !! _) as [c|]; [|done].
  destruct (_ || _).
  - destruct (fetchNextPages _ _ _ _) as [[final|e]|]; [|done..].
    intros [= <- _]. by eexists.
  - intros [= <- _]. by eexists.
Qed.

(** A thread is returned whenever a response for it was harvested and
    the buffer asks for no further page. *)
Lemma loadThreadFromURL_single_page fuel caps browser url c :
  foldl (fun caps r => onResponse caps r.1 r.2)
        (delete (threadIdFromUrl url) caps) (responses browser)
    !! threadIdFromUrl url = Some c →
  hasCursor c = false →
  ∃ threadData caps',
    loadThreadFromURL fuel caps browser url = Some (Ok threadData, caps') ∧
    entries (conversation threadData) = sort_entries (entries c).
Proof.
  intros Hc Hno. unfold loadThreadFromURL. rewrite Hc. unfold hasCursor in Hno.
  simpl. rewrite Hno. by eexists _, _.
Qed.

(** C2, as the code has it.  The entries of a thread returned by
    [loadThreadFromURL], whatever was harvested and fetched and in
    whatever order, are in ascending order of their time stamps, entries
    with equal time stamps may follow one another, provided every time
    stamp is a valid date; sorting the list once more leaves it as it
    is. *)
Theorem loadThreadFromURL_chronological (fuel : nat)
    (caps : gmap string ConversationResponse) (browser : Browser) (url : string)
    (threadData : ThreadData) (caps' : gmap string ConversationResponse) :
  loadThreadFromURL fuel caps browser url = Some (Ok threadData, caps') →
  dated (entries (conversation threadData)) →
  chronological (entries (conversation threadData)) ∧
  sort_entries (entries (conversation threadData)) = entries (conversation threadData).
Proof.
  intros Hload Hdated.
  destruct (loadThreadFromURL_sorted _ _ _ _ _ _ Hload) as [es Hes].
  rewrite Hes in *.
  assert (dated es) as Hd.
  { unfold dated. by rewrite <- (sort_entries_perm es). }
  split; [by apply sort_entries_chronological | by apply sort_entries_idempotent].
Qed.

End Chronological.

Section ChronologicalExamples.
Import Js Types ConversationSaver.

Lemma loadThreadFromURL_chronological_witness :
  ∃ threadData caps',
    @loadThreadFromURL Date.utc_host 0 ∅ two_fragments "https://www.perplexity.ai/search/t1"
      = Some (Ok threadData, caps') ∧
    entries (conversation threadData)
      = [mkEntry "a" "" morning "first"; mkEntry "b" noon "" "second"] ∧
    @chronological Date.utc_host (entries (conversation threadData)).
Proof.
  eexists _, _. split; [vm_compute; reflexivity|]. split; [reflexivity|].
  refine (proj1 (@loadThreadFromURL_chronological Date.utc_host 0 ∅ two_fragments
                   "https://www.perplexity.ai/search/t1" _ _ _ _)).
  - vm_compute. reflexivity.
  - repeat constructor; vm_compute; eauto.
Defined.

(** C2 as stated fails: two entries with the same time stamp are both
    kept, one after the other, so the order is not strict. *)
Lemma loadThreadFromURL_equal_timestamps :
  let same_time :=
    mkBrowser
      [("t1", mkResponse "ok" [mkEntry "a" noon "" "first"; mkEntry "b" noon "" "second"]
                         false None None)]
      [] (fun _ _ _ => None) in
  ∃ threadData caps',
    @loadThreadFromURL Date.utc_host 0 ∅ same_time "https://www.perplexity.ai/search/t1"
      = Some (Ok threadData, caps') ∧
    entries (conversation threadData)
      = [mkEntry "a" noon "" "first"; mkEntry "b" noon "" "second"] ∧
    ¬ @strictly_chronological Date.utc_host (entries (conversation threadData)).
Proof.
  eexists _, _. split; [vm_compute; reflexivity|]. split; [reflexivity|].
  intros Hstrict.
  destruct (Hstrict 0%nat 1%nat (mkEntry "a" noon "" "first") (mkEntry "b" noon "" "second"))
    as (timeA & timeB & HA & HB & Hlt); [lia|done..|].
  vm_compute in HA, HB. simplify_eq. lia.
Qed.

End ChronologicalExamples.

(** ** Change detection *)

Section TimeArithmetic.

(** A time value is the sum of its day, hour, minute, second and
    millisecond parts. *)
Lemma time_parts t :
  Date.MakeDate (Date.Day t)
    (Date.MakeTime (Date.HourFromTime t) (Date.MinFromTime t)
                   (Date.SecFromTime t) (Date.msFromTime t)) = t.
Proof.
  unfold Date.MakeDate, Date.MakeTime, Date.Day, Date.HourFromTime, Date.MinFromTime,
    Date.SecFromTime, Date.msFromTime, Date.msPerDay, Date.msPerHour, Date.msPerMinute,
    Date.msPerSecond.
  Z.div_mod_to_equations. lia.
Qed.

Context `{Date.Host}.

(** In such a zone, setting the hour to [amount] hours less moves the
    time value back by as many hours. *)
Lemma setHours_back z now amount :
  fixed_offset z →
  Date.setHours now (Date.getHours now - amount)
  = Date.TimeClip (now - amount * Date.msPerHour).
Proof.
  intros Hz. unfold Date.setHours, Date.getHours, Date.LocalTime, Date.UTC.
  rewrite !Hz. f_equal.
  pose proof (time_parts (now + z)) as Hparts.
  unfold Date.MakeDate, Date.MakeTime in *. lia.
Qed.

End TimeArithmetic.

Section Classify.
Import Js Utils ListConversations.
Context `{Date.Host}.

Lemma parse_2_hours_ago now :
  parseLibraryTimestamp now "2 hours ago"
  = Some (Date.setHours now (Date.getHours now - 2)).
Proof. reflexivity. Qed.

(** A text that parses is not empty. *)
Lemma parseLibraryTimestamp_truthy now text libDate :
  parseLibraryTimestamp now text = Some libDate → truthy text = true.
Proof.
  unfold parseLibraryTimestamp. by destruct (truthy text).
Qed.

Lemma shouldReDownload_processed now doneFile url text record libDate :
  processed doneFile !! url = Some record →
  parseLibraryTimestamp now text = Some libDate →
  shouldReDownload now doneFile url (Some text)
  = Date.gt libDate ((fun t => t + 1000) <$> Date.ofString (downloadedAt record)).
Proof.
  intros Hrec Hparse. unfold shouldReDownload, isProcessed.
  rewrite bool_decide_eq_true_2 by (by rewrite Hrec). simpl.
  rewrite (parseLibraryTimestamp_truthy _ _ _ Hparse). simpl.
  by rewrite Hrec, Hparse.
Qed.

Lemma gt_true a b :
  Date.gt a b = true ↔ ∃ x y, a = Some x ∧ b = Some y ∧ y < x.
Proof.
  unfold Date.gt. split.
  - destruct a as [x|], b as [y|]; try done. intros ?%Z.ltb_lt. by exists x, y.
  - intros (x & y & -> & -> & Hlt). by apply Z.ltb_lt.
Qed.

(** C3, as the code has it.  A candidate whose record is stored and whose
    time stamp text parses is due exactly when the parsed time stamp is a
    valid date later than the record's [downloadedAt], the time of the
    last local download, by more than 1000 ms.  In a zone with a fixed
    offset, the text "2 hours ago" makes the candidate due when
    [downloadedAt] lies 3 hours back, and not due when it lies 1 hour
    back. *)
Theorem shouldReDownload_due (now : Z) (doneFile : DoneFile) (url : string)
    (record : ProcessedThread) :
  processed doneFile !! url = Some record →
  (∀ text libDate,
     parseLibraryTimestamp now text = Some libDate →
     (shouldReDownload now doneFile url (Some text) = true ↔
      ∃ lib downloaded,
        libDate = Some lib ∧
        Date.ofString (downloadedAt record) = Some downloaded ∧
        downloaded + 1000 < lib)) ∧
  (∀ z, fixed_offset z →
     Z.abs (now - 2 * Date.msPerHour) ≤ 8640000000000000 →
     (Date.ofString (downloadedAt record) = Some (now - 3 * Date.msPerHour) →
      shouldReDownload now doneFile url (Some "2 hours ago") = true) ∧
     (Date.ofString (downloadedAt record) = Some (now - 1 * Date.msPerHour) →
      shouldReDownload now doneFile url (Some "2 hours ago") = false)).
Proof.
  intros Hrec. split.
  - intros text libDate Hparse.
    rewrite (shouldReDownload_processed _ _ _ _ _ _ Hrec Hparse), gt_true. split.
    + intros (x & y & -> & Hy & Hlt).
      destruct (Date.ofString (downloadedAt record)) as [d|]; [|done].
      simpl in Hy. simplify_eq. by exists x, d.
    + intros (lib & d & -> & -> & Hlt). by exists lib, (d + 1000).
  - intros z Hz Hrange.
    assert (parseLibraryTimestamp now "2 hours ago" = Some (Some (now - 2 * Date.msPerHour)))
      as Hparse.
    { rewrite parse_2_hours_ago, (setHours_back z) by done.
      unfold Date.TimeClip. by rewrite (proj2 (Z.leb_le _ _) Hrange). }
    rewrite (shouldReDownload_processed _ _ _ _ _ _ Hrec Hparse).
    unfold Date.msPerHour. split; intros ->; simpl.
    + apply Z.ltb_lt. lia.
    + apply Z.ltb_ge. lia.
Qed.

End Classify.

Section ClassifyExamples.
Import Js Utils ListConversations.

Lemma shouldReDownload_due_witness :
  @shouldReDownload Date.utc_host midday downloaded_at_9 thread_url (Some "2 hours ago") = true.
Proof.
  refine (proj1 (proj2 (@shouldReDownload_due Date.utc_host midday downloaded_at_9 thread_url
                          (mkProcessed "2026-02-20T09:00:00.000Z" "2026-02-20T09:00:00.000Z")
                          _) 0 _ _) _).
  - reflexivity.
  - intros t isUTC. reflexivity.
  - vm_compute. intros Hgt. discriminate Hgt.
  - vm_compute. reflexivity.
Defined.

(** C3 as stated fails: the comparison is with [downloadedAt] and not
    with [lastUpdated].  The thread was last changed remotely 3 hours ago
    and downloaded 1 hour ago; the library says "2 hours ago", which is
    later than the stored remote modification time by far more than any
    buffer, and yet the candidate is not due. *)
Lemma shouldReDownload_ignores_lastUpdated :
  ∃ record lib remote,
    processed downloaded_at_11 !! thread_url = Some record ∧
    @parseLibraryTimestamp Date.utc_host midday "2 hours ago" = Some (Some lib) ∧
    @Date.ofString Date.utc_host (lastUpdated record) = Some remote ∧
    remote = midday - 3 * Date.msPerHour ∧
    remote + 1000 < lib ∧
    @shouldReDownload Date.utc_host midday downloaded_at_11 thread_url (Some "2 hours ago")
      = false.
Proof.
  eexists _, _, _. split; [vm_compute; reflexivity|].
  split; [vm_compute; reflexivity|]. split; [vm_compute; reflexivity|].
  split; [reflexivity|]. split; [reflexivity|]. vm_compute. reflexivity.
Qed.

End ClassifyExamples.

(** ** The incremental state store *)

Section IOLaws.
Import Js Fs.

(** A handler that returns a value makes the whole block return. *)
Lemma try_catch_total {A} (body : IO A) (fallback : A) d :
  ∃ a d', try_catch body (fun _ => ret fallback) d = (Ok a, d').
Proof. unfold try_catch. destruct (body d) as [[a|e] d']; by eexists _, _. Qed.

End IOLaws.

Section StateStore.
Import Js Fs Utils.

(** [loadDoneFile] read as a function of the disk. *)
Lemma loadDoneFile_eq now path disk :
  loadDoneFile now path disk =
  match files disk !! path with
  | Some (JsonText raw) =>
      match raw with
      | JNull => (Ok empty_DoneFile, disk)
      | _ =>
          match prop raw "processed" with
          | Some (JObj o) => (Ok (mkDone (thread_of_json <$> o)), disk)
          | _ =>
              match prop raw "processedUrls" with
              | Some (JArr processedUrls) =>
                  let migrated := mkDone (migrate (Date.toISOString now) processedUrls) in
                  if decide (path ∈ failing disk) then (Ok empty_DoneFile, disk)
                  else (Ok migrated,
                        mkDisk (<[path := JsonText (json_of_DoneFile migrated)]> (files disk))
                               (failing disk))
              | _ => (Ok empty_DoneFile, disk)
              end
          end
      end
  | _ => (Ok empty_DoneFile, disk)
  end.
Proof.
  unfold loadDoneFile, try_catch, mbind, IO_bind, bind, readFile, lift, JSON_parse,
    writeFile, throw, ret.
  destruct (files disk !! path) as [[raw|text]|]; [|done..].
  destruct raw as [|b|z|s|l|o]; try done; simpl;
    try (destruct (o !! "processed") as [[]|]; try done;
         destruct (o !! "processedUrls") as [[]|]; try done;
         by destruct (decide (path ∈ failing disk))).
Qed.

(** [loadDoneFile] catches whatever its body throws. *)
Lemma loadDoneFile_never_throws now path disk :
  ∃ doneFile disk', loadDoneFile now path disk = (Ok doneFile, disk').
Proof. unfold loadDoneFile. apply try_catch_total. Qed.


Lemma migrate_from now urls : ∀ (acc : gmap string ProcessedThread) k,
  foldl (fun processed url => <[key_of url := mkProcessed now now]> processed)
        acc (JStr <$> urls) !! k
  = if decide (k ∈ urls) then Some (mkProcessed now now) else acc !! k.
Proof.
  induction urls as [|u urls IH]; intros acc k.
  - case_decide as Hin; [by apply elem_of_nil in Hin | done].
  - change (foldl _ acc (JStr <$> u :: urls)) with
      (foldl (fun processed url => <[key_of url := mkProcessed now now]> processed)
             (<[u := mkProcessed now now]> acc) (JStr <$> urls)).
    rewrite IH. destruct (decide (k ∈ urls)) as [Hin|Hnin].
    + by rewrite decide_True by (by right).
    + destruct (decide (k = u)) as [->|Hne].
      * rewrite lookup_insert_eq. by rewrite decide_True by (by left).
      * rewrite lookup_insert_ne by done.
        rewrite decide_False; [done|]. by intros [?|?]%elem_of_cons.
Qed.

Lemma migrate_lookup now urls k :
  migrate now (JStr <$> urls) !! k
  = if decide (k ∈ urls) then Some (mkProcessed now now) else None.
Proof. unfold migrate. by rewrite migrate_from, lookup_empty. Qed.

Lemma migrate_dom now urls :
  dom (migrate now (JStr <$> urls)) = list_to_set urls.
Proof.
  apply set_eq. intros k. rewrite elem_of_dom, migrate_lookup, elem_of_list_to_set.
  destruct (decide (k ∈ urls)); [by split; eauto|]. split; [by intros [? ?]|done].
Qed.

(** One entry for each distinct URL of the list. *)
Lemma migrate_size now urls :
  size (migrate now (JStr <$> urls)) = length (remove_dups urls).
Proof.
  rewrite <- size_dom, migrate_dom.
  rewrite <- (size_list_to_set (C := gset string) (remove_dups urls))
    by apply NoDup_remove_dups.
  f_equal. apply set_eq. intros k. by rewrite !elem_of_list_to_set, elem_of_remove_dups.
Qed.

Lemma thread_of_json_of_thread record :
  thread_of_json (json_of_thread record) = record.
Proof. by destruct record. Qed.

(** A state written in the new format is read back as it was. *)
Lemma loadDoneFile_new_format now path disk doneFile :
  files disk !! path = Some (JsonText (json_of_DoneFile doneFile)) →
  loadDoneFile now path disk = (Ok doneFile, disk).
Proof.
  intros Hfile. rewrite loadDoneFile_eq, Hfile. simpl.
  rewrite lookup_insert_eq. do 2 f_equal. destruct doneFile as [m]. f_equal. simpl.
  rewrite <- map_fmap_compose. rewrite <- (map_fmap_id m) at 2.
  apply map_fmap_ext. intros k record _. apply thread_of_json_of_thread.
Qed.

(** C8, as the code has it.  Loading a legacy state file with a list of
    processed URLs yields one entry for each distinct URL of the list, as
    many as the list has URLs when none is repeated; every entry has
    both time stamps equal to the one clock reading taken by the
    migration; and, the file being writable, the migrated state is on
    disk in the new format when the call returns: loading the file again
    yields it unchanged. *)
Theorem loadDoneFile_migrates (now : Z) (path : string) (disk : Disk)
    (raw : gmap string json) (urls : list string) :
  files disk !! path = Some (JsonText (JObj raw)) →
  raw !! "processed" = None →
  raw !! "processedUrls" = Some (JArr (JStr <$> urls)) →
  path ∉ failing disk →
  ∃ migrated disk',
    loadDoneFile now path disk = (Ok migrated, disk') ∧
    dom (processed migrated) = list_to_set urls ∧
    processedCount migrated = length (remove_dups urls) ∧
    (NoDup urls → processedCount migrated = length urls) ∧
    (∀ url record, processed migrated !! url = Some record →
       lastUpdated record = Date.toISOString now ∧
       downloadedAt record = lastUpdated record) ∧
    files disk' = <[path := JsonText (json_of_DoneFile migrated)]> (files disk) ∧
    failing disk' = failing disk ∧
    (∀ later, loadDoneFile later path disk' = (Ok migrated, disk')).
Proof.
  intros Hfile Hnew Hold Hw.
  set (migrated := mkDone (migrate (Date.toISOString now) (JStr <$> urls))).
  set (disk' := mkDisk (<[path := JsonText (json_of_DoneFile migrated)]> (files disk))
                       (failing disk)).
  exists migrated, disk'.
  split; [|split; [|split; [|split; [|split; [|split; [|split]]]]]].
  - rewrite loadDoneFile_eq, Hfile. simpl. rewrite Hnew, Hold.
    by rewrite decide_False.
  - apply migrate_dom.
  - apply migrate_size.
  - intros Hnd. unfold processedCount. simpl.
    rewrite <- size_dom, migrate_dom. by apply size_list_to_set.
  - intros url record. simpl. rewrite migrate_lookup.
    destruct (decide (url ∈ urls)); [|done]. by intros [= <-].
  - reflexivity.
  - reflexivity.
  - intros later. apply loadDoneFile_new_format. simpl. apply lookup_insert_eq.
Qed.

(** When the migrated state cannot be written, the error is caught like
    any other and the empty state is returned. *)
Lemma loadDoneFile_migration_write_fails now path disk raw urls :
  files disk !! path = Some (JsonText (JObj raw)) →
  raw !! "processed" = None →
  raw !! "processedUrls" = Some (JArr urls) →
  path ∈ failing disk →
  loadDoneFile now path disk = (Ok empty_DoneFile, disk).
Proof.
  intros Hfile Hnew Hold Hw. rewrite loadDoneFile_eq, Hfile. simpl.
  rewrite Hnew, Hold. by rewrite decide_True.
Qed.

End StateStore.

Section StateStoreExamples.
Import Js Fs Utils.

Lemma loadDoneFile_migrates_witness :
  ∃ migrated disk',
    loadDoneFile 1771588800000 "done.json"
      (legacy_file ["https://www.perplexity.ai/search/a"; "https://www.perplexity.ai/search/b"])
      = (Ok migrated, disk') ∧
    processedCount migrated = 2%nat ∧
    processed migrated !! "https://www.perplexity.ai/search/a"
      = Some (mkProcessed "2026-02-20T12:00:00.000Z" "2026-02-20T12:00:00.000Z").
Proof.
  destruct (loadDoneFile_migrates 1771588800000 "done.json"
              (legacy_file ["https://www.perplexity.ai/search/a";
                            "https://www.perplexity.ai/search/b"])
              (<["processedUrls" := JArr (JStr <$> ["https://www.perplexity.ai/search/a";
                                                    "https://www.perplexity.ai/search/b"])]> ∅)
              ["https://www.perplexity.ai/search/a"; "https://www.perplexity.ai/search/b"])
    as (migrated & disk' & Hload & _ & _ & Hcount & _).
  - reflexivity.
  - reflexivity.
  - reflexivity.
  - vm_compute. intros Hin. discriminate Hin.
  - exists migrated, disk'. split; [exact Hload|]. split.
    + apply Hcount. apply (bool_decide_unpack _). vm_compute. exact I.
    + vm_compute in Hload. injection Hload as <- _. vm_compute. reflexivity.
Defined.

(** C8 as stated fails: the state is keyed by URL, so a URL that occurs
    twice in the legacy list yields one entry, not two. *)
Lemma loadDoneFile_repeated_url :
  ∃ migrated disk',
    loadDoneFile 1771588800000 "done.json"
      (legacy_file ["https://www.perplexity.ai/search/a"; "https://www.perplexity.ai/search/a"])
      = (Ok migrated, disk') ∧
    length ["https://www.perplexity.ai/search/a"; "https://www.perplexity.ai/search/a"] = 2%nat ∧
    processedCount migrated = 1%nat.
Proof.
  eexists _, _. split; [vm_compute; reflexivity|]. split; reflexivity.
Qed.

End StateStoreExamples.

(** ** The download synchronizer *)

Section Downloads.
Import Js DownloadManager.
Context `{Path.Host}.

Lemma wf_no_owner s i c :
  wf s → downloadPromise (manager s) = None → calls s !! i = Some c → is_owner c = false.
Proof.
  intros Hwf Hnone Hc. destruct c as [p| |q|r]; try done.
  - destruct (wf_trigger s Hwf i Hc) as [p Hp]. congruence.
  - destruct (wf_promise s Hwf i q Hc) as [-> [p Hp]]. congruence.
Qed.

Lemma wf_create path : wf (mkSystem (create path) []).
Proof. by split. Qed.

Lemma at_call_calls i f s c :
  calls s !! i = Some c →
  calls (at_call i f s) = <[i := (f c (manager s)).1]> (calls s) ∧
  manager (at_call i f s) = (f c (manager s)).2.
Proof. intros Hc. unfold at_call. rewrite Hc. by destruct (f c (manager s)). Qed.

Lemma at_call_none i f s : calls s !! i = None → at_call i f s = s.
Proof. intros Hc. unfold at_call. by rewrite Hc. Qed.

(** The call at [j] after the call at [i] was replaced by [c']. *)
Lemma lookup_replaced (cs : list Call) i j c c' cj :
  cs !! i = Some c → <[i := c']> cs !! j = Some cj →
  (j = i ∧ cj = c') ∨ (j ≠ i ∧ cs !! j = Some cj).
Proof.
  intros Hi Hj. destruct (decide (j = i)) as [->|Hne].
  - left. rewrite list_lookup_insert_eq in Hj by (by eapply lookup_lt_Some). by simplify_eq.
  - right. by rewrite list_lookup_insert_ne in Hj.
Qed.

(** Replacing the only owner by a call that has returned, whatever
    becomes of the field, keeps the state well formed. *)
Lemma wf_owner_done s i c r m' :
  wf s → calls s !! i = Some c → is_owner c = true →
  wf (mkSystem m' (<[i := Done r]> (calls s))).
Proof.
  intros Hwf Hc Hown.
  assert (∀ j cj, <[i := Done r]> (calls s) !! j = Some cj → is_owner cj = false) as Hnone.
  { intros j cj Hj. destruct (lookup_replaced _ _ _ _ _ _ Hc Hj) as [[_ ->]|[Hne Hj']]; [done|].
    destruct (is_owner cj) eqn:Hcj; [|done].
    by destruct Hne; apply (wf_owner s Hwf j i cj c). }
  split; simpl.
  - intros j q Hj. by apply Hnone in Hj.
  - intros j Hj. by apply Hnone in Hj.
  - intros j k cj ck Hj Hk Hoj. apply Hnone in Hj. congruence.
Qed.

(** Replacing a call by one that owns nothing, the manager being as
    before. *)
Lemma wf_replace_plain s i c c' :
  wf s → calls s !! i = Some c → is_owner c' = false →
  wf (mkSystem (manager s) (<[i := c']> (calls s))).
Proof.
  intros Hwf Hc Hplain. split; simpl.
  - intros j q Hj.
    destruct (lookup_replaced _ _ _ _ _ _ Hc Hj) as [[_ <-]|[_ Hj']]; [done|].
    by apply (wf_promise s Hwf j).
  - intros j Hj.
    destruct (lookup_replaced _ _ _ _ _ _ Hc Hj) as [[_ <-]|[_ Hj']]; [done|].
    by apply (wf_trigger s Hwf j).
  - intros j k cj ck Hj Hk Hoj Hok.
    destruct (lookup_replaced _ _ _ _ _ _ Hc Hj) as [[_ ->]|[_ Hj']]; [congruence|].
    destruct (lookup_replaced _ _ _ _ _ _ Hc Hk) as [[_ ->]|[_ Hk']]; [congruence|].
    by apply (wf_owner s Hwf j k cj ck).
Qed.

Lemma wf_same_calls s m' :
  wf s → downloadPromise m' = downloadPromise (manager s) →
  wf (mkSystem m' (calls s)).
Proof.
  intros Hwf Hp. split; simpl; rewrite ?Hp; by apply Hwf.
Qed.

Lemma insert_same (cs : list Call) i c : cs !! i = Some c → <[i := c]> cs = cs.
Proof. apply list_insert_id. Qed.

Lemma downloadProgress_promise ev m :
  downloadPromise (downloadProgress ev m) = downloadPromise m.
Proof.
  unfold downloadProgress.
  destruct (_ && _); [by destruct (downloadResolve m)|].
  destruct (is_aborted _); [by destruct (downloadReject m)|done].
Qed.

Lemma wf_step s a : wf s → wf (step s a).
Proof.
  intros Hwf. destruct a as [t|i|i e|name|ev|i]; simpl.
  - (* a new call *)
    unfold waitForDownload. destruct (downloadPromise (manager s)) as [p|] eqn:Hp.
    + split; simpl.
      * intros j q [Hj|[_ Hj]]%lookup_app_Some; [by apply (wf_promise s Hwf j)|].
        by destruct (j - length (calls s))%nat.
      * intros j [Hj|[_ Hj]]%lookup_app_Some; [by apply (wf_trigger s Hwf j)|].
        by destruct (j - length (calls s))%nat.
      * intros j k cj ck [Hj|[_ Hj]]%lookup_app_Some [Hk|[_ Hk]]%lookup_app_Some Hoj Hok.
        -- by apply (wf_owner s Hwf j k cj ck).
        -- destruct (k - length (calls s))%nat; [|done].
           injection Hk as <-. discriminate Hok.
        -- destruct (j - length (calls s))%nat; [|done].
           injection Hj as <-. discriminate Hoj.
        -- destruct (j - length (calls s))%nat; [|done].
           injection Hj as <-. discriminate Hoj.
    + assert (∀ j cj, calls s !! j = Some cj → is_owner cj = false) as Hnone
        by (intros j cj Hj; by apply (wf_no_owner s j cj)).
      assert (∀ j cj c,
                (calls s ++ [c]) !! j = Some cj → is_owner cj = true →
                j = length (calls s) ∧ cj = c) as Hnew.
      { intros j cj c [Hj|[Hge Hj]]%lookup_app_Some Hoj.
        - apply Hnone in Hj. congruence.
        - destruct (j - length (calls s))%nat eqn:Hd; [|done].
          injection Hj as <-. split; [lia|done]. }
      destruct t; split; simpl.
      * intros j q Hj. by destruct (Hnew j _ _ Hj eq_refl) as [_ ?].
      * intros j Hj. by eexists.
      * intros j k cj ck Hj Hk Hoj Hok.
        destruct (Hnew j _ _ Hj Hoj) as [-> _]. by destruct (Hnew k _ _ Hk Hok) as [-> _].
      * intros j q Hj. destruct (Hnew j _ _ Hj eq_refl) as [_ [= ->]]. split; [done|by eexists].
      * intros j Hj. by eexists.
      * intros j k cj ck Hj Hk Hoj Hok.
        destruct (Hnew j _ _ Hj Hoj) as [-> _]. by destruct (Hnew k _ _ Hk Hok) as [-> _].
  - (* the trigger of call [i] has returned *)
    destruct (calls s !! i) as [c|] eqn:Hc; [|by rewrite at_call_none].
    unfold at_call. rewrite Hc.
    destruct c as [p| |q|r]; simpl; try (rewrite insert_same by done; by destruct s).
    split; simpl.
    + intros j q Hj.
      destruct (lookup_replaced _ _ _ _ _ _ Hc Hj) as [[_ [= ->]]|[_ Hj']].
      * split; [done|]. by apply (wf_trigger s Hwf i).
      * by apply (wf_promise s Hwf j).
    + intros j Hj. destruct (lookup_replaced _ _ _ _ _ _ Hc Hj) as [[_ ?]|[_ Hj']]; [done|].
      by apply (wf_trigger s Hwf j).
    + intros j k cj ck Hj Hk Hoj Hok.
      destruct (lookup_replaced _ _ _ _ _ _ Hc Hj) as [[-> _]|[Hnj Hj']];
        destruct (lookup_replaced _ _ _ _ _ _ Hc Hk) as [[-> _]|[Hnk Hk']]; try done.
      * symmetry. by apply (wf_owner s Hwf k i ck AtTrigger).
      * by apply (wf_owner s Hwf j i cj AtTrigger).
      * by apply (wf_owner s Hwf j k cj ck).
  - (* the trigger of call [i] has thrown *)
    destruct (calls s !! i) as [c|] eqn:Hc; [|by rewrite at_call_none].
    unfold at_call. rewrite Hc.
    destruct c as [p| |q|r]; simpl; try (rewrite insert_same by done; by destruct s).
    by apply (wf_owner_done s i AtTrigger).
  - by apply wf_same_calls.
  - apply wf_same_calls; [done|]. apply downloadProgress_promise.
  - (* call [i] is resumed *)
    destruct (calls s !! i) as [c|] eqn:Hc; [|by rewrite at_call_none].
    unfold at_call. rewrite Hc.
    destruct c as [p| |[p|]|r]; simpl; try (rewrite insert_same by done; by destruct s).
    + destruct (promises (manager s) !! p) as [[|f|e]|];
        try (rewrite insert_same by done; by destruct s);
        by apply (wf_replace_plain s i (Following p)).
    + destruct (promises (manager s) !! p) as [[|f|e]|];
        try (rewrite insert_same by done; by destruct s);
        by apply (wf_owner_done s i (AtPromise (Some p))).
    + by apply (wf_owner_done s i (AtPromise None)).
Qed.

Lemma wf_run trace : ∀ s, wf s → wf (run s trace).
Proof.
  induction trace as [|a trace IH]; intros s Hwf; [done|].
  simpl. apply IH. by apply wf_step.
Qed.

Lemma wf_reachable path trace : wf (run (mkSystem (create path) []) trace).
Proof. apply wf_run, wf_create. Qed.

(** *** Two calls on one promise *)

Lemma settled_as_unique st r r' : settled_as st r → settled_as st r' → r = r'.
Proof.
  destruct st as [[|f|e]|], r as [[f1|]|e1], r' as [[f2|]|e2]; simpl; try done; congruence.
Qed.

Lemma extends_refl m : extends m m.
Proof. by intros p st. Qed.

Lemma extends_same m m' : promises m' = promises m → extends m m'.
Proof. intros Heq p st. by rewrite Heq. Qed.

Lemma settle_keeps q s ps p st :
  ps !! p = Some st → st ≠ Pending → settle q s ps !! p = Some st.
Proof.
  intros Hp Hst. unfold settle. destruct (ps !! q) as [[|f|e]|] eqn:Hq; try done.
  destruct (decide (q = p)) as [->|Hne]; [congruence|]. by rewrite list_lookup_insert_ne.
Qed.

Lemma extends_downloadProgress ev m : extends m (downloadProgress ev m).
Proof.
  intros p st Hp Hst. unfold downloadProgress.
  destruct (_ && _).
  { destruct (downloadResolve m); simpl; [by apply settle_keeps|done]. }
  destruct (is_aborted _); [|done].
  destruct (downloadReject m); simpl; [by apply settle_keeps|done].
Qed.

Lemma extends_waitForDownload t m : extends m (waitForDownload t m).2.
Proof.
  intros p st Hp Hst. unfold waitForDownload.
  destruct (downloadPromise m); [done|]. destruct t; simpl; by apply lookup_app_l_Some.
Qed.

Lemma settled_as_extends m m' p r :
  extends m m' → settled_as (promises m !! p) r → settled_as (promises m' !! p) r.
Proof.
  intros Hext. destruct (promises m !! p) as [[|f|e]|] eqn:Hp; try done;
    by rewrite (Hext p _ Hp).
Qed.

Lemma first_ok_keep p c m m' :
  extends m m' →
  (is_owner c = true → downloadPromise m' = downloadPromise m) →
  first_ok p c m → first_ok p c m'.
Proof.
  intros Hext Hsame. destruct c as [q| |q|r]; simpl; try done.
  - intros <-. by apply Hsame.
  - intros [-> <-]. split; [done|]. by apply Hsame.
  - by apply settled_as_extends.
Qed.

Lemma second_ok_keep p c m m' :
  extends m m' → second_ok p c m → second_ok p c m'.
Proof.
  intros Hext. destruct c as [q| |q|r]; simpl; try done. by apply settled_as_extends.
Qed.

Lemma moves_on_trigger_returned : moves_on trigger_returned.
Proof. repeat split; intros; by destruct c. Qed.

Lemma moves_on_trigger_threw e : moves_on (trigger_threw e).
Proof. repeat split; intros; by destruct c. Qed.

Lemma moves_on_resume : moves_on resume.
Proof.
  split; [|split].
  - intros [p| |[p|]|r] m; simpl; try done; by destruct (promises m !! p) as [[]|].
  - intros [p| |[p|]|r] m; simpl; try done. by destruct (promises m !! p) as [[]|].
  - intros p [q| |[q|]|r] m; simpl; try done. intros ->.
    by destruct (promises m !! p) as [[|f|e]|] eqn:Hp; simpl; rewrite ?Hp.
Qed.

Lemma first_ok_trigger_returned p c m :
  first_ok p c m → first_ok p (trigger_returned c m).1 (trigger_returned c m).2.
Proof. by destruct c. Qed.

Lemma first_ok_resume p c m :
  first_ok p c m → first_ok p (resume c m).1 (resume c m).2.
Proof.
  destruct c as [q| |[q|]|r]; simpl; try done.
  - intros [[= ->] Hp].
    by destruct (promises m !! p) as [[|f|e]|] eqn:Hq; simpl; rewrite ?Hq.
  - by intros [? _].
Qed.

Lemma paired_at_call i0 i1 p i f s :
  moves_on f →
  (i = i0 → ∀ c m, first_ok p c m → first_ok p (f c m).1 (f c m).2) →
  wf s → paired i0 i1 p s → paired i0 i1 p (at_call i f s).
Proof.
  intros (Hprom & Hplain & Hsecond) Hfirst Hwf Hpair.
  destruct (calls s !! i) as [c|] eqn:Hc; [|by rewrite at_call_none].
  destruct Hpair as [(c0 & Hc0 & H0) (c1 & Hc1 & H1)].
  destruct (at_call_calls i f s c Hc) as [Hcalls Hm].
  assert (extends (manager s) (f c (manager s)).2) as Hext by apply extends_same, Hprom.
  split; rewrite Hcalls, Hm.
  - destruct (decide (i = i0)) as [->|Hne].
    + simplify_eq. eexists. split; [|by apply Hfirst].
      by rewrite list_lookup_insert_eq by (by eapply lookup_lt_Some).
    + exists c0. rewrite list_lookup_insert_ne by done. split; [done|].
      apply (first_ok_keep p c0 (manager s)); [done| |done].
      intros Hown. rewrite Hplain; [done|].
      destruct (is_owner c) eqn:Hoc; [|done].
      by destruct Hne; apply (wf_owner s Hwf i i0 c c0).
  - destruct (decide (i = i1)) as [->|Hne].
    + simplify_eq. eexists. split; [|by apply Hsecond].
      by rewrite list_lookup_insert_eq by (by eapply lookup_lt_Some).
    + exists c1. rewrite list_lookup_insert_ne by done. split; [done|].
      by apply (second_ok_keep p c1 (manager s)).
Qed.

(** The pairing survives whatever happens next, short of the first
    call's trigger throwing. *)
Lemma paired_step i0 i1 p s a :
  (∀ e, a ≠ TriggerThrew i0 e) →
  wf s → paired i0 i1 p s → paired i0 i1 p (step s a).
Proof.
  intros Hnot Hwf Hpair. destruct a as [t|i|i e|name|ev|i]; simpl.
  - destruct Hpair as [(c0 & Hc0 & H0) (c1 & Hc1 & H1)].
    pose proof (extends_waitForDownload t (manager s)) as Hext.
    assert (is_owner c0 = true →
            downloadPromise (waitForDownload t (manager s)).2 = downloadPromise (manager s))
      as Hsame.
    { intros Hown. unfold waitForDownload.
      destruct (downloadPromise (manager s)) eqn:Hp; [done|].
      by rewrite (wf_no_owner s i0 c0 Hwf Hp Hc0) in Hown. }
    destruct (waitForDownload t (manager s)) as [c m'] eqn:Hcall. simpl in *.
    split; simpl.
    + exists c0. split; [by apply lookup_app_l_Some|]. by apply (first_ok_keep p c0 (manager s)).
    + exists c1. split; [by apply lookup_app_l_Some|]. by apply (second_ok_keep p c1 (manager s)).
  - apply paired_at_call; try done; [apply moves_on_trigger_returned|].
    intros _ c m. apply first_ok_trigger_returned.
  - apply paired_at_call; try done; [apply moves_on_trigger_threw|].
    intros ->. by destruct (Hnot e).
  - destruct Hpair as [(c0 & Hc0 & H0) (c1 & Hc1 & H1)].
    assert (extends (manager s) (downloadWillBegin name (manager s))) as Hext
      by (by apply extends_same).
    split; simpl.
    + exists c0. split; [done|]. by apply (first_ok_keep p c0 (manager s)).
    + exists c1. split; [done|]. by apply (second_ok_keep p c1 (manager s)).
  - destruct Hpair as [(c0 & Hc0 & H0) (c1 & Hc1 & H1)].
    pose proof (extends_downloadProgress ev (manager s)) as Hext. split; simpl.
    + exists c0. split; [done|]. apply (first_ok_keep p c0 (manager s)); [done| |done].
      intros _. apply downloadProgress_promise.
    + exists c1. split; [done|]. by apply (second_ok_keep p c1 (manager s)).
  - apply paired_at_call; try done; [apply moves_on_resume|].
    intros _ c m. apply first_ok_resume.
Qed.

Lemma paired_run i0 i1 p trace : ∀ s,
  Forall (fun a => ∀ e, a ≠ TriggerThrew i0 e) trace →
  wf s → paired i0 i1 p s → paired i0 i1 p (run s trace).
Proof.
  induction trace as [|a trace IH]; intros s Hnot Hwf Hpair; [done|].
  apply Forall_cons in Hnot as [Ha Hnot]. simpl. apply IH; [done| |].
  - by apply wf_step.
  - by apply paired_step.
Qed.

Lemma paired_observed i0 i1 p s r0 r1 :
  paired i0 i1 p s → observed s i0 = Some r0 → observed s i1 = Some r1 → r0 = r1.
Proof.
  intros [(c0 & Hc0 & H0) (c1 & Hc1 & H1)]. unfold observed. rewrite Hc0, Hc1.
  destruct c0 as [| | |r0']; try done. destruct c1 as [| | |r1']; try done.
  intros [= <-] [= <-]. by apply (settled_as_unique (promises (manager s) !! p)).
Qed.

(** C6, as the code has it.  In a state reached from a fresh manager in
    which a first call is still inside [waitForDownload], a second call
    creates nothing: the manager is left as it is and the call follows
    the promise the first one created.  Whatever happens afterwards,
    short of the first call's trigger throwing, the two calls return the
    same file name or throw the same error. *)
Theorem waitForDownload_shared (path : string) (before after : list Action)
    (triggerDownload : bool) (first : nat) (c : Call) :
  let s := run (mkSystem (create path) []) before in
  let s' := step s (CallWait triggerDownload) in
  let second := length (calls s) in
  calls s !! first = Some c →
  is_owner c = true →
  Forall (fun a => ∀ e, a ≠ TriggerThrew first e) after →
  ∃ p,
    downloadPromise (manager s) = Some p ∧
    manager s' = manager s ∧
    calls s' = calls s ++ [Following p] ∧
    ∀ r r',
      observed (run s' after) first = Some r →
      observed (run s' after) second = Some r' →
      r = r'.
Proof.
  intros s s' second Hc Hown Hnot.
  assert (wf s) as Hwf by apply wf_reachable.
  assert (∃ p, downloadPromise (manager s) = Some p ∧ first_ok p c (manager s))
    as (p & Hp & Hfirst).
  { destruct c as [q| |q|r]; try done.
    - destruct (wf_trigger s Hwf first Hc) as [p Hp]. by exists p.
    - destruct (wf_promise s Hwf first q Hc) as [-> [p Hp]]. by exists p. }
  assert (s' = mkSystem (manager s) (calls s ++ [Following p])) as Hs'.
  { unfold s'. simpl. unfold waitForDownload. by rewrite Hp. }
  exists p. rewrite Hs'. split; [done|]. split; [done|]. split; [done|].
  intros r r'. apply (paired_observed first second p).
  apply paired_run; [done| |].
  - rewrite <- Hs'. by apply wf_step.
  - split; simpl.
    + exists c. split; [by apply lookup_app_l_Some|done].
    + exists (Following p). split; [|done].
      rewrite lookup_app_r by done. by rewrite Nat.sub_diag.
Qed.

End Downloads.

Section DownloadExamples.
Import Js DownloadManager.
#[local] Existing Instance posix_host.

Lemma waitForDownload_shared_witness :
  ∃ p,
    downloadPromise (manager (run (mkSystem (create "files") []) [CallWait true])) = Some p ∧
    ∀ r r',
      observed (run (step (run (mkSystem (create "files") []) [CallWait true])
                          (CallWait false))
                    ([TriggerReturned 0] ++ a_download ++ [Resume 0; Resume 1])) 0 = Some r →
      observed (run (step (run (mkSystem (create "files") []) [CallWait true])
                          (CallWait false))
                    ([TriggerReturned 0] ++ a_download ++ [Resume 0; Resume 1])) 1 = Some r' →
      r = r'.
Proof.
  destruct (waitForDownload_shared "files" [CallWait true]
              ([TriggerReturned 0] ++ a_download ++ [Resume 0; Resume 1])
              false 0 AtTrigger eq_refl eq_refl)
    as (p & Hp & _ & _ & Hsame).
  - repeat constructor; intros e He; discriminate He.
  - exists p. split; [exact Hp | exact Hsame].
Defined.

(** C6 as stated fails: when the first call's trigger throws, that call
    is rejected with the trigger's error while the promise it created
    stays armed; the second call, which follows that promise, later
    returns the file of the next download. *)
Lemma waitForDownload_trigger_throws :
  let click_failed := mkError "Node is detached from document" None in
  let s := run (mkSystem (create "files") [])
               ([CallWait true; CallWait false; TriggerThrew 0 click_failed]
                ++ a_download ++ [Resume 0; Resume 1]) in
  calls (run (mkSystem (create "files") []) [CallWait true; CallWait false])
    = [AtTrigger; Following 0] ∧
  observed s 0 = Some (Throw click_failed) ∧
  observed s 1 = Some (Ok (Some "files/report.pdf")) ∧
  observed s 0 ≠ observed s 1.
Proof. repeat split; try (vm_compute; reflexivity). vm_compute. intros H. discriminate H. Qed.

End DownloadExamples.

(** ** The run orchestrator *)

Section Orchestrator.
Import Js Fs Types Utils ConversationSaver AutoExport.

Lemma logError_appends now url error disk :
  error_log_ok disk → logError now url error disk = (Ok tt, with_error now url error disk).
Proof.
  intros [Hw Harr].
  unfold logError, with_error, logged, mbind, IO_bind, bind, try_catch, readFile, lift,
    JSON_parse, mret, IO_ret, ret.
  destruct (files disk !! ERROR_FILE) as [[v|text]|] eqn:Hf; simpl.
  - destruct (Harr v eq_refl) as [errors ->]. unfold writeFile. by rewrite decide_False.
  - unfold writeFile. by rewrite decide_False.
  - unfold writeFile. by rewrite decide_False.
Qed.


(** [logError] touches no file but the error log, whether or not it
    succeeds. *)
Lemma logError_other now url error disk path :
  path ≠ ERROR_FILE →
  files (logError now url error disk).2 !! path = files disk !! path.
Proof.
  intros Hne.
  unfold logError, mbind, IO_bind, bind, try_catch, readFile, lift, JSON_parse,
    mret, IO_ret, ret, throw, writeFile.
  destruct (files disk !! ERROR_FILE) as [[v|text]|]; simpl;
    [destruct v; simpl; try done|..];
    (destruct (decide (ERROR_FILE ∈ failing disk)); [done|]);
    simpl; by rewrite lookup_insert_ne.
Qed.


Lemma retry_unfold env url remaining :
  retry env url (S remaining) =
  let attempts := (MAX_ATTEMPTS - remaining)%nat in
  match attempt env attempts with
  | Ok threadData => mret (Some threadData)
  | Throw error =>
      if includes (message error) "Perplexity API Error" then
        logError (clock env) url (message error);; mret None
      else if includes (message error) "Timeout waiting for thread data" then
        loginNeeded ← lift (isLoginPage env attempts);
        if loginNeeded : bool then
          lift (login env attempts);; retry env url remaining
        else if (MAX_ATTEMPTS <=? attempts)%nat then
          logError (clock env) url "Timeout waiting for API response";; mret None
        else retry env url remaining
      else
        loginNeeded ← lift (isLoginPage env attempts);
        if loginNeeded : bool then
          lift (login env attempts);; retry env url remaining
        else if (MAX_ATTEMPTS <=? attempts)%nat then
          logError (clock env) url (message error);; mret None
        else retry env url remaining
  end.
Proof. reflexivity. Qed.

(** What the [catch] block does with an error that is not a report of
    the remote API: the two branches differ in the message they log when
    the attempts are used up. *)
Lemma retry_transient env url remaining e disk :
  attempt env (MAX_ATTEMPTS - remaining)%nat = Throw e →
  includes (message e) "Perplexity API Error" = false →
  retry env url (S remaining) disk =
  match isLoginPage env (MAX_ATTEMPTS - remaining)%nat with
  | Throw e' => (Throw e', disk)
  | Ok true =>
      match login env (MAX_ATTEMPTS - remaining)%nat with
      | Throw e' => (Throw e', disk)
      | Ok _ => retry env url remaining disk
      end
  | Ok false =>
      if (MAX_ATTEMPTS <=? MAX_ATTEMPTS - remaining)%nat then
        (logError (clock env) url (logged_message e);; mret None) disk
      else retry env url remaining disk
  end.
Proof.
  intros He Hapi. rewrite retry_unfold. cbv zeta. rewrite He, Hapi.
  unfold logged_message.
  destruct (includes (message e) "Timeout waiting for thread data");
    unfold mbind at 1; unfold IO_bind, bind, lift;
    (destruct (isLoginPage env (MAX_ATTEMPTS - remaining)%nat) as [[|]|e'];
     [|by destruct (MAX_ATTEMPTS <=? MAX_ATTEMPTS - remaining)%nat|done]);
    unfold mbind at 1; unfold IO_bind, bind;
    by destruct (login env (MAX_ATTEMPTS - remaining)%nat) as [[]|e''].
Qed.

Lemma retry_api_error env url remaining e disk :
  attempt env (MAX_ATTEMPTS - remaining)%nat = Throw e →
  includes (message e) "Perplexity API Error" = true →
  retry env url (S remaining) disk
  = (logError (clock env) url (message e);; mret None) disk.
Proof. intros He Hapi. rewrite retry_unfold. cbv zeta. by rewrite He, Hapi. Qed.

Lemma log_then_none now url error disk :
  ∃ r disk',
    (logError now url error;; mret None : IO (option ThreadData)) disk = (r, disk') ∧
    (r = Ok None ∨ ∃ e, r = Throw e) ∧
    disk' = (logError now url error disk).2.
Proof.
  unfold mbind at 1. unfold IO_bind, bind.
  destruct (logError now url error disk) as [[[]|e] disk'] eqn:Hlog; simpl.
  - eexists _, _. split; [done|]. split; [by left|done].
  - eexists _, _. split; [done|]. split; [by right; eexists|done].
Qed.

Lemma log_then_none_ok now url error disk :
  error_log_ok disk →
  (logError now url error;; mret None : IO (option ThreadData)) disk
  = (Ok None, with_error now url error disk).
Proof. intros Hok. unfold mbind, IO_bind, bind. by rewrite logError_appends. Qed.

(** When every attempt fails, no thread data comes out of the retry loop
    and the state file is as it was. *)
Lemma retry_always_fails env url remaining : ∀ disk,
  always_fails env →
  ∃ r disk',
    retry env url remaining disk = (r, disk') ∧
    (r = Ok None ∨ ∃ e, r = Throw e) ∧
    files disk' !! DONE_FILE = files disk !! DONE_FILE.
Proof.
  induction remaining as [|remaining IH]; intros disk Hfail.
  - eexists _, _. split; [reflexivity|]. split; [by left|done].
  - destruct (Hfail (MAX_ATTEMPTS - remaining)%nat) as [e He].
    assert (∀ error,
      ∃ r disk',
        (logError (clock env) url error;; mret None : IO (option ThreadData)) disk
          = (r, disk') ∧
        (r = Ok None ∨ ∃ e, r = Throw e) ∧
        files disk' !! DONE_FILE = files disk !! DONE_FILE) as Hlog.
    { intros error. destruct (log_then_none (clock env) url error disk)
        as (r & disk' & Hrun & Hr & ->).
      exists r, (logError (clock env) url error disk).2.
      split; [done|]. split; [done|]. by apply logError_other. }
    destruct (includes (message e) "Perplexity API Error") eqn:Hapi.
    + rewrite (retry_api_error _ _ _ _ _ He Hapi). apply Hlog.
    + rewrite (retry_transient _ _ _ _ _ He Hapi).
      repeat case_match; try apply Hlog; try (by apply IH);
        eexists _, _; (split; [done|]); (split; [by right; eexists|done]).
Qed.

(** When the page does not show the login form after the last failure,
    the failure is logged. *)
Lemma fetchThread_exhausted_logged env url disk e :
  transient env →
  login_returns env →
  attempt env MAX_ATTEMPTS = Throw e →
  isLoginPage env MAX_ATTEMPTS = Ok false →
  error_log_ok disk →
  fetchThread env url disk
  = (Ok None, with_error (clock env) url (logged_message e) disk).
Proof.
  intros Htr Hlogin He Hpage Hok. unfold fetchThread.
  assert (retry env url 1 disk
          = (Ok None, with_error (clock env) url (logged_message e) disk)) as Hlast.
  { destruct (Htr MAX_ATTEMPTS) as (e' & He' & Hapi). rewrite He in He'.
    injection He' as <-.
    rewrite (retry_transient env url 0 e disk He Hapi).
    change (MAX_ATTEMPTS - 0)%nat with MAX_ATTEMPTS. rewrite Hpage.
    change (MAX_ATTEMPTS <=? MAX_ATTEMPTS)%nat with true. cbv iota.
    by apply log_then_none_ok. }
  assert (retry env url 2 disk
          = (Ok None, with_error (clock env) url (logged_message e) disk)) as Hsecond.
  { destruct (Htr 2%nat) as (e2 & He2 & Hapi).
    rewrite (retry_transient env url 1 e2 disk He2 Hapi).
    change (MAX_ATTEMPTS - 1)%nat with 2%nat.
    destruct (Hlogin 2%nat) as [[b ->] ->].
    change (MAX_ATTEMPTS <=? 2)%nat with false. by destruct b. }
  change MAX_ATTEMPTS with 3%nat at 1.
  destruct (Htr 1%nat) as (e1 & He1 & Hapi).
  rewrite (retry_transient env url 2 e1 disk He1 Hapi).
  change (MAX_ATTEMPTS - 2)%nat with 1%nat.
  destruct (Hlogin 1%nat) as [[b ->] ->].
  change (MAX_ATTEMPTS <=? 1)%nat with false. by destruct b.
Qed.

(** When it does, the loop is left without a word. *)
Lemma fetchThread_exhausted_at_login env url disk :
  transient env →
  login_returns env →
  isLoginPage env MAX_ATTEMPTS = Ok true →
  fetchThread env url disk = (Ok None, disk).
Proof.
  intros Htr Hlogin Hpage. unfold fetchThread.
  assert (retry env url 1 disk = (Ok None, disk)) as Hlast.
  { destruct (Htr MAX_ATTEMPTS) as (e & He & Hapi).
    rewrite (retry_transient env url 0 e disk He Hapi).
    change (MAX_ATTEMPTS - 0)%nat with MAX_ATTEMPTS. rewrite Hpage.
    by destruct (Hlogin MAX_ATTEMPTS) as [_ ->]. }
  assert (retry env url 2 disk = (Ok None, disk)) as Hsecond.
  { destruct (Htr 2%nat) as (e2 & He2 & Hapi).
    rewrite (retry_transient env url 1 e2 disk He2 Hapi).
    change (MAX_ATTEMPTS - 1)%nat with 2%nat.
    destruct (Hlogin 2%nat) as [[b ->] ->].
    change (MAX_ATTEMPTS <=? 2)%nat with false. by destruct b. }
  change MAX_ATTEMPTS with 3%nat at 1.
  destruct (Htr 1%nat) as (e1 & He1 & Hapi).
  rewrite (retry_transient env url 2 e1 disk He1 Hapi).
  change (MAX_ATTEMPTS - 2)%nat with 1%nat.
  destruct (Hlogin 1%nat) as [[b ->] ->].
  change (MAX_ATTEMPTS <=? 1)%nat with false. by destruct b.
Qed.


(** An attempt that is retried leaves no trace: the loop goes on as if
    it had started with the next attempt. *)
Lemma retry_retried env url remaining disk :
  (0 < remaining)%nat →
  retried env (MAX_ATTEMPTS - remaining)%nat →
  retry env url (S remaining) disk = retry env url remaining disk.
Proof.
  intros Hpos (e & He & Hapi & Hpage).
  rewrite (retry_transient env url remaining e disk He Hapi).
  destruct Hpage as [->|[-> ->]]; [|done].
  assert ((MAX_ATTEMPTS <=? MAX_ATTEMPTS - remaining)%nat = false) as ->; [|done].
  apply Nat.leb_gt. unfold MAX_ATTEMPTS. lia.
Qed.

(** The loop before its [k]-th attempt, when the attempts before it
    were retried. *)
Lemma fetchThread_from env url disk k :
  (1 ≤ k ≤ 3)%nat →
  (∀ j, (1 ≤ j < k)%nat → retried env j) →
  fetchThread env url disk = retry env url (S (MAX_ATTEMPTS - k)) disk.
Proof.
  intros Hk Hretried. unfold fetchThread.
  assert (k = 1 ∨ k = 2 ∨ k = 3)%nat as [-> | [-> | ->]] by lia.
  - done.
  - change MAX_ATTEMPTS with 3%nat at 1.
    rewrite (retry_retried env url 2 disk); [done|lia|]. apply (Hretried 1%nat). lia.
  - change MAX_ATTEMPTS with 3%nat at 1.
    rewrite (retry_retried env url 2 disk); [|lia|apply (Hretried 1%nat); lia].
    rewrite (retry_retried env url 1 disk); [done|lia|]. apply (Hretried 2%nat). lia.
Qed.

Lemma has_char_app c a b : has_char c (a +:+ b) = has_char c a || has_char c b.
Proof. induction a as [|x a IH]; [done|]. simpl. by rewrite IH, orb_assoc. Qed.




Section WithPath.
Context `{Path.Host}.

(** A thread without data is skipped: the in-memory state is returned
    as it was and the state file is not written. *)
Lemma processConversation_always_fails config env i limit doneFile conv disk :
  always_fails env →
  ∃ r disk',
    processConversation config env i limit doneFile conv disk = (r, disk') ∧
    (r = Ok doneFile ∨ ∃ e, r = Throw e) ∧
    files disk' !! DONE_FILE = files disk !! DONE_FILE.
Proof.
  intros Hfail. unfold processConversation, fetchThread, mbind at 1. unfold IO_bind, bind.
  destruct (retry_always_fails env (url conv) MAX_ATTEMPTS disk Hfail)
    as (r & disk' & -> & [->|[e ->]] & Hdone).
  - eexists _, _. split; [done|]. split; [by left|done].
  - eexists _, _. split; [done|]. split; [by right; eexists|done].
Qed.

Lemma processConversation_skips config env i limit doneFile conv disk disk' :
  fetchThread env (url conv) disk = (Ok None, disk') →
  processConversation config env i limit doneFile conv disk = (Ok doneFile, disk').
Proof.
  intros Hfetch. unfold processConversation, mbind at 1. unfold IO_bind, bind.
  by rewrite Hfetch.
Qed.

Lemma processConversation_fetch_throws config env i limit doneFile conv disk disk' e :
  fetchThread env (url conv) disk = (Throw e, disk') →
  processConversation config env i limit doneFile conv disk = (Throw e, disk').
Proof.
  intros Hfetch. unfold processConversation, mbind at 1. unfold IO_bind, bind.
  by rewrite Hfetch.
Qed.

Lemma processAll_cons config envs i limit doneFile conv rest disk :
  processAll config envs i limit doneFile (conv :: rest) disk =
  match updateStatus (clock (envs i)) i limit (saving_message conv) "downloading" disk with
  | (Ok _, disk1) =>
      match processConversation config (envs i) i limit doneFile conv disk1 with
      | (Ok doneFile', disk2) => processAll config envs (S i) limit doneFile' rest disk2
      | (Throw e, disk2) => (Throw e, disk2)
      end
  | (Throw e, disk1) => (Throw e, disk1)
  end.
Proof.
  simpl. unfold mbind at 1. unfold IO_bind, bind.
  destruct (updateStatus _ _ _ _ _ disk) as [[[]|e] disk1]; [|done].
  unfold mbind at 1. unfold IO_bind, bind. done.
Qed.


Lemma take_min_length {A} (l : list A) n : take (Nat.min (length l) n) l = take n l.
Proof.
  destruct (decide (n ≤ length l)%nat).
  - by rewrite Nat.min_r by done.
  - rewrite Nat.min_l by lia. by rewrite !take_ge by lia.
Qed.

Context `{Date.Host}.




End WithPath.

End Orchestrator.

Section OrchestratorExamples.
Import Js Fs Types Utils ConversationSaver AutoExport.



(** C7 at the failing input.  Three attempts time out and the login
    form shows after the third: [login] is called, [continue] leaves the
    loop, and the thread is skipped with nothing written to the error
    log; the disk and the state are as they were. *)
Lemma fetch_exhausted_at_login_not_logged :
  ∀ (host : Path.Host) i limit doneFile disk,
    @processConversation host config0 fetch_times_out_then_login i limit
                         doneFile thread1 disk
    = (Ok doneFile, disk).
Proof. reflexivity. Qed.

(** The same three time-outs with no login form after the third: the
    failure is appended to the error log and the state is untouched. *)
Lemma fetch_exhausted_logged :
  ∀ (host : Path.Host) i limit doneFile disk,
    error_log_ok disk →
    @processConversation host config0 fetch_times_out i limit
                         doneFile thread1 disk
    = (Ok doneFile,
       with_error 1771588800000 (url thread1) "Timeout waiting for API response" disk).
Proof.
  intros host i limit doneFile disk Hok.
  apply processConversation_skips.
  rewrite (fetchThread_exhausted_logged fetch_times_out (url thread1) disk timeout); try done.
  - intros k. by exists timeout.
  - intros k. split; [by exists false|done].
Qed.

End OrchestratorExamples.

(* ================================================================== *)
(** * Part IV: further properties of the sources *)
(* ================================================================== *)

(** ** The state store: further properties of utils.ts *)

Section StateStoreMore.
Import Js Fs Utils.

(** X1.  A state that [saveDoneFile] has written is read back by
    [loadDoneFile] as it was, and the read changes nothing on disk. *)
Theorem saveDoneFile_loadDoneFile (now : Z) (path : string) (doneFile : DoneFile)
    (disk : Disk) :
  path ∉ failing disk →
  ∃ disk',
    saveDoneFile doneFile path disk = (Ok tt, disk') ∧
    loadDoneFile now path disk' = (Ok doneFile, disk') ∧
    (∀ other, other ≠ path → files disk' !! other = files disk !! other).
Proof.
  intros Hw. unfold saveDoneFile, writeFile. rewrite decide_False by done.
  eexists. split; [done|]. split.
  - apply loadDoneFile_new_format. simpl. apply lookup_insert_eq.
  - intros other Hne. simpl. by rewrite lookup_insert_ne.
Qed.

Lemma markProcessed_other now doneFile url stamp other :
  other ≠ url →
  processed (markProcessed now doneFile url stamp) !! other = processed doneFile !! other ∧
  isProcessed (markProcessed now doneFile url stamp) other = isProcessed doneFile other.
Proof.
  intros Hne. unfold isProcessed, markProcessed. simpl. by rewrite lookup_insert_ne.
Qed.

Lemma markProcessed_count now doneFile url stamp :
  processedCount (markProcessed now doneFile url stamp)
  = (if isProcessed doneFile url then processedCount doneFile
     else S (processedCount doneFile)).
Proof.
  unfold isProcessed, markProcessed, processedCount. simpl.
  destruct (processed doneFile !! url) as [record|] eqn:Hrec.
  - rewrite bool_decide_eq_true_2 by (by eexists).
    rewrite <- (insert_delete_id (processed doneFile) url record Hrec) at 2.
    rewrite <- (insert_delete_eq (processed doneFile)).
    by rewrite !map_size_insert_None by apply lookup_delete_eq.
  - rewrite bool_decide_eq_false_2 by (by intros [? ?]).
    by apply map_size_insert_None.
Qed.

(** X3.  [loadDoneFile] never throws, and it touches no file but its
    own.  It returns the empty state and leaves the disk as it is, or
    returns the state found in the new format and leaves the disk as it
    is, or, the file holding the legacy list and being writable, returns
    the migrated state and rewrites the file with it. *)
Theorem loadDoneFile_total (now : Z) (path : string) (disk : Disk) :
  ∃ doneFile disk',
    loadDoneFile now path disk = (Ok doneFile, disk') ∧
    failing disk' = failing disk ∧
    (∀ other, other ≠ path → files disk' !! other = files disk !! other) ∧
    ((disk' = disk ∧ doneFile = empty_DoneFile) ∨
     (disk' = disk ∧
      ∃ raw o, files disk !! path = Some (JsonText raw) ∧
               prop raw "processed" = Some (JObj o) ∧
               doneFile = mkDone (thread_of_json <$> o)) ∨
     (∃ raw processedUrls,
        files disk !! path = Some (JsonText raw) ∧
        prop raw "processedUrls" = Some (JArr processedUrls) ∧
        (path ∉ failing disk) ∧
        doneFile = mkDone (migrate (Date.toISOString now) processedUrls) ∧
        files disk' = <[path := JsonText (json_of_DoneFile doneFile)]> (files disk))).
Proof.
  rewrite loadDoneFile_eq.
  destruct (files disk !! path) as [[raw|text]|] eqn:Hfile;
    [|by eexists _, _; repeat split; auto..].
  destruct raw as [|b|z|s|l|o]; try (by eexists _, _; repeat split; auto).
  destruct (prop (JObj o) "processed") as [[| | | | |o']|] eqn:Hnew;
    try (destruct (prop (JObj o) "processedUrls") as [[| | | |urls|]|] eqn:Hold;
         try (by eexists _, _; repeat split; auto);
         cbv zeta; destruct (decide (path ∈ failing disk)) as [Hw|Hw];
         [by eexists _, _; repeat split; auto|];
         eexists _, _; split; [done|]; split; [done|]; split;
         [intros other Hne; simpl; by rewrite lookup_insert_ne|];
         right; right; by exists (JObj o), urls).
  eexists _, _. split; [done|]. split; [done|]. split; [done|].
  right. left. split; [done|]. by exists (JObj o), o'.
Qed.

(** X4.  When the state file holds the legacy list and cannot be
    written, the error of the write that would save the migrated state
    is swallowed with every other: [loadDoneFile] returns the empty
    state and leaves the disk, with the legacy list in the file, as it
    is. *)
Theorem loadDoneFile_legacy_unwritable (now : Z) (path : string) (disk : Disk)
    (raw : gmap string json) (processedUrls : list json) :
  files disk !! path = Some (JsonText (JObj raw)) →
  (∀ o, raw !! "processed" ≠ Some (JObj o)) →
  raw !! "processedUrls" = Some (JArr processedUrls) →
  path ∈ failing disk →
  loadDoneFile now path disk = (Ok empty_DoneFile, disk).
Proof.
  intros Hfile Hnew Hold Hw. rewrite loadDoneFile_eq, Hfile. simpl. rewrite Hold.
  rewrite decide_True by done.
  destruct (raw !! "processed") as [[| | | | |o]|] eqn:Hp; try done.
  by destruct (Hnew o).
Qed.

End StateStoreMore.

Section StateStoreMoreExamples.
Import Js Fs Utils.

Lemma saveDoneFile_loadDoneFile_witness :
  ∃ disk',
    saveDoneFile downloaded_at_9 "done.json" (mkDisk ∅ ∅) = (Ok tt, disk') ∧
    loadDoneFile 0 "done.json" disk' = (Ok downloaded_at_9, disk').
Proof.
  destruct (saveDoneFile_loadDoneFile 0 "done.json" downloaded_at_9 (mkDisk ∅ ∅))
    as (disk' & Hsave & Hload & _).
  - simpl. apply not_elem_of_empty.
  - by exists disk'.
Defined.

Lemma loadDoneFile_legacy_unwritable_witness :
  loadDoneFile 1771588800000 "done.json"
    (mkDisk (files (legacy_file [thread_url])) {["done.json"]})
  = (Ok empty_DoneFile, mkDisk (files (legacy_file [thread_url])) {["done.json"]}).
Proof.
  apply (loadDoneFile_legacy_unwritable 1771588800000 "done.json"
           (mkDisk (files (legacy_file [thread_url])) {["done.json"]})
           (<["processedUrls" := JArr (JStr <$> [thread_url])]> ∅)
           (JStr <$> [thread_url])).
  - reflexivity.
  - intros o Ho. vm_compute in Ho. discriminate Ho.
  - reflexivity.
  - simpl. by apply elem_of_singleton.
Defined.

End StateStoreMoreExamples.

(** ** The library scan: further properties of listConversations.ts *)

Section LibraryScan.
Import Js Utils ListConversations.

Lemma discover_spec count : ∀ cands,
  (discover count cands = ("", 0%nat) ∧ Forall (fun sel => count sel = 0%nat) cands) ∨
  ∃ i sel,
    cands !! i = Some sel ∧
    discover count cands = (sel, count sel) ∧
    (0 < count sel)%nat ∧
    ∀ j earlier, (j < i)%nat → cands !! j = Some earlier → count earlier = 0%nat.
Proof.
  induction cands as [|sel cands IH]; simpl; [by left|].
  destruct (0 <? count sel)%nat eqn:Hpos.
  - right. exists 0%nat, sel. apply Nat.ltb_lt in Hpos. repeat split; try done. lia.
  - apply Nat.ltb_ge in Hpos.
    destruct IH as [[Hnone Hall]|(i & sel' & Hi & Hd & Hp & Hearlier)].
    + left. split; [done|]. constructor; [lia|done].
    + right. exists (S i), sel'. repeat split; try done.
      intros [|j] earlier Hj Hlook; simpl in Hlook.
      * injection Hlook as <-. lia.
      * apply (Hearlier j); [lia|done].
Qed.

(** X5.  [discoverThreadSelector] answers with the first candidate that
    matches at least one link, and with the count of its matches; it
    answers with the empty selector and 0 exactly when no candidate
    matches anything. *)
Theorem discoverThreadSelector_first_match (count : string → nat) :
  (discoverThreadSelector count = ("", 0%nat) ∧
   ∀ sel, sel ∈ candidates → count sel = 0%nat) ∨
  ∃ i sel,
    candidates !! i = Some sel ∧
    discoverThreadSelector count = (sel, count sel) ∧
    truthy sel = true ∧
    (0 < count sel)%nat ∧
    ∀ j earlier, (j < i)%nat → candidates !! j = Some earlier → count earlier = 0%nat.
Proof.
  unfold discoverThreadSelector.
  destruct (discover_spec count candidates)
    as [[Hnone Hall]|(i & sel & Hi & Hd & Hp & Hearlier)].
  - left. split; [done|]. by apply Forall_forall.
  - right. exists i, sel. repeat split; try done.
    destruct i as [|[|[|i]]]; simpl in Hi; by simplify_eq.
Qed.

Lemma scroll_round_rounds scanMode scanLimit currentCount st :
  scrollRounds (scroll_round scanMode scanLimit currentCount st).2 = S (scrollRounds st) ∧
  previousCount (scroll_round scanMode scanLimit currentCount st).2 = currentCount.
Proof. unfold scroll_round. by repeat case_match. Qed.

Lemma scroll_round_limit scanMode scanLimit currentCount st :
  (100 ≤ scrollRounds st)%nat →
  (scroll_round scanMode scanLimit currentCount st).1 = true.
Proof.
  intros Hlimit. unfold scroll_round.
  destruct (MAX_STABLE_ROUNDS <=? _)%nat; [done|].
  destruct (is_top scanMode && _); [done|].
  destruct (100 <? S (scrollRounds st))%nat eqn:Hsafe; [done|].
  apply Nat.ltb_ge in Hsafe. lia.
Qed.

(** Why a round leaves the loop. *)
Lemma scroll_round_stop scanMode scanLimit currentCount st :
  (scroll_round scanMode scanLimit currentCount st).1 = true →
  (3 ≤ stableRounds (scroll_round scanMode scanLimit currentCount st).2)%nat ∨
  (scanMode = ScanTop ∧ (scanLimit ≤ currentCount)%nat) ∨
  (100 ≤ scrollRounds st)%nat.
Proof.
  unfold scroll_round, MAX_STABLE_ROUNDS.
  destruct (3 <=? _)%nat eqn:Hstable; simpl.
  { intros _. left. by apply Nat.leb_le. }
  destruct (is_top scanMode && (scanLimit <=? currentCount)%nat) eqn:Htop; simpl.
  { intros _. right. left. apply andb_true_iff in Htop as [Hm Hl].
    split; [by destruct scanMode | by apply Nat.leb_le]. }
  destruct (100 <? S (scrollRounds st))%nat eqn:Hsafe; simpl; [|done].
  intros _. right. right. apply Nat.ltb_lt in Hsafe. lia.
Qed.

Lemma scroll_terminates counts scanMode scanLimit fuel : ∀ st,
  (101 ≤ scrollRounds st + fuel)%nat → (0 < fuel)%nat →
  ∃ st',
    scroll fuel counts scanMode scanLimit st = Some st' ∧
    (scrollRounds st < scrollRounds st')%nat ∧
    (scrollRounds st' ≤ Nat.max 101 (S (scrollRounds st)))%nat ∧
    previousCount st' = counts (scrollRounds st') ∧
    ((3 ≤ stableRounds st')%nat ∨
     (scanMode = ScanTop ∧ (scanLimit ≤ counts (scrollRounds st'))%nat) ∨
     (101 ≤ scrollRounds st')%nat).
Proof.
  induction fuel as [|fuel IH]; intros st Hfuel Hpos; [lia|].
  simpl.
  pose proof (scroll_round_rounds scanMode scanLimit (counts (S (scrollRounds st))) st)
    as [Hr Hc].
  pose proof (scroll_round_stop scanMode scanLimit (counts (S (scrollRounds st))) st)
    as Hstop.
  pose proof (scroll_round_limit scanMode scanLimit (counts (S (scrollRounds st))) st)
    as Hlimit.
  destruct (scroll_round scanMode scanLimit (counts (S (scrollRounds st))) st)
    as [stop st1]. simpl in *.
  destruct stop.
  - exists st1. split; [done|]. rewrite Hr, Hc. split; [lia|]. split; [lia|].
    split; [done|]. destruct (Hstop eq_refl) as [?|[?|?]]; [by left|by right; left|].
    right. right. lia.
  - assert (scrollRounds st < 100)%nat as Hlt.
    { destruct (decide (100 ≤ scrollRounds st)%nat) as [Hge|]; [|lia].
      by specialize (Hlimit Hge). }
    destruct (IH st1) as (st' & Hrun & Hlt' & Hle & Hprev & Hwhy); [lia|lia|].
    exists st'. split; [done|]. split; [lia|]. split; [lia|]. done.
Qed.

(** The run up to round [r]: the loop has ended by then, or it goes on
    from a state reached after round [r]. *)
Lemma scroll_split counts scanMode scanLimit r : ∀ fuel st,
  previousCount st = counts (scrollRounds st) ∨ r ≠ 0%nat →
  (∃ st', scroll (r + fuel) counts scanMode scanLimit st = Some st' ∧
          (scrollRounds st' ≤ scrollRounds st + r)%nat) ∨
  (∃ st_r, scroll (r + fuel) counts scanMode scanLimit st
           = scroll fuel counts scanMode scanLimit st_r ∧
           scrollRounds st_r = (scrollRounds st + r)%nat ∧
           previousCount st_r = counts (scrollRounds st_r)).
Proof.
  induction r as [|r IH]; intros fuel st Hprev.
  - right. exists st. split; [done|]. split; [lia|]. by destruct Hprev.
  - simpl.
    pose proof (scroll_round_rounds scanMode scanLimit (counts (S (scrollRounds st))) st)
      as [Hr Hc].
    destruct (scroll_round scanMode scanLimit (counts (S (scrollRounds st))) st)
      as [stop st1]. simpl in *.
    destruct stop.
    + left. exists st1. split; [done|]. lia.
    + destruct (IH fuel st1) as [(st' & Hrun & Hle)|(st_r & Hrun & Hrounds & Hprev')].
      * left. by rewrite Hc, Hr.
      * left. exists st'. split; [done|]. lia.
      * right. exists st_r. split; [done|]. split; [lia|done].
Qed.

(** From a state in which the count of the last round is known, [k]
    further rounds without change, with [3 - k] such rounds behind, end
    the loop. *)
Lemma scroll_stable counts scanMode scanLimit k : ∀ fuel st,
  (1 ≤ k ≤ fuel)%nat →
  previousCount st = counts (scrollRounds st) →
  (∀ j, (1 ≤ j ≤ k)%nat → counts (scrollRounds st + j)%nat = counts (scrollRounds st)) →
  (3 ≤ stableRounds st + k)%nat →
  ∃ st', scroll fuel counts scanMode scanLimit st = Some st' ∧
         (scrollRounds st' ≤ scrollRounds st + k)%nat.
Proof.
  induction k as [|k IH]; intros fuel st Hk Hprev Hsame Hstable; [lia|].
  destruct fuel as [|fuel]; [lia|]. simpl.
  pose proof (scroll_round_rounds scanMode scanLimit (counts (S (scrollRounds st))) st)
    as [Hr Hc].
  assert (counts (S (scrollRounds st)) = previousCount st) as Hsame1.
  { rewrite Hprev, <- (Hsame 1%nat) by lia. f_equal. lia. }
  assert (stableRounds (scroll_round scanMode scanLimit (counts (S (scrollRounds st))) st).2
          = S (stableRounds st)) as Hs.
  { unfold scroll_round. rewrite Hsame1, Nat.eqb_refl. by repeat case_match. }
  assert ((3 ≤ S (stableRounds st))%nat →
          (scroll_round scanMode scanLimit (counts (S (scrollRounds st))) st).1 = true)
    as Hstop.
  { intros Hge. unfold scroll_round, MAX_STABLE_ROUNDS. rewrite Hsame1, Nat.eqb_refl.
    by rewrite (proj2 (Nat.leb_le _ _) Hge). }
  destruct (scroll_round scanMode scanLimit (counts (S (scrollRounds st))) st)
    as [stop st1]. simpl in *.
  destruct stop.
  - exists st1. split; [done|]. lia.
  - assert (stableRounds st < 2)%nat as Hlt.
    { destruct (decide (3 ≤ S (stableRounds st))%nat) as [Hge|]; [|lia].
      by specialize (Hstop Hge). }
    destruct (IH fuel st1) as (st' & Hrun & Hle); [lia|by rewrite Hc, Hr| |lia|].
    + intros j Hj. rewrite Hr.
      replace (S (scrollRounds st) + j)%nat with (scrollRounds st + S j)%nat by lia.
      rewrite Hsame by lia.
      replace (S (scrollRounds st)) with (scrollRounds st + 1)%nat by lia.
      by rewrite Hsame by lia.
    + exists st'. split; [done|]. lia.
Qed.

(** Reaching the scan limit ends the loop in [top] mode. *)
Lemma scroll_limit_reached counts scanLimit fuel st :
  (scanLimit ≤ counts (S (scrollRounds st)))%nat →
  ∃ st', scroll (S fuel) counts ScanTop scanLimit st = Some st' ∧
         scrollRounds st' = S (scrollRounds st).
Proof.
  intros Hlimit. simpl. unfold scroll_round.
  destruct (MAX_STABLE_ROUNDS <=? _)%nat; [by eexists|]. simpl.
  rewrite (proj2 (Nat.leb_le _ _) Hlimit). by eexists.
Qed.

(** X6.  Whatever the page shows, the scroll of the library ends within
    101 rounds.  The round in which it ends is one after which the number
    of links has not changed for three rounds, or, in [top] mode, has
    reached the scan limit, or it is round 101.  The loop does not run
    past three rounds in a row that show the same number of links as the
    round before them, nor, in [top] mode, past a round that shows as
    many links as the limit asks for. *)
Theorem scrollToBottomOfConversations_ends (counts : nat → nat)
    (scanMode : ScanMode) (scanLimit : nat) :
  ∃ st,
    scrollToBottomOfConversations 101 counts scanMode scanLimit = Some st ∧
    (1 ≤ scrollRounds st ≤ 101)%nat ∧
    previousCount st = counts (scrollRounds st) ∧
    ((3 ≤ stableRounds st)%nat ∨
     (scanMode = ScanTop ∧ (scanLimit ≤ counts (scrollRounds st))%nat) ∨
     scrollRounds st = 101%nat) ∧
    (∀ r, (1 ≤ r)%nat →
          counts (r + 1)%nat = counts r → counts (r + 2)%nat = counts r →
          counts (r + 3)%nat = counts r →
          (scrollRounds st ≤ r + 3)%nat) ∧
    (scanMode = ScanTop →
     ∀ r, (1 ≤ r)%nat → (scanLimit ≤ counts r)%nat → (scrollRounds st ≤ r)%nat).
Proof.
  destruct (scroll_terminates counts scanMode scanLimit 101 (mkScroll 0 0 0))
    as (st & Hrun & Hlt & Hle & Hprev & Hwhy); [simpl; lia..|].
  cbn [scrollRounds] in Hlt, Hle. unfold scrollToBottomOfConversations.
  exists st. split; [done|]. split; [lia|]. split; [done|].
  split; [|split].
  - destruct Hwhy as [?|[?|?]]; [by left|by right; left|]. right. right. lia.
  - intros r Hr H1 H2 H3.
    destruct (decide (r + 3 ≤ 101)%nat) as [Hfit|]; [|lia].
    pose proof (scroll_split counts scanMode scanLimit r (101 - r) (mkScroll 0 0 0)) as Hsplit.
    replace (r + (101 - r))%nat with 101%nat in Hsplit by lia.
    destruct Hsplit as [(st' & Hrun' & Hle')|(st_r & Hrun' & Hrounds & Hprev')]; [right; lia|..].
    + rewrite Hrun' in Hrun. injection Hrun as <-. cbn [scrollRounds Nat.add] in Hle'. lia.
    + rewrite Hrun' in Hrun. cbn [scrollRounds Nat.add] in Hrounds.
      destruct (scroll_stable counts scanMode scanLimit 3 (101 - r) st_r)
        as (st' & Hrun'' & Hle''); [lia|done| |lia|].
      * intros j Hj. rewrite Hrounds.
        destruct (decide (j = 1%nat)) as [->|]; [done|].
        destruct (decide (j = 2%nat)) as [->|]; [done|].
        by replace j with 3%nat by lia.
      * rewrite Hrun'' in Hrun. injection Hrun as <-. lia.
  - intros -> r Hr Hlimit.
    destruct (decide (r ≤ 101)%nat) as [Hfit|]; [|lia].
    destruct (decide (r = 1%nat)) as [->|Hr1].
    { destruct (scroll_limit_reached counts scanLimit 100 (mkScroll 0 0 0))
        as (st' & Hrun' & Hr'); [done|].
      rewrite Hrun' in Hrun. injection Hrun as <-. cbn [scrollRounds] in Hr'. lia. }
    pose proof (scroll_split counts ScanTop scanLimit (r - 1) (S (101 - r)) (mkScroll 0 0 0))
      as Hsplit.
    replace ((r - 1) + S (101 - r))%nat with 101%nat in Hsplit by lia.
    destruct Hsplit as [(st' & Hrun' & Hle')|(st_r & Hrun' & Hrounds & Hprev')]; [right; lia|..].
    + rewrite Hrun' in Hrun. injection Hrun as <-. cbn [scrollRounds Nat.add] in Hle'. lia.
    + rewrite Hrun' in Hrun. cbn [scrollRounds Nat.add] in Hrounds.
      destruct (scroll_limit_reached counts scanLimit (101 - r) st_r) as (st' & Hrun'' & Hr').
      { rewrite Hrounds. by replace (S (r - 1)) with r by lia. }
      rewrite Hrun'' in Hrun. injection Hrun as <-. lia.
Qed.

End LibraryScan.

Section Selection.
Import Js Utils ListConversations.
Context `{Date.Host}.

Lemma shouldReDownload_no_timestamp now doneFile url libraryTimestamp :
  isProcessed doneFile url = true → truthy_opt libraryTimestamp = false →
  shouldReDownload now doneFile url libraryTimestamp = false.
Proof. intros Hproc Hts. unfold shouldReDownload. by rewrite Hproc, Hts. Qed.

(** X7.  A thread that is not in the state is due whatever its time
    stamp.  A thread that is in the state is not due as soon as the
    comparison cannot be made: the library shows no time stamp, or the
    text does not parse, or it parses to an invalid date, or the stored
    [downloadedAt] is not a valid date. *)
Theorem shouldReDownload_without_comparison (now : Z) (doneFile : DoneFile)
    (url : string) (libraryTimestamp : option string) :
  (isProcessed doneFile url = false →
   shouldReDownload now doneFile url libraryTimestamp = true) ∧
  (isProcessed doneFile url = true →
   truthy_opt libraryTimestamp = false ∨
   parseLibraryTimestamp now (default "" libraryTimestamp) = None ∨
   parseLibraryTimestamp now (default "" libraryTimestamp) = Some None ∨
   (∀ record, processed doneFile !! url = Some record →
              Date.ofString (downloadedAt record) = None) →
   shouldReDownload now doneFile url libraryTimestamp = false).
Proof.
  split.
  - unfold shouldReDownload. by intros ->.
  - intros Hproc Hwhy.
    destruct (truthy_opt libraryTimestamp) eqn:Hts;
      [|by apply shouldReDownload_no_timestamp].
    unfold shouldReDownload. rewrite Hproc, Hts. simpl.
    apply bool_decide_eq_true_1 in Hproc as [record Hrec]. rewrite Hrec.
    destruct Hwhy as [?|[->|[->|Hbad]]]; [done..|].
    rewrite (Hbad record Hrec).
    destruct (parseLibraryTimestamp _ _) as [[?|]|]; done.
Qed.

Lemma filter_sublist {A} (f : A → bool) (l : list A) : List.filter f l `sublist_of` l.
Proof.
  induction l as [|x l IH]; simpl; [done|].
  destruct (f x); [by apply sublist_skip | by apply sublist_cons].
Qed.

Lemma elem_of_filter {A} (f : A → bool) (l : list A) x :
  x ∈ List.filter f l ↔ x ∈ l ∧ f x = true.
Proof. rewrite !list_elem_of_In. apply filter_In. Qed.

(** X8.  The threads selected by [getConversations] are threads that
    were discovered, in the order of discovery.  A discovered thread is
    selected exactly when it is not in the state or [shouldReDownload]
    says so; in particular every thread is selected on a run that starts
    from the empty state, and a thread that is in the state and shows no
    time stamp in the library is never selected. *)
Theorem toProcess_selection (now : Z) (doneFile : DoneFile)
    (conversations : list Conversation) :
  toProcess now doneFile conversations `sublist_of` conversations ∧
  (∀ conv, conv ∈ toProcess now doneFile conversations ↔
           conv ∈ conversations ∧
           (isProcessed doneFile (url conv) = false ∨
            shouldReDownload now doneFile (url conv) (libraryTimestamp conv) = true)) ∧
  toProcess now empty_DoneFile conversations = conversations ∧
  (∀ conv, isProcessed doneFile (url conv) = true →
           truthy_opt (libraryTimestamp conv) = false →
           conv ∉ toProcess now doneFile conversations).
Proof.
  split; [apply filter_sublist|]. split; [|split].
  - intros conv. unfold toProcess. rewrite elem_of_filter.
    destruct (isProcessed doneFile (url conv)); simpl.
    + split; [intros [? ?]; by split; [|right] | by intros [? [?|?]]].
    + split; [intros [? ?]; by split; [|left] | by intros [? ?]].
  - unfold toProcess. induction conversations as [|conv rest IH]; [done|].
    simpl. by rewrite IH.
  - intros conv Hproc Hts. unfold toProcess. rewrite elem_of_filter, Hproc. simpl.
    intros [_ Hdue]. by rewrite shouldReDownload_no_timestamp in Hdue.
Qed.

End Selection.

Section LibraryScanExamples.
Import Js Utils ListConversations.

Lemma scrollToBottomOfConversations_ends_witness :
  ∃ st,
    scrollToBottomOfConversations 101 (fun _ => 12%nat) ScanFull 10 = Some st ∧
    (scrollRounds st ≤ 4)%nat.
Proof.
  destruct (scrollToBottomOfConversations_ends (fun _ => 12%nat) ScanFull 10)
    as (st & Hrun & _ & _ & _ & Hstable & _).
  exists st. split; [exact Hrun|]. apply (Hstable 1%nat); [lia|reflexivity..].
Defined.

Lemma shouldReDownload_without_comparison_witness :
  @shouldReDownload Date.utc_host midday downloaded_at_9 thread_url (Some "a while back")
  = false.
Proof.
  apply (proj2 (@shouldReDownload_without_comparison Date.utc_host midday downloaded_at_9
                  thread_url (Some "a while back"))).
  - reflexivity.
  - right. left. reflexivity.
Defined.

Lemma toProcess_selection_witness :
  mkConversation "A thread" thread_url None
  ∉ @toProcess Date.utc_host midday downloaded_at_9
      [mkConversation "A thread" thread_url None].
Proof.
  apply (proj2 (proj2 (proj2 (@toProcess_selection Date.utc_host midday downloaded_at_9
                                [mkConversation "A thread" thread_url None])))).
  - reflexivity.
  - reflexivity.
Defined.

End LibraryScanExamples.

(** ** The thread loader: further properties of ConversationSaver.ts *)

Section PaginationMore.
Import Js Types ConversationSaver.

Lemma dedup_step_fresh seen0 d entry : fresh seen0 d → fresh seen0 (dedup_step d entry).
Proof.
  intros (Hnd & Hnew & Hseen). unfold dedup_step.
  destruct (decide (uuid entry ∈ seen d)) as [Hin|Hnin]; [done|].
  assert ((uuid entry ∉ seen0) ∧ (uuid entry ∉ uuids (newEntries d))) as [H0 H1].
  { split; intros ?; apply Hnin, Hseen; auto. }
  split; [|split]; simpl.
  - rewrite uuids_app. apply NoDup_app. split; [done|]. split; [|apply NoDup_singleton].
    intros u Hu Hv%list_elem_of_singleton. by subst.
  - intros u. rewrite uuids_app, elem_of_app.
    intros [Hu|Hv%list_elem_of_singleton]; [auto|by subst].
  - intros u. rewrite uuids_app. change (uuids [entry]) with [uuid entry].
    rewrite elem_of_app, elem_of_union, elem_of_singleton, Hseen, list_elem_of_singleton.
    tauto.
Qed.

Lemma dedup_fresh seen0 es : ∀ d, fresh seen0 d → fresh seen0 (foldl dedup_step d es).
Proof.
  induction es as [|e es IH]; intros d Hd; [done|]. simpl. by apply IH, dedup_step_fresh.
Qed.

Lemma loop_body_collected server threadId st st' :
  loop_body server threadId st = Break st' ∨ loop_body server threadId st = Continue st' →
  collected st → collected st'.
Proof.
  unfold loop_body.
  destruct (server _ _ _) as [page|]; [|by intros [|]].
  destruct (truthy (pd_error page)); [by intros [[= <-]|]|].
  destruct (length (pd_entries page) =? 0)%nat; [by intros [[= <-]|]|].
  intros [|[= <-]]; [done|]. intros [Hnd Hseen]. simpl in *.
  destruct (dedup_fresh (seenUuids st) (pd_entries page) (mkDedup [] (seenUuids st)))
    as (Hnd' & Hnew & Hseen').
  { split; [constructor|]. split; [by intros u ?%elem_of_nil|].
    intros u. simpl. split; [by left|]. by intros [?|?%elem_of_nil]. }
  set (d := foldl dedup_step (mkDedup [] (seenUuids st)) (pd_entries page)) in *.
  assert ((if (0 <? length (newEntries d))%nat then newEntries d ++ allEntries st
           else allEntries st) = newEntries d ++ allEntries st) as ->.
  { destruct (newEntries d); done. }
  split; simpl.
  - rewrite uuids_app. apply NoDup_app. split; [done|]. split; [|done].
    intros u Hu Hin. apply (Hnew u Hu). by apply Hseen.
  - intros u. rewrite uuids_app, elem_of_app, Hseen', Hseen. tauto.
Qed.

Lemma loop_collected server threadId fuel : ∀ st st',
  loop fuel server threadId st = Some (Ok st') → collected st → collected st'.
Proof.
  induction fuel as [|fuel IH]; intros st st'; rewrite loop_unfold;
    destruct (loop_cond st); try done; try by intros [= <-].
  destruct (loop_body server threadId st) as [st1|st1|e] eqn:Hbody; [| |done].
  - intros [= <-]. apply (loop_body_collected server threadId st). by left.
  - intros Hrun Hst. apply (IH st1 st' Hrun).
    apply (loop_body_collected server threadId st); [by right|done].
Qed.

(** X9.  The conversation returned by [fetchNextPages] has no uuid
    twice, provided the first page has none twice: an entry of a fetched
    page whose uuid has been seen, on the first page or on a page
    fetched before, is dropped. *)
Theorem fetchNextPages_no_duplicates (fuel : nat) (server : PageServer)
    (threadId : string) (firstPage result : ConversationResponse) :
  fetchNextPages fuel server threadId firstPage = Some (Ok result) →
  NoDup (uuids (entries firstPage)) →
  NoDup (uuids (entries result)).
Proof.
  unfold fetchNextPages, fetchNextPages_run.
  destruct (loop fuel server threadId (initial firstPage)) as [[st|e]|] eqn:Hrun; [|done..].
  intros [= <-] Hnd. simpl.
  apply (loop_collected server threadId fuel (initial firstPage) st Hrun).
  split; [done|]. intros u. simpl. apply elem_of_list_to_set.
Qed.

End PaginationMore.

Section ThreadIds.
Import Js Types ConversationSaver.

Lemma has_char_cons c x s : has_char c (String x s) = Ascii.eqb c x || has_char c s.
Proof. done. Qed.

Lemma after_last_none c s : has_char c s = false → after_last c s = s.
Proof. destruct s as [|x s]; [done|]. simpl. by intros ->. Qed.

Lemma after_last_app c a b : after_last c (a +:+ String c b) = after_last c b.
Proof.
  induction a as [|x a IH]; simpl.
  - by rewrite Ascii.eqb_refl.
  - rewrite has_char_app, has_char_cons, Ascii.eqb_refl, orb_true_r. simpl.
    by rewrite orb_true_r.
Qed.

Lemma has_char_after_last c s : has_char c (after_last c s) = false.
Proof.
  induction s as [|x s IH]; [done|].
  cbn [after_last]. by destruct (has_char c (String x s)) eqn:Hc.
Qed.

Lemma before_first_none c s : has_char c s = false → before_first c s = s.
Proof.
  induction s as [|x s IH]; [done|]. simpl.
  destruct (Ascii.eqb c x); [done|]. simpl. by intros ->%IH.
Qed.

Lemma before_first_app c a b :
  has_char c a = false → before_first c (a +:+ String c b) = a.
Proof.
  induction a as [|x a IH]; simpl.
  - by rewrite Ascii.eqb_refl.
  - destruct (Ascii.eqb c x); [done|]. simpl. by intros ->%IH.
Qed.

Lemma has_char_before_first c c' s :
  has_char c (before_first c s) = false ∧
  (has_char c' s = false → has_char c' (before_first c s) = false).
Proof.
  induction s as [|x s [IH1 IH2]]; [done|]. simpl.
  destruct (Ascii.eqb c x) eqn:Hx; [done|]. simpl. rewrite Hx, IH1. split; [done|].
  destruct (Ascii.eqb c' x); [done|]. simpl. apply IH2.
Qed.

(** The id read off a URL holds neither [/] nor [?]. *)
Lemma threadIdFromUrl_chars url :
  has_char "/" (threadIdFromUrl url) = false ∧ has_char "?" (threadIdFromUrl url) = false.
Proof.
  unfold threadIdFromUrl. split.
  - destruct (has_char_before_first "?" "/" (after_last "/" url)) as [_ Hkeep].
    apply Hkeep, has_char_after_last.
  - by destruct (has_char_before_first "?" "?" (after_last "/" url)) as [Hnone _].
Qed.

(** X10.  The thread id that [loadThreadFromURL] reads off a URL is its
    last path segment: what follows the last [/], up to the first [?]
    after it.  A URL that ends in [/] yields the empty id, and a query
    string yields the segment before it as long as it holds no [/]
    itself. *)
Theorem threadIdFromUrl_last_segment (base id query : string) :
  has_char "/" id = false →
  has_char "?" id = false →
  threadIdFromUrl (base +:+ "/" +:+ id) = id ∧
  (has_char "/" query = false →
   threadIdFromUrl (base +:+ "/" +:+ id +:+ "?" +:+ query) = id) ∧
  threadIdFromUrl (base +:+ "/") = "".
Proof.
  intros Hslash Hq. unfold threadIdFromUrl. split; [|split].
  - change (base +:+ "/" +:+ id) with (base +:+ String "/" id).
    rewrite after_last_app, after_last_none by done. by apply before_first_none.
  - intros Hquery.
    change (base +:+ "/" +:+ id +:+ "?" +:+ query)
      with (base +:+ String "/" (id +:+ String "?" query)).
    rewrite after_last_app, after_last_none.
    + by apply before_first_app.
    + rewrite has_char_app, Hslash. simpl. done.
  - change (base +:+ "/") with (base +:+ String "/" ""). by rewrite after_last_app.
Qed.

Lemma before_sub_no_slash s :
  has_char "/" s = false → before_sub "/rest/thread/" s = s.
Proof.
  induction s as [|x s IH]; [done|]. rewrite has_char_cons.
  intros [Hx Hs]%orb_false_iff. cbn [before_sub String.prefix].
  destruct (ascii_dec "/" x) as [<-|Hne]; [done|]. by rewrite IH.
Qed.

Lemma prefix_app sep s : String.prefix sep (sep +:+ s) = true.
Proof.
  induction sep as [|c sep IH]; simpl; [by destruct s|]. by destruct (ascii_dec c c).
Qed.

Lemma drop_app sep s : drop (String.length sep) (sep +:+ s) = s.
Proof. induction sep as [|c sep IH]; [by destruct s|done]. Qed.

Lemma after_first_app sep s : after_first sep (sep +:+ s) = Some s.
Proof.
  assert (∀ t, after_first sep t
               = if String.prefix sep t then Some (drop (String.length sep) t)
                 else match t with
                      | EmptyString => None
                      | String _ t' => after_first sep t'
                      end) as Heq by (by intros []).
  by rewrite Heq, prefix_app, drop_app.
Qed.

Lemma includes_app sep s : includes (sep +:+ s) sep = true.
Proof.
  assert (∀ t, includes t sep
               = String.prefix sep t ||
                 match t with
                 | EmptyString => false
                 | String _ t' => includes t' sep
                 end) as Heq by (by intros []).
  by rewrite Heq, prefix_app.
Qed.

(** X11.  The responses to the page requests that [fetchNextPages]
    issues for the thread of a URL are filed by the response handler
    under the id that [loadThreadFromURL] reads off that URL, unless that
    id is [list_recent]; a response to a request that is not a GET is
    ignored. *)
Theorem harvestedThreadId_of_page_request (url cur : string) :
  has_char "/" cur = false →
  threadIdFromUrl url ≠ "list_recent" →
  harvestedThreadId "GET" (pageRequestUrl (threadIdFromUrl url) cur)
  = Some (threadIdFromUrl url) ∧
  (∀ caps data,
     handleResponse caps "GET" (pageRequestUrl (threadIdFromUrl url) cur) (Some data)
     = onResponse caps (threadIdFromUrl url) data) ∧
  (∀ caps method body,
     method ≠ "GET" →
     handleResponse caps method (pageRequestUrl (threadIdFromUrl url) cur) body = caps).
Proof.
  intros Hcur Hne.
  destruct (threadIdFromUrl_chars url) as [Hslash Hq].
  set (tId := threadIdFromUrl url) in *.
  assert (harvestedThreadId "GET" (pageRequestUrl tId cur) = Some tId) as Hid.
  { unfold harvestedThreadId, pageRequestUrl.
    set (rest := tId +:+ "?cursor=" +:+ cur).
    change ("https://www.perplexity.ai/rest/thread/" +:+ rest)
      with ("https://www.perplexity.ai" +:+ "/rest/thread/" +:+ rest).
    change (after_first "/rest/thread/" ("https://www.perplexity.ai" +:+ "/rest/thread/" +:+ rest))
      with (after_first "/rest/thread/" ("/rest/thread/" +:+ rest)).
    change (includes ("https://www.perplexity.ai" +:+ "/rest/thread/" +:+ rest) "/rest/thread/")
      with (includes ("/rest/thread/" +:+ rest) "/rest/thread/").
    rewrite after_first_app, includes_app. cbn [String.eqb Ascii.eqb Bool.eqb andb].
    rewrite before_sub_no_slash.
    - change rest with (tId +:+ String "?" ("cursor=" +:+ cur)).
      rewrite before_first_app by done.
      by rewrite (proj2 (String.eqb_neq _ _) Hne).
    - unfold rest. rewrite has_char_app, Hslash. simpl. done. }
  split; [done|]. split.
  - intros caps data. unfold handleResponse. by rewrite Hid.
  - intros caps method body Hm. unfold handleResponse, harvestedThreadId.
    by rewrite (proj2 (String.eqb_neq _ _) Hm).
Qed.

End ThreadIds.

Section LoadTimeout.
Import Js Types ConversationSaver.
Context `{Date.Host}.

Lemma onResponse_other caps threadId data other :
  other ≠ threadId → onResponse caps threadId data !! other = caps !! other.
Proof.
  intros Hne. unfold onResponse. destruct (caps !! threadId); by rewrite lookup_insert_ne.
Qed.

Lemma harvest_other responses other : ∀ caps,
  (∀ r, r ∈ responses → r.1 ≠ other) →
  foldl (fun caps r => onResponse caps r.1 r.2) caps responses !! other = caps !! other.
Proof.
  induction responses as [|r responses IH]; intros caps Hall; [done|].
  simpl. rewrite IH by (intros r' Hr'; apply Hall; by right).
  apply onResponse_other. intros Heq. apply (Hall r); [by left|done].
Qed.

(** X12.  When no response for the thread is harvested while it is
    loaded, [loadThreadFromURL] throws the time-out error, whatever had
    been buffered for the thread before: the buffer is emptied when the
    load starts.  The message of the error is the one that the retry loop
    of the export recognises as a time-out. *)
Theorem loadThreadFromURL_times_out (fuel : nat)
    (capturedResponses : gmap string ConversationResponse) (browser : Browser)
    (url : string) :
  (∀ r, r ∈ responses browser → r.1 ≠ threadIdFromUrl url) →
  ∃ e captured,
    loadThreadFromURL fuel capturedResponses browser url = Some (Throw e, captured) ∧
    message e = "Timeout waiting for thread data API response for " +:+ threadIdFromUrl url ∧
    includes (message e) "Timeout waiting for thread data" = true ∧
    captured !! threadIdFromUrl url = None.
Proof.
  intros Hnone. unfold loadThreadFromURL.
  rewrite (harvest_other _ _ _ Hnone), lookup_delete_eq.
  eexists _, _. split; [done|]. split; [done|]. split; [done|].
  by rewrite (harvest_other _ _ _ Hnone), lookup_delete_eq.
Qed.

End LoadTimeout.

Section SaverMoreExamples.
Import Js Types ConversationSaver.

Lemma fetchNextPages_no_duplicates_witness :
  NoDup (uuids [mkEntry "o1" "" "" "older"; mkEntry "n1" "" "" "newest"]).
Proof.
  apply (fetchNextPages_no_duplicates 1 one_older_page "t1" page1
           (mkResponse "ok" [mkEntry "o1" "" "" "older"; mkEntry "n1" "" "" "newest"]
                       false None None)).
  - vm_compute. reflexivity.
  - simpl. apply NoDup_singleton.
Defined.

Lemma threadIdFromUrl_last_segment_witness :
  threadIdFromUrl "https://www.perplexity.ai/search/what-is-rocq-abc123" = "what-is-rocq-abc123".
Proof.
  apply (proj1 (threadIdFromUrl_last_segment "https://www.perplexity.ai/search"
                  "what-is-rocq-abc123" "" eq_refl eq_refl)).
Defined.

Lemma harvestedThreadId_of_page_request_witness :
  harvestedThreadId "GET"
    (pageRequestUrl (threadIdFromUrl "https://www.perplexity.ai/search/abc123") "c1")
  = Some "abc123".
Proof.
  apply (proj1 (harvestedThreadId_of_page_request
                  "https://www.perplexity.ai/search/abc123" "c1" eq_refl
                  ltac:(vm_compute; intros Heq; discriminate Heq))).
Defined.

Lemma loadThreadFromURL_times_out_witness :
  ∃ e captured,
    @loadThreadFromURL Date.utc_host 0 ∅ (mkBrowser [] [] (fun _ _ _ => None))
      "https://www.perplexity.ai/search/abc123" = Some (Throw e, captured) ∧
    includes (message e) "Timeout waiting for thread data" = true.
Proof.
  destruct (@loadThreadFromURL_times_out Date.utc_host 0 ∅
              (mkBrowser [] [] (fun _ _ _ => None))
              "https://www.perplexity.ai/search/abc123")
    as (e & captured & Hload & _ & Hmsg & _).
  - intros r Hr. simpl in Hr. by apply elem_of_nil in Hr.
  - by exists e, captured.
Defined.

End SaverMoreExamples.

(** ** The download synchronizer: further properties of DownloadManager.ts *)

Section DownloadsMore.
Import Js DownloadManager.
Context `{Path.Host}.

Lemma at_call_downloadPath i f s :
  (∀ c m, downloadPath (f c m).2 = downloadPath m) →
  downloadPath (manager (at_call i f s)) = downloadPath (manager s).
Proof.
  intros Hf. unfold at_call. destruct (calls s !! i) as [c|]; [|done].
  specialize (Hf c (manager s)). by destruct (f c (manager s)).
Qed.

Lemma step_downloadPath s a :
  downloadPath (manager (step s a)) = downloadPath (manager s).
Proof.
  destruct a as [t|i|i e|name|ev|i]; simpl.
  - unfold waitForDownload. destruct (downloadPromise (manager s)); [done|]. by destruct t.
  - apply at_call_downloadPath. by intros [].
  - apply at_call_downloadPath. by intros [].
  - done.
  - unfold downloadProgress. by repeat case_match.
  - apply at_call_downloadPath. intros [p| |[p|]|r] m; simpl; try done;
      by destruct (promises m !! p) as [[]|].
Qed.

Lemma run_downloadPath trace : ∀ s,
  downloadPath (manager (run s trace)) = downloadPath (manager s).
Proof.
  induction trace as [|a trace IH]; intros s; [done|].
  simpl. by rewrite IH, step_downloadPath.
Qed.

(** No call has returned [null]. *)
Lemma step_no_null s a :
  wf s →
  (∀ i r, calls s !! i = Some (Done (Ok r)) → is_Some r) →
  ∀ i r, calls (step s a) !! i = Some (Done (Ok r)) → is_Some r.
Proof.
  intros Hwf Hnn.
  assert (∀ j f,
            (∀ c m r, calls s !! j = Some c → (f c m).1 = Done (Ok r) →
                      c = Done (Ok r) ∨ is_Some r) →
            ∀ i r, calls (at_call j f s) !! i = Some (Done (Ok r)) → is_Some r) as Hat.
  { intros j f Hf i r. destruct (calls s !! j) as [c|] eqn:Hc;
      [|rewrite at_call_none by done; apply Hnn].
    destruct (at_call_calls j f s c Hc) as [-> _]. intros Hi.
    destruct (lookup_replaced _ _ _ _ _ _ Hc Hi) as [[-> Heq]|[_ Hi']]; [|by apply (Hnn i)].
    destruct (Hf c (manager s) r eq_refl (eq_sym Heq)) as [->|?]; [by apply (Hnn j)|done]. }
  destruct a as [t|j|j e|name|ev|j]; simpl; try done.
  - intros i r. destruct (waitForDownload t (manager s)) as [c m] eqn:Hw. simpl.
    intros [Hi|[_ Hi]]%lookup_app_Some; [by apply (Hnn i)|].
    destruct (i - length (calls s))%nat; [|done]. simpl in Hi. injection Hi as ->.
    unfold waitForDownload in Hw.
    destruct (downloadPromise (manager s)); [done|]. by destruct t.
  - apply Hat. intros c m r _. destruct c; simpl; try done. by left.
  - apply Hat. intros c m r _. destruct c; simpl; try done. by left.
  - apply Hat. intros [p| |[p|]|r'] m r Hc; simpl; try done.
    + destruct (promises m !! p) as [[|f|e]|]; simpl; try done.
      intros [= <-]. by right.
    + destruct (promises m !! p) as [[|f|e]|]; simpl; try done.
      intros [= <-]. by right.
    + by destruct (wf_promise s Hwf j None Hc) as [_ [? ?]].
    + by left.
Qed.

Lemma run_no_null trace : ∀ s,
  wf s →
  (∀ i r, calls s !! i = Some (Done (Ok r)) → is_Some r) →
  ∀ i r, calls (run s trace) !! i = Some (Done (Ok r)) → is_Some r.
Proof.
  induction trace as [|a trace IH]; intros s Hwf Hnn; [done|].
  simpl. apply IH; [by apply wf_step | by apply step_no_null].
Qed.

(** X13.  In every state reached from a fresh manager at most one call
    is suspended inside [waitForDownload] as the creator of a promise,
    that promise is the one in the field [downloadPromise], and the
    other calls made meanwhile follow a promise.  No call ever returns
    [null]: a call that returns, returns a file name. *)
Theorem waitForDownload_one_owner (path : string) (trace : list Action) :
  let s := run (mkSystem (create path) []) trace in
  (∀ i j ci cj,
     calls s !! i = Some ci → calls s !! j = Some cj →
     is_owner ci = true → is_owner cj = true → i = j) ∧
  (∀ i c, calls s !! i = Some c → is_owner c = true →
          ∃ p, downloadPromise (manager s) = Some p ∧
               (c = AtTrigger ∨ c = AtPromise (Some p))) ∧
  (∀ i r, observed s i = Some (Ok r) → ∃ file, r = Some file).
Proof.
  intros s. pose proof (wf_reachable path trace) as Hwf. fold s in Hwf.
  split; [apply (wf_owner s Hwf)|]. split.
  - intros i [p| |q|r] Hc Hown; try done.
    + destruct (wf_trigger s Hwf i Hc) as [p Hp]. exists p. split; [done|by left].
    + destruct (wf_promise s Hwf i q Hc) as [-> [p Hp]]. exists p. split; [done|].
      right. by rewrite Hp.
  - intros i r Hobs. unfold observed in Hobs.
    destruct (calls s !! i) as [[| | |r']|] eqn:Hc; try done. injection Hobs as ->.
    destruct (run_no_null trace (mkSystem (create path) []) (wf_create path)) with i r
      as [file ->]; [by intros j r' ?|done|by exists file].
Qed.

Lemma resume_settled i c p st s :
  calls s !! i = Some c →
  c = Following p ∨ c = AtPromise (Some p) →
  promises (manager s) !! p = Some st →
  observed (at_call i resume s) i =
  match st with
  | Pending => None
  | Fulfilled f => Some (Ok (Some f))
  | Failed e => Some (Throw e)
  end.
Proof.
  intros Hc Hwhich Hp. unfold observed.
  destruct (at_call_calls i resume s c Hc) as [-> _].
  rewrite list_lookup_insert_eq by (by eapply lookup_lt_Some).
  by destruct Hwhich as [-> | ->]; simpl; rewrite Hp; destruct st.
Qed.

(** X14.  When a download that has announced its file name completes, a
    call that waits on the promise the manager is about to resolve,
    whether it created the promise or follows it, returns what the
    host's [path.join] makes of the download path of the manager and the
    file name, which is also recorded as the last downloaded file; the
    resolving functions are dropped. *)
Theorem download_completed (path : string) (trace : list Action) (name err : string)
    (i : nat) (c : Call) (p : nat) :
  let s := run (mkSystem (create path) []) trace in
  let s' := run s [WillBegin name; Progress (mkEvent completed err); Resume i] in
  calls s !! i = Some c →
  c = Following p ∨ c = AtPromise (Some p) →
  downloadResolve (manager s) = Some p →
  promises (manager s) !! p = Some Pending →
  truthy name = true →
  observed s' i = Some (Ok (Some (Path.join [path; name]))) ∧
  lastDownloadedFile (manager s') = Some (Path.join [path; name]) ∧
  downloadResolve (manager s') = None ∧
  downloadReject (manager s') = None.
Proof.
  intros s s' Hc Hwhich Hres Hp Hname.
  assert (downloadPath (manager s) = path) as Hpath by apply run_downloadPath.
  set (m1 := downloadProgress (mkEvent completed err) (downloadWillBegin name (manager s))).
  assert (m1 = mkManager path (Some (Path.join [path; name])) (downloadPromise (manager s))
                         None None None
                         (<[p := Fulfilled (Path.join [path; name])]> (promises (manager s))))
    as Hm1.
  { unfold m1, downloadProgress, downloadWillBegin. simpl. rewrite Hname, Hres, Hpath.
    unfold settle. by rewrite Hp. }
  assert (s' = at_call i resume (mkSystem m1 (calls s))) as -> by done.
  split.
  - rewrite (resume_settled i c p (Fulfilled (Path.join [path; name]))); [done..|].
    rewrite Hm1. simpl. apply list_lookup_insert_eq. by eapply lookup_lt_Some.
  - unfold at_call. simpl. rewrite Hc.
    destruct Hwhich as [-> | ->]; simpl; rewrite Hm1; simpl;
      (rewrite list_lookup_insert_eq by (by eapply lookup_lt_Some)); done.
Qed.

(** X15.  When a download is cancelled or interrupted, a call that waits
    on the promise the manager is about to reject throws a
    [DownloadError] whose message carries the error text of the event,
    or "Unknown error" when there is none, and whose status code is 429
    exactly when the text mentions "429" or "rate limit". *)
Theorem download_aborted (path : string) (trace : list Action)
    (state : DownloadState) (err : string) (i : nat) (c : Call) (p : nat) :
  let s := run (mkSystem (create path) []) trace in
  let s' := run s [Progress (mkEvent state err); Resume i] in
  calls s !! i = Some c →
  c = Following p ∨ c = AtPromise (Some p) →
  downloadReject (manager s) = Some p →
  promises (manager s) !! p = Some Pending →
  state = canceled ∨ state = interrupted →
  ∃ e,
    observed s' i = Some (Throw e) ∧
    message e = "Download failed: " +:+ (if truthy err then err else "Unknown error") ∧
    statusCode e = (if includes err "429" || includes err "rate limit"
                    then Some 429 else None) ∧
    downloadResolve (manager s') = None ∧
    downloadReject (manager s') = None.
Proof.
  intros s s' Hc Hwhich Hrej Hp Hstate.
  set (e := mkError ("Download failed: " +:+ or_else err "Unknown error")
                    (if includes err "429" || includes err "rate limit"
                     then Some 429 else None)).
  set (m1 := downloadProgress (mkEvent state err) (manager s)).
  assert (m1 = mkManager (downloadPath (manager s)) (lastDownloadedFile (manager s))
                         (downloadPromise (manager s)) None None None
                         (<[p := Failed e]> (promises (manager s)))) as Hm1.
  { unfold m1, downloadProgress. simpl.
    assert (is_completed state = false) as -> by (by destruct Hstate as [-> | ->]).
    assert (is_aborted state = true) as -> by (by destruct Hstate as [-> | ->]).
    simpl. rewrite Hrej. unfold settle. by rewrite Hp. }
  assert (s' = at_call i resume (mkSystem m1 (calls s))) as -> by done.
  exists e. split; [|split; [done|split; [done|]]].
  - rewrite (resume_settled i c p (Failed e)); [done..|].
    rewrite Hm1. simpl. apply list_lookup_insert_eq. by eapply lookup_lt_Some.
  - unfold at_call. simpl. rewrite Hc.
    destruct Hwhich as [-> | ->]; simpl; rewrite Hm1; simpl;
      (rewrite list_lookup_insert_eq by (by eapply lookup_lt_Some)); done.
Qed.

End DownloadsMore.

Section DownloadMoreExamples.
Import Js DownloadManager.
#[local] Existing Instance posix_host.

Lemma download_completed_witness :
  observed (run (run (mkSystem (create "files") []) [CallWait false])
                [WillBegin "report.pdf"; Progress (mkEvent completed ""); Resume 0]) 0
  = Some (Ok (Some "files/report.pdf")).
Proof.
  destruct (download_completed "files" [CallWait false] "report.pdf" "" 0
              (AtPromise (Some 0%nat)) 0) as [Hobs _].
  - reflexivity.
  - right. reflexivity.
  - reflexivity.
  - reflexivity.
  - reflexivity.
  - exact Hobs.
Defined.

Lemma download_aborted_witness :
  ∃ e,
    observed (run (run (mkSystem (create "files") []) [CallWait false])
                  [Progress (mkEvent canceled "HTTP 429"); Resume 0]) 0
    = Some (Throw e) ∧
    statusCode e = Some 429.
Proof.
  destruct (download_aborted "files" [CallWait false] canceled "HTTP 429" 0
              (AtPromise (Some 0%nat)) 0)
    as (e & Hobs & _ & Hcode & _).
  - reflexivity.
  - right. reflexivity.
  - reflexivity.
  - reflexivity.
  - left. reflexivity.
  - exists e. split; [exact Hobs | exact Hcode].
Defined.

End DownloadMoreExamples.

(** ** The export of one conversation: saveConversation.ts *)

Section SaveConversationRetries.
Import Js SaveConversation.

Lemma export_retry_outcome env remaining :
  (1 ≤ remaining ≤ maxRetries)%nat →
  ∃ k, (maxRetries - remaining ≤ k < maxRetries)%nat ∧
    (∀ j, (maxRetries - remaining ≤ j < k)%nat →
          ∃ e, download env j = Throw e ∧ is_rate_limit e = true ∧
               menu_click env (S j) = None) ∧
    ((∃ file, download env k = Ok file ∧ export_retry env remaining = Ok (Some file)) ∨
     (∃ e, download env k = Throw e ∧
           (is_rate_limit e = false ∨ S k = maxRetries) ∧
           export_retry env remaining = Throw e) ∨
     (∃ e e', download env k = Throw e ∧ is_rate_limit e = true ∧
              (S k < maxRetries)%nat ∧ menu_click env (S k) = Some e' ∧
              export_retry env remaining = Throw e')).
Proof.
  induction remaining as [|remaining IH]; intros Hrem; [lia|].
  cbn [export_retry]. cbv zeta.
  set (retryCount := (maxRetries - S remaining)%nat).
  assert (∀ j, (retryCount ≤ j < retryCount)%nat →
               ∃ e, download env j = Throw e ∧ is_rate_limit e = true ∧
                    menu_click env (S j) = None) as Hnone by (intros; lia).
  destruct (download env retryCount) as [file|e] eqn:Hd.
  { exists retryCount. split; [lia|]. split; [done|]. left. by exists file. }
  destruct (is_rate_limit e) eqn:Hrate.
  2:{ exists retryCount. split; [lia|]. split; [done|]. right. left. exists e. auto. }
  destruct (S retryCount <? maxRetries)%nat eqn:Hmore.
  2:{ apply Nat.ltb_ge in Hmore. exists retryCount. split; [lia|]. split; [done|].
      right. left. exists e. split; [done|]. split; [|done]. right. unfold retryCount in *. lia. }
  apply Nat.ltb_lt in Hmore.
  destruct (menu_click env (S retryCount)) as [e'|] eqn:Hclick.
  { exists retryCount. split; [lia|]. split; [done|]. right. right. by exists e, e'. }
  destruct IH as (k & Hk & Hbefore & Hout); [unfold retryCount in *; lia|].
  exists k. split; [unfold retryCount in *; lia|]. split; [|done].
  intros j Hj. destruct (decide (j = retryCount)) as [->|Hne]; [by exists e|].
  apply Hbefore. unfold retryCount in *. lia.
Qed.

(** X16.  [saveConversation] calls [waitForDownload] at most four times.
    It returns with the first download that succeeds, the earlier ones
    having failed with status 429; it rethrows at once an error that is
    not a [DownloadError] with status 429, and the fourth such error; and
    an error of the click that reopens the menu before a retry ends it
    as well.  It never leaves the loop without one or the other. *)
Theorem saveConversation_outcome (env : ExportEnv) :
  ∃ k, (k < 4)%nat ∧
    (∀ j, (j < k)%nat →
          ∃ e, download env j = Throw e ∧ is_rate_limit e = true ∧
               menu_click env (S j) = None) ∧
    ((∃ file, download env k = Ok file ∧ saveConversation env = Ok (Some file)) ∨
     (∃ e, download env k = Throw e ∧
           (is_rate_limit e = false ∨ k = 3%nat) ∧
           saveConversation env = Throw e) ∨
     (∃ e e', download env k = Throw e ∧ is_rate_limit e = true ∧
              (k < 3)%nat ∧ menu_click env (S k) = Some e' ∧
              saveConversation env = Throw e')).
Proof.
  destruct (export_retry_outcome env maxRetries) as (k & Hk & Hbefore & Hout);
    [unfold maxRetries; lia|].
  unfold maxRetries in *. exists k. split; [lia|]. split.
  - intros j Hj. apply Hbefore. lia.
  - destruct Hout as [?|[(e & ? & Hwhy & ?)|(e & e' & ? & ? & ? & ? & ?)]].
    + by left.
    + right. left. exists e. split; [done|]. split; [|done].
      destruct Hwhy as [?|?]; [by left|right; lia].
    + right. right. exists e, e'. repeat split; try done. lia.
Qed.

End SaveConversationRetries.

(** ** The download of generated files: fileDownloader.ts *)

Section GeneratedFiles.
Import Js FileDownloader.

Lemma json_size_elem (l : list json) v :
  v ∈ l → (json_size v ≤ foldr (fun v n => json_size v + n)%nat 0%nat l)%nat.
Proof.
  induction 1 as [v l|v w l _ IH]; cbn [foldr]; lia.
Qed.

Lemma json_size_prop (o : gmap string json) k v :
  o !! k = Some v → (json_size v < json_size (JObj o))%nat.
Proof.
  intros Hk. simpl. rewrite map_fold_foldr.
  apply elem_of_map_to_list in Hk. revert Hk.
  generalize (map_to_list o). intros l Hin.
  induction l as [|[k' v'] l IH]; [by apply elem_of_nil in Hin|].
  apply elem_of_cons in Hin as [[= <- <-]|Hin]; simpl; [lia|].
  specialize (IH Hin). lia.
Qed.

Lemma extractAllUrls_array (l : list json) :
  (∀ v, v ∈ l → extractAllUrls v = []) →
  foldl (fun urls v => urls ++ extractAllUrls v) [] l = [].
Proof.
  induction l as [|v l IH] using rev_ind; intros Hall; [done|].
  rewrite foldl_app. simpl.
  rewrite IH by (intros w Hw; apply Hall, elem_of_app; by left).
  rewrite Hall; [done|]. apply elem_of_app. right. by left.
Qed.

Lemma extractAllUrls_object (o : gmap string json) :
  (∀ k v, o !! k = Some v → extractAllUrls v = []) →
  map_fold (fun (_ : string) v urls => urls ++ extractAllUrls v) [] o = [].
Proof.
  intros Hall. rewrite map_fold_foldr.
  assert (∀ kv, kv ∈ map_to_list o → extractAllUrls kv.2 = []) as Hl.
  { intros [k v] Hin. apply elem_of_map_to_list in Hin. by apply (Hall k). }
  revert Hl. generalize (map_to_list o). intros l Hl.
  induction l as [|[k v] l IH]; simpl; [done|].
  rewrite IH by (intros kv Hin; apply Hl; by right).
  apply (Hl (k, v)). by left.
Qed.

Lemma extractAllUrls_nil (obj : json) : extractAllUrls obj = [].
Proof.
  remember (json_size obj) as n eqn:Hn. revert obj Hn.
  induction n as [n IH] using lt_wf_ind. intros obj ->.
  destruct obj as [|b|z|s|l|o]; try done.
  - simpl. by destruct b.
  - simpl. by destruct (negb (z =? 0)).
  - simpl. by destruct (truthy s).
  - change (foldl (fun urls v => urls ++ extractAllUrls v) [] l = []).
    apply extractAllUrls_array. intros v Hin.
    apply (IH (json_size v)); [|done].
    pose proof (json_size_elem l v Hin). simpl. lia.
  - change (map_fold (fun (_ : string) v urls => urls ++ extractAllUrls v) [] o = []).
    apply extractAllUrls_object. intros k v Hk.
    apply (IH (json_size v)); [|done]. by apply (json_size_prop o k).
Qed.

(** X17.  [extractAllUrls] returns the empty list for every JSON value:
    a string is not an object, so the test that opens the function sends
    it away before the branch that would collect it is reached. *)
Theorem extractAllUrls_empty (obj : json) : extractAllUrls obj = [].
Proof. apply extractAllUrls_nil. Qed.

Lemma elem_of_unique_from urls : ∀ seen url,
  url ∈ unique_from seen urls ↔ url ∈ urls ∧ url ∉ seen.
Proof.
  induction urls as [|x urls IH]; intros seen url; simpl.
  - split; [by intros ?%elem_of_nil | by intros [?%elem_of_nil _]].
  - destruct (decide (x ∈ seen)) as [Hx|Hx].
    + rewrite IH, elem_of_cons. split; [by intros [? ?]; split; [right|]|].
      intros [[->|?] ?]; [done|by split].
    + rewrite !elem_of_cons, IH, not_elem_of_union, not_elem_of_singleton. split.
      * intros [->|[? [? ?]]]; [by split; [left|]|]. by split; [right|].
      * intros [[->|Hin] Hnot]; [by left|].
        destruct (decide (url = x)) as [->|Hne]; [by left|by right].
Qed.

Lemma NoDup_unique_from urls : ∀ seen, NoDup (unique_from seen urls).
Proof.
  induction urls as [|x urls IH]; intros seen; simpl; [constructor|].
  destruct (decide (x ∈ seen)); [done|]. constructor; [|done].
  rewrite elem_of_unique_from. intros [_ Hnot]. apply Hnot, elem_of_union_l.
  by apply elem_of_singleton.
Qed.

Lemma unique_from_sublist urls : ∀ seen, unique_from seen urls `sublist_of` urls.
Proof.
  induction urls as [|x urls IH]; intros seen; simpl; [done|].
  destruct (decide (x ∈ seen)); [by apply sublist_cons | by apply sublist_skip].
Qed.

Lemma NoDup_filter {A} (f : A → bool) (l : list A) : NoDup l → NoDup (List.filter f l).
Proof. intros Hnd. apply (sublist_NoDup _ l Hnd), filter_sublist. Qed.

(** X18.  The URLs that [downloadGeneratedFiles] fetches are taken from
    the extra URLs alone, those found in the DOM: none comes out of the
    conversation.  They are the extra URLs that contain one of the
    generated domains and none of the skipped ones, each once, in the
    order in which they first occur. *)
Theorem uniqueUrls_from_extra (conversation : json) (extraUrls : list string) :
  uniqueUrls conversation extraUrls = List.filter is_generated (unique_from ∅ extraUrls) ∧
  uniqueUrls conversation extraUrls `sublist_of` extraUrls ∧
  NoDup (uniqueUrls conversation extraUrls) ∧
  ∀ url, url ∈ uniqueUrls conversation extraUrls ↔
         url ∈ extraUrls ∧ is_generated url = true.
Proof.
  unfold uniqueUrls. rewrite extractAllUrls_nil. simpl.
  split; [done|]. split; [|split].
  - etrans; [apply filter_sublist | apply unique_from_sublist].
  - apply NoDup_filter, NoDup_unique_from.
  - intros url. rewrite elem_of_filter, elem_of_unique_from. split.
    + by intros [[? _] ?].
    + intros [? ?]. split; [|done]. split; [done|]. apply not_elem_of_empty.
Qed.

End GeneratedFiles.

(** ** The run orchestrator: further properties of auto-export.ts *)

Section ErrorLog.
Import Js Fs Types Utils ConversationSaver AutoExport.

(** X19.  [logError] appends one entry, with the URL, the message and
    the time, to the list in [errors.json] and keeps the entries that
    were there; a log that is missing or does not parse is replaced by a
    list with the one entry.  A log that holds JSON other than a list
    makes [logError] throw, as does a log that cannot be written, and
    then nothing is written. *)
Theorem logError_outcome (now : Z) (url error : string) (disk : Disk) :
  (ERROR_FILE ∉ failing disk →
   (∀ errors, files disk !! ERROR_FILE = Some (JsonText (JArr errors)) →
      logError now url error disk
      = (Ok tt, mkDisk (<[ERROR_FILE :=
                           JsonText (JArr (errors ++ [error_entry now url error]))]>
                          (files disk)) (failing disk))) ∧
   (files disk !! ERROR_FILE = None ∨ (∃ text, files disk !! ERROR_FILE = Some (Text text)) →
      logError now url error disk
      = (Ok tt, mkDisk (<[ERROR_FILE := JsonText (JArr [error_entry now url error])]>
                          (files disk)) (failing disk)))) ∧
  ((ERROR_FILE ∈ failing disk ∨
    ∃ v, files disk !! ERROR_FILE = Some (JsonText v) ∧ ∀ errors, v ≠ JArr errors) →
   ∃ e, logError now url error disk = (Throw e, disk)).
Proof.
  unfold logError, mbind, IO_bind, bind, try_catch, readFile, lift, JSON_parse,
    mret, IO_ret, ret, throw, writeFile.
  split.
  - intros Hw. split.
    + intros errors ->. simpl. by rewrite decide_False.
    + intros [->|[text ->]]; simpl; by rewrite decide_False.
  - intros [Hw|(v & -> & Hv)].
    + destruct (files disk !! ERROR_FILE) as [[v|text]|]; simpl;
        [destruct v; simpl; try (by eexists)|..];
        rewrite decide_True by done; by eexists.
    + simpl. destruct v as [| | | |errors|]; simpl; try (by eexists).
      by destruct (Hv errors).
Qed.

End ErrorLog.

Section Attempts.
Import Js Fs Types Utils ConversationSaver AutoExport.

(** X20.  The retry loop calls [loadThreadFromURL] at most three times:
    what it does is determined by the first three attempts and by what
    the login check and [login] do after each of them.  It stops at the
    first attempt that succeeds, whichever it is, and returns its data
    with nothing logged; and it stops at the first attempt that fails
    with an error of the remote API, which it logs with its message
    without trying again. *)
Theorem fetchThread_attempts (env : RecordEnv) (url : string) (disk : Disk) :
  (∀ env',
     clock env' = clock env →
     (∀ k, (1 ≤ k ≤ 3)%nat →
           attempt env' k = attempt env k ∧ isLoginPage env' k = isLoginPage env k ∧
           login env' k = login env k) →
     fetchThread env' url disk = fetchThread env url disk) ∧
  (∀ k threadData,
     (1 ≤ k ≤ 3)%nat →
     (∀ j, (1 ≤ j < k)%nat → retried env j) →
     attempt env k = Ok threadData →
     fetchThread env url disk = (Ok (Some threadData), disk)) ∧
  (∀ k e,
     (1 ≤ k ≤ 3)%nat →
     (∀ j, (1 ≤ j < k)%nat → retried env j) →
     attempt env k = Throw e →
     includes (message e) "Perplexity API Error" = true →
     fetchThread env url disk
     = (logError (clock env) url (message e);; mret None) disk).
Proof.
  split; [|split].
  - intros env' Hclock Hsame. unfold fetchThread.
    change MAX_ATTEMPTS with 3%nat. rewrite !retry_unfold. cbv zeta.
    change (MAX_ATTEMPTS - 2)%nat with 1%nat. change (MAX_ATTEMPTS - 1)%nat with 2%nat.
    change (MAX_ATTEMPTS - 0)%nat with 3%nat.
    destruct (Hsame 1%nat) as (-> & -> & ->); [lia|].
    destruct (Hsame 2%nat) as (-> & -> & ->); [lia|].
    destruct (Hsame 3%nat) as (-> & -> & ->); [lia|].
    by rewrite Hclock.
  - intros k threadData Hk Hretried Hok.
    rewrite (fetchThread_from env url disk k Hk Hretried), retry_unfold. cbv zeta.
    replace (MAX_ATTEMPTS - (MAX_ATTEMPTS - k))%nat with k by (unfold MAX_ATTEMPTS; lia).
    by rewrite Hok.
  - intros k e Hk Hretried He Hapi.
    rewrite (fetchThread_from env url disk k Hk Hretried).
    apply retry_api_error; [|done].
    replace (MAX_ATTEMPTS - (MAX_ATTEMPTS - k))%nat with k by (unfold MAX_ATTEMPTS; lia).
    done.
Qed.

End Attempts.

Section Commit.
Import Js Fs Types Utils ConversationSaver AutoExport ListConversations.

Lemma append_inj_l a x y : a +:+ x = a +:+ y → x = y.
Proof. induction a as [|c a IH]; [done|]. simpl. intros [= ?]. auto. Qed.

(** The output files of a thread lie in a directory: none is a file of
    the working directory. *)
Lemma output_path_ne dir name file :
  has_char "/" file = false → dir +:+ "/" +:+ name ≠ file.
Proof.
  intros Hfile Heq. apply (f_equal (has_char "/")) in Heq.
  rewrite has_char_app in Heq. simpl in Heq. rewrite orb_true_r in Heq. congruence.
Qed.

(** What a sequence of two steps that returns has done. *)
Lemma bind_Ok {A B} (m : IO A) (k : A → IO B) disk b disk' :
  (m ≫= k) disk = (Ok b, disk') →
  ∃ a disk1, m disk = (Ok a, disk1) ∧ k a disk1 = (Ok b, disk').
Proof.
  unfold mbind, IO_bind, bind. destruct (m disk) as [[a|e] disk1]; [|done].
  intros Hk. by exists a, disk1.
Qed.

Lemma writeFile_Ok path data disk disk' :
  writeFile path data disk = (Ok tt, disk') →
  disk' = mkDisk (<[path := data]> (files disk)) (failing disk).
Proof. unfold writeFile. case_match; [done|]. by intros [= <-]. Qed.

(** [updateSearchIndex] touches no file but the index, whether or not it
    succeeds. *)
Lemma updateSearchIndex_other id firstEntry entry disk path :
  path ≠ Indexer.INDEX_FILE →
  files (Indexer.updateSearchIndex id firstEntry entry disk).2 !! path = files disk !! path.
Proof.
  intros Hne.
  unfold Indexer.updateSearchIndex, mbind, IO_bind, bind, try_catch, readFile, lift,
    JSON_parse, mret, IO_ret, ret, throw, writeFile.
  destruct (files disk !! Indexer.INDEX_FILE) as [[v|text]|]; simpl;
    destruct firstEntry; simpl; try done;
    try (destruct v as [| | | |index|]; simpl; try done;
         destruct (Indexer.findIndex id index) as [[i|]|e]; simpl; try done);
    (destruct (decide (Indexer.INDEX_FILE ∈ failing disk)); [done|]);
    simpl; by rewrite lookup_insert_ne.
Qed.

Section WithPath.
Context `{Path.Host}.

(** What the iteration has done when it returns for a thread whose data
    was fetched: the last five steps and what they wrote. *)
Lemma processConversation_fetched config env i limit doneFile conv disk threadData disk1
    doneFile' disk' :
  fetchThread env (url conv) disk = (Ok (Some threadData), disk1) →
  processConversation config env i limit doneFile conv disk = (Ok doneFile', disk') →
  let safeTitle := file_prefix config +:+ thread_id threadData in
  doneFile' = markProcessed (clock env) doneFile (url conv)
                (latestUpdated (clock env) (conversation threadData)) ∧
  ∃ localFiles markdown disk2 disk3,
    renderConversation env (conversation threadData) localFiles = Ok markdown ∧
    Indexer.updateSearchIndex (thread_id threadData)
      (bool_decide (entries (conversation threadData) ≠ [])) (index_entry env)
      (mkDisk (<[DONE_FILE := JsonText (json_of_DoneFile doneFile')]>
                 (<[output_dir config +:+ "/" +:+ safeTitle +:+ ".md" := Text markdown]>
                    (files disk2)))
              (failing disk2))
    = (Ok tt, disk3) ∧
    disk' = mkDisk (<[STATUS_FILE :=
                       JsonText (status_json (clock env) (S i) limit
                                   ("Processed " +:+ title conv) "downloading")]>
                      (files disk3))
                   (failing disk3).
Proof.
  intros Hfetch Hrun. cbv zeta. revert Hrun. unfold processConversation.
  intros (td & d1 & Hf & Hrun)%bind_Ok. rewrite Hfetch in Hf. injection Hf as <- <-.
  apply bind_Ok in Hrun as ([] & d2 & Hjson & Hrun).
  apply bind_Ok in Hrun as (inlineLocalFiles & d3 & Hinline & Hrun).
  apply bind_Ok in Hrun as (downloads & d4 & Hdownloads & Hrun).
  apply bind_Ok in Hrun as ([] & d5 & Hskipped & Hrun).
  apply bind_Ok in Hrun as (markdown & d6 & Hrender & Hrun).
  apply bind_Ok in Hrun as ([] & d7 & Hmd & Hrun).
  apply bind_Ok in Hrun as ([] & d8 & Hsave & Hrun).
  apply bind_Ok in Hrun as ([] & d9 & Hindex & Hrun).
  apply bind_Ok in Hrun as ([] & d10 & Hstatus & Hrun).
  injection Hrun as <- <-.
  unfold lift in Hrender. injection Hrender as Hrender <-.
  apply writeFile_Ok in Hmd as ->. apply writeFile_Ok in Hsave as ->.
  apply writeFile_Ok in Hstatus as ->.
  split; [done|].
  by exists (Object_assign (localFiles downloads) inlineLocalFiles), markdown, d5, d9.
Qed.

(** X21.  When the iteration of a thread whose data was fetched, at
    whichever attempt, returns, the thread is committed: the state
    returned is the state before with the thread marked as processed at
    the clock reading under its latest time stamp, the document rendered
    is in the Markdown file of the thread, the status file reports the
    thread as processed, and the state is in [done.json], from which
    [loadDoneFile] reads it back. *)
Theorem processConversation_commits (config : Config) (env : RecordEnv) (i limit : nat)
    (doneFile : DoneFile) (conv : Conversation) (disk : Disk) (threadData : ThreadData)
    (disk1 : Disk) (doneFile' : DoneFile) (disk' : Disk) :
  fetchThread env (url conv) disk = (Ok (Some threadData), disk1) →
  processConversation config env i limit doneFile conv disk = (Ok doneFile', disk') →
  let safeTitle := file_prefix config +:+ thread_id threadData in
  doneFile' = markProcessed (clock env) doneFile (url conv)
                (latestUpdated (clock env) (conversation threadData)) ∧
  processed doneFile' !! url conv
  = Some (mkProcessed (latestUpdated (clock env) (conversation threadData))
                      (Date.toISOString (clock env))) ∧
  (∃ localFiles markdown,
     renderConversation env (conversation threadData) localFiles = Ok markdown ∧
     files disk' !! (output_dir config +:+ "/" +:+ safeTitle +:+ ".md")
     = Some (Text markdown)) ∧
  files disk' !! STATUS_FILE
  = Some (JsonText (status_json (clock env) (S i) limit
                      ("Processed " +:+ title conv) "downloading")) ∧
  files disk' !! DONE_FILE = Some (JsonText (json_of_DoneFile doneFile')) ∧
  (∀ later, loadDoneFile later DONE_FILE disk' = (Ok doneFile', disk')).
Proof.
  intros Hfetch Hrun safeTitle.
  destruct (processConversation_fetched _ _ _ _ _ _ _ _ _ _ _ Hfetch Hrun)
    as (Hstate & localFiles & markdown & disk2 & disk3 & Hrender & Hindex & ->).
  fold safeTitle in Hindex.
  match type of Hindex with
  | _ ?before = _ =>
      pose proof (fun path Hne =>
        updateSearchIndex_other (thread_id threadData)
          (bool_decide (entries (conversation threadData) ≠ [])) (index_entry env)
          before path Hne) as Hother
  end.
  rewrite Hindex in Hother. simpl in Hother.
  assert (files disk3 !! DONE_FILE = Some (JsonText (json_of_DoneFile doneFile'))) as Hdone.
  { rewrite Hother by done. apply lookup_insert_eq. }
  split; [done|]. split; [|split; [|split; [|split]]].
  - rewrite Hstate. unfold markProcessed. simpl. apply lookup_insert_eq.
  - exists localFiles, markdown. split; [done|]. simpl.
    rewrite lookup_insert_ne by (apply not_eq_sym, output_path_ne; reflexivity).
    rewrite Hother by (apply output_path_ne; reflexivity).
    rewrite lookup_insert_ne by (apply not_eq_sym, output_path_ne; reflexivity).
    apply lookup_insert_eq.
  - simpl. apply lookup_insert_eq.
  - simpl. by rewrite lookup_insert_ne.
  - intros later. apply loadDoneFile_new_format. simpl. by rewrite lookup_insert_ne.
Qed.

(** What one thread does to the state, whatever the outcome. *)
Lemma processConversation_state config env i limit doneFile conv disk doneFile' disk' :
  processConversation config env i limit doneFile conv disk = (Ok doneFile', disk') →
  doneFile' = doneFile ∨
  ∃ stamp, doneFile' = markProcessed (clock env) doneFile (url conv) stamp.
Proof.
  intros Hrun.
  destruct (fetchThread env (url conv) disk) as [[[threadData|]|e] disk1] eqn:Hfetch.
  - destruct (processConversation_fetched _ _ _ _ _ _ _ _ _ _ _ Hfetch Hrun) as [-> _].
    right. by eexists.
  - rewrite (processConversation_skips _ _ _ _ _ _ _ _ Hfetch) in Hrun.
    injection Hrun as <- _. by left.
  - by rewrite (processConversation_fetch_throws _ _ _ _ _ _ _ _ _ Hfetch) in Hrun.
Qed.

(** What the loop over the threads does to the state. *)
Lemma processAll_state config envs limit convs : ∀ i doneFile disk doneFile' disk',
  processAll config envs i limit doneFile convs disk = (Ok doneFile', disk') →
  (∀ u, isProcessed doneFile u = true → isProcessed doneFile' u = true) ∧
  (∀ u, isProcessed doneFile' u = true →
        isProcessed doneFile u = true ∨ ∃ conv, conv ∈ convs ∧ url conv = u) ∧
  (processedCount doneFile' ≤ processedCount doneFile + length convs)%nat.
Proof.
  induction convs as [|conv convs IH]; intros i doneFile disk doneFile' disk'.
  - intros [= <- _]. split; [done|]. split; [by left|]. lia.
  - rewrite processAll_cons.
    destruct (updateStatus _ _ _ _ _ disk) as [[[]|e] disk0]; [|done].
    destruct (processConversation config (envs i) i limit doneFile conv disk0)
      as [[doneFile1|e] disk1] eqn:Hone; [|done].
    intros Hrest. destruct (IH _ _ _ _ _ Hrest) as (Hkeep & Hnew & Hcount).
    destruct (processConversation_state _ _ _ _ _ _ _ _ _ Hone) as [->|[stamp ->]].
    + split; [done|]. split; [|simpl; lia].
      intros u Hu. destruct (Hnew u Hu) as [?|(c & ? & ?)]; [by left|].
      right. exists c. split; [by right|done].
    + assert (isProcessed (markProcessed (clock (envs i)) doneFile (url conv) stamp)
                          (url conv) = true) as Hurl.
      { unfold isProcessed, markProcessed. simpl.
        apply bool_decide_eq_true_2. rewrite lookup_insert_eq. by eexists. }
      pose proof (fun other => markProcessed_other (clock (envs i)) doneFile (url conv)
                                 stamp other) as Hother.
      pose proof (markProcessed_count (clock (envs i)) doneFile (url conv) stamp) as Hsize.
      split; [|split].
      * intros u Hu. apply Hkeep. destruct (decide (u = url conv)) as [->|Hne]; [done|].
        by rewrite (proj2 (Hother u Hne)).
      * intros u Hu. destruct (Hnew u Hu) as [Hin|(c & ? & ?)].
        -- destruct (decide (u = url conv)) as [->|Hne].
           ++ right. exists conv. split; [by left|done].
           ++ left. by rewrite <- (proj2 (Hother u Hne)).
        -- right. exists c. split; [by right|done].
      * rewrite Hsize in Hcount. simpl. destruct (isProcessed doneFile (url conv)); lia.
Qed.

End WithPath.

Section WithHost.
Context `{Date.Host}.

(** X22.  Once a thread has been committed at time [t], a later scan
    selects it again exactly when the time stamp shown in the library
    parses to a valid date more than 1000 ms after [t]; the time stamp
    recorded from the thread's entries plays no part. *)
Theorem committed_thread_due (t now : Z) (doneFile : DoneFile) (url stamp text : string)
    (libDate : option Z) :
  Date.ofString (Date.toISOString t) = Some t →
  parseLibraryTimestamp now text = Some libDate →
  shouldReDownload now (markProcessed t doneFile url stamp) url (Some text)
  = match libDate with
    | Some lib => t + 1000 <? lib
    | None => false
    end.
Proof.
  intros Hparse Htext.
  rewrite (shouldReDownload_processed now _ url text
             (mkProcessed stamp (Date.toISOString t)) libDate).
  - simpl. rewrite Hparse. by destruct libDate.
  - unfold markProcessed. simpl. apply lookup_insert_eq.
  - done.
Qed.

End WithHost.

Section WithHostRun.
Context `{Path.Host} `{Date.Host}.

(** What the batch does to the state. *)
Lemma exportBatch_state config now discovered envs doneFile disk doneFile' disk' :
  exportBatch config now discovered envs doneFile disk = (Ok doneFile', disk') →
  (∀ u, isProcessed doneFile u = true → isProcessed doneFile' u = true) ∧
  (∀ u, isProcessed doneFile' u = true →
        isProcessed doneFile u = true ∨ ∃ conv, conv ∈ discovered ∧ url conv = u) ∧
  (processedCount doneFile' ≤ processedCount doneFile + batch_size config)%nat.
Proof.
  unfold exportBatch. cbv zeta.
  intros ([] & disk0 & _ & Hrun)%bind_Ok.
  destruct (length (toProcess now doneFile discovered) =? 0)%nat.
  - apply bind_Ok in Hrun as ([] & disk1 & _ & Hrun). injection Hrun as <- _.
    split; [done|]. split; [by left|lia].
  - apply bind_Ok in Hrun as ([] & disk1 & _ & Hrun).
    apply bind_Ok in Hrun as (doneFile1 & disk2 & Hall & Hrun).
    apply bind_Ok in Hrun as ([] & disk3 & _ & Hrun). injection Hrun as <- _.
    destruct (processAll_state _ _ _ _ _ _ _ _ _ Hall) as (Hkeep & Hnew & Hcount).
    split; [done|]. split.
    + intros u Hu. destruct (Hnew u Hu) as [?|(c & Hin & ?)]; [by left|].
      right. exists c. split; [|done].
      apply (elem_of_sublist _ _ _ Hin). etrans; [apply sublist_take|].
      apply filter_sublist.
    + rewrite length_take in Hcount. lia.
Qed.

(** X23.  A run that ends normally forgets no thread of the state it
    loaded, marks only threads that it discovered in the library, and
    adds at most [batch_size] threads to the state. *)
Theorem runAutoExport_batch (config : Config) (now : Z) (discovered : list Conversation)
    (envs : nat → RecordEnv) (disk : Disk) (doneFile' : DoneFile) (disk' : Disk) :
  runAutoExport config now discovered envs disk = (Ok doneFile', disk') →
  ∃ doneFile disk0,
    loadDoneFile now DONE_FILE disk = (Ok doneFile, disk0) ∧
    (∀ u, isProcessed doneFile u = true → isProcessed doneFile' u = true) ∧
    (∀ u, isProcessed doneFile' u = true →
          isProcessed doneFile u = true ∨ ∃ conv, conv ∈ discovered ∧ url conv = u) ∧
    (processedCount doneFile' ≤ processedCount doneFile + batch_size config)%nat.
Proof.
  unfold runAutoExport.
  intros ([] & disk0 & Hdir & Hrun)%bind_Ok.
  assert (disk0 = disk) as ->.
  { unfold mkdir in Hdir. repeat case_match; by simplify_eq. }
  apply bind_Ok in Hrun as (doneFile & disk1 & Hload & Hrun).
  exists doneFile, disk1. split; [done|].
  by apply (exportBatch_state _ _ _ _ _ _ _ _ Hrun).
Qed.

End WithHostRun.

End Commit.

Section ExportMoreExamples.
Import Js Fs Types Utils ConversationSaver AutoExport ListConversations.

Lemma logError_outcome_witness :
  logError 1771588800000 thread_url "boom" (mkDisk ∅ ∅)
  = (Ok tt, mkDisk (<[ERROR_FILE :=
                       JsonText (JArr [error_entry 1771588800000 thread_url "boom"])]> ∅) ∅).
Proof.
  apply (proj2 (proj1 (logError_outcome 1771588800000 thread_url "boom" (mkDisk ∅ ∅))
                  (not_elem_of_empty _))).
  left. reflexivity.
Defined.

Lemma fetchThread_attempts_witness :
  fetchThread fetch_ok_second thread_url (mkDisk ∅ ∅)
  = (Ok (Some thread1_data), mkDisk ∅ ∅).
Proof.
  apply (proj1 (proj2 (fetchThread_attempts fetch_ok_second thread_url (mkDisk ∅ ∅)))
           2%nat thread1_data).
  - lia.
  - intros j Hj. assert (j = 1%nat) as -> by lia.
    exists timeout. split; [reflexivity|]. split; [vm_compute; reflexivity|].
    left. reflexivity.
  - reflexivity.
Defined.

Lemma processConversation_commits_witness :
  files (@processConversation posix_host config0 fetch_ok_second 0 1
           empty_DoneFile thread1 (mkDisk ∅ ∅)).2 !! "out/thread-t1.md"
  = Some (Text "# A thread") ∧
  loadDoneFile 1771592400000 DONE_FILE
    (@processConversation posix_host config0 fetch_ok_second 0 1
       empty_DoneFile thread1 (mkDisk ∅ ∅)).2
  = (Ok (markProcessed 1771588800000 empty_DoneFile (url thread1)
           "2026-02-20T08:30:00.000Z"),
     (@processConversation posix_host config0 fetch_ok_second 0 1
        empty_DoneFile thread1 (mkDisk ∅ ∅)).2).
Proof.
  destruct (@processConversation_commits posix_host config0 fetch_ok_second 0 1
              empty_DoneFile thread1 (mkDisk ∅ ∅) thread1_data (mkDisk ∅ ∅)
              (markProcessed 1771588800000 empty_DoneFile (url thread1)
                 "2026-02-20T08:30:00.000Z")
              (@processConversation posix_host config0 fetch_ok_second 0 1
                 empty_DoneFile thread1 (mkDisk ∅ ∅)).2)
    as (_ & _ & (localFiles & markdown & Hrender & Hmd) & _ & _ & Hload).
  - vm_compute. reflexivity.
  - vm_compute. reflexivity.
  - split; [|apply Hload].
    etransitivity; [exact Hmd|]. f_equal. f_equal.
    vm_compute in Hrender. by injection Hrender.
Defined.

Lemma committed_thread_due_witness :
  @shouldReDownload Date.utc_host (midday + 7200000)
    (markProcessed midday empty_DoneFile thread_url "") thread_url (Some "1 hour ago")
  = true.
Proof.
  apply (@committed_thread_due Date.utc_host midday (midday + 7200000) empty_DoneFile
           thread_url "" "1 hour ago" (Some (midday + 3600000))).
  - vm_compute. reflexivity.
  - vm_compute. reflexivity.
Defined.

Lemma runAutoExport_batch_witness :
  ∃ doneFile disk0,
    loadDoneFile 1771588800000 DONE_FILE (mkDisk ∅ ∅) = (Ok doneFile, disk0) ∧
    (processedCount (markProcessed 1771588800000 empty_DoneFile (url thread1)
                       "2026-02-20T08:30:00.000Z")
     ≤ processedCount doneFile + batch_size config0)%nat.
Proof.
  destruct (@runAutoExport_batch posix_host Date.utc_host config0 1771588800000
              [thread1] (fun _ => fetch_ok) (mkDisk ∅ ∅)
              (markProcessed 1771588800000 empty_DoneFile (url thread1)
                 "2026-02-20T08:30:00.000Z")
              (@runAutoExport posix_host Date.utc_host config0 1771588800000
                 [thread1] (fun _ => fetch_ok) (mkDisk ∅ ∅)).2)
    as (doneFile & disk0 & Hload & _ & _ & Hcount).
  - vm_compute. reflexivity.
  - by exists doneFile, disk0.
Defined.

End ExportMoreExamples.

(** ** The library time stamps: relative forms *)

Section StringFacts.
Import Js.

Lemma length_app a b :
  String.length (a +:+ b) = (String.length a + String.length b)%nat.
Proof. induction a as [|c a IH]; simpl; [done|]. by rewrite IH. Qed.

Lemma append_cons x a b : String x a +:+ b = String x (a +:+ b).
Proof. done. Qed.

Lemma app_assoc_string a b c : (a +:+ b) +:+ c = a +:+ (b +:+ c).
Proof. induction a as [|x a IH]; [done|]. by rewrite !append_cons, IH. Qed.

Lemma list_ascii_app a b :
  list_ascii_of_string (a +:+ b) = list_ascii_of_string a ++ list_ascii_of_string b.
Proof. induction a as [|c a IH]; simpl; [done|]. by rewrite IH. Qed.

Lemma reverse_snoc a c : reverse (a +:+ String c "") = String c (reverse a).
Proof. unfold reverse. rewrite list_ascii_app. simpl. by rewrite rev_unit. Qed.

Lemma reverse_involutive s : reverse (reverse s) = s.
Proof.
  unfold reverse. rewrite list_ascii_of_string_of_list_ascii, rev_involutive.
  apply string_of_list_ascii_of_string.
Qed.

(** A text that neither starts nor ends with white space is left as it
    is by [trim]. *)
Lemma trim_id a c :
  trimStart (a +:+ String c "") = a +:+ String c "" →
  is_space c = false →
  trim (a +:+ String c "") = a +:+ String c "".
Proof.
  intros Hstart Hend. unfold trim. rewrite Hstart, reverse_snoc.
  cbn [trimStart]. rewrite Hend, <- reverse_snoc. apply reverse_involutive.
Qed.

Lemma toLowerCase_app a b : toLowerCase (a +:+ b) = toLowerCase a +:+ toLowerCase b.
Proof. induction a as [|c a IH]; simpl; [done|]. by rewrite IH. Qed.

Lemma all_digits_cons c s :
  Date.all_digits (String c s) = is_digit c && Date.all_digits s.
Proof. done. Qed.

Lemma is_digit_lower c : is_digit c = true → lower_char c = c.
Proof.
  unfold is_digit, lower_char. intros [H1 H2]%andb_true_iff.
  apply Nat.leb_le in H1, H2.
  destruct (65 <=? nat_of_ascii c)%nat eqn:H3; [|done].
  apply Nat.leb_le in H3. lia.
Qed.

Lemma is_digit_space c : is_digit c = true → is_space c = false.
Proof.
  unfold is_digit, is_space. intros [H1 H2]%andb_true_iff.
  apply Nat.leb_le in H1, H2. apply orb_false_iff. split.
  - apply andb_false_iff. right. apply Nat.leb_gt. lia.
  - apply Nat.eqb_neq. lia.
Qed.

Lemma toLowerCase_digits ds : Date.all_digits ds = true → toLowerCase ds = ds.
Proof.
  induction ds as [|c ds IH]; [done|]. rewrite all_digits_cons.
  intros [Hc Hds]%andb_true_iff. simpl. by rewrite is_digit_lower, IH.
Qed.

Lemma span_digits ds c rest :
  Date.all_digits ds = true → is_digit c = false →
  span is_digit (ds +:+ String c rest) = (ds, String c rest).
Proof.
  intros Hds Hc. induction ds as [|d ds IH]; simpl.
  - by rewrite Hc.
  - rewrite all_digits_cons in Hds. apply andb_true_iff in Hds as [-> Hds].
    by rewrite IH.
Qed.

(** The last three characters of a text end with its last character. *)
Lemma substring_last3 a c :
  ∃ x, String.substring (String.length (a +:+ String c "") - 3) 3 (a +:+ String c "")
       = x +:+ String c "".
Proof.
  induction a as [|x a IH].
  - by exists "".
  - destruct a as [|y [|z a]].
    + by exists (String x "").
    + by exists (String x (String y "")).
    + destruct IH as [w Hw]. exists w. rewrite <- Hw.
      rewrite !length_app. cbn [String.length]. rewrite !append_cons.
      replace (S (S (S (String.length a))) + 1 - 3)%nat
        with (S (String.length a)) by lia.
      by replace (S (S (String.length a)) + 1 - 3)%nat with (String.length a) by lia.
Qed.

Lemma ends_with_l y d : y +:+ String d "" = "ccl" → d = "l"%char.
Proof.
  destruct y as [|a [|b [|e y]]]; simpl; intros [= ]; subst; try done.
  by destruct y.
Qed.

(** A text whose last character is not an [l] is left as it is by the
    removal of a final [CCL]. *)
Lemma strip_CCL_id a c :
  lower_char c ≠ "l"%char →
  ListConversations.strip_CCL (a +:+ String c "") = a +:+ String c "".
Proof.
  intros Hc. unfold ListConversations.strip_CCL. cbv zeta.
  destruct (substring_last3 a c) as [x ->].
  destruct (String.eqb _ "ccl") eqn:Heq; [|done].
  apply String.eqb_eq in Heq. rewrite toLowerCase_app in Heq.
  by apply ends_with_l in Heq.
Qed.

End StringFacts.

Section RelativeForms.
Import Js Utils ListConversations.

Lemma shortRelMatch_digits ds c rest :
  Date.all_digits ds = true → truthy ds = true → is_digit c = false →
  shortRelMatch (ds +:+ String c rest)
  = (fun p => (parseInt ds, p.2)) <$> shortRelMatch (String "0" (String c rest)).
Proof.
  intros Hds Hne Hc. unfold shortRelMatch.
  rewrite (span_digits ds c rest Hds Hc).
  change (String "0" (String c rest)) with ("0" +:+ String c rest).
  rewrite (span_digits "0" c rest eq_refl Hc). rewrite Hne. simpl.
  by repeat case_match.
Qed.

Lemma relMatch_digits ds c rest :
  Date.all_digits ds = true → truthy ds = true → is_digit c = false →
  relMatch (ds +:+ String c rest)
  = (fun p => (parseInt ds, p.2)) <$> relMatch (String "0" (String c rest)).
Proof.
  intros Hds Hne Hc. unfold relMatch.
  rewrite (span_digits ds c rest Hds Hc).
  change (String "0" (String c rest)) with ("0" +:+ String c rest).
  rewrite (span_digits "0" c rest eq_refl Hc). rewrite Hne.
  destruct (span is_space (String c rest)) as [spaces rest'].
  change (truthy "0") with true. cbn [andb].
  destruct (truthy spaces); [|done].
  destruct (List.find (fun w => String.prefix w.1 rest') unit_words) as [[word unit]|];
    [|done].
  by destruct (ago_tail (drop (String.length word) rest')).
Qed.

Context `{Date.Host}.

(** Digits followed by a tail that the patterns accept: the tail alone
    decides the unit, the digits the amount. *)
Lemma parseLibraryTimestamp_digits now ds c rest a c1 unit :
  Date.all_digits ds = true → ds ≠ "" →
  is_digit c = false →
  String c rest = a +:+ String c1 "" →
  is_space c1 = false → lower_char c1 ≠ "l"%char →
  toLowerCase (String c rest) = String c rest →
  match shortRelMatch (String "0" (String c rest)) with
  | Some p => p.2 = unit
  | None => (snd <$> relMatch (String "0" (String c rest))) = Some unit
  end →
  parseLibraryTimestamp now (ds +:+ String c rest)
  = Some (shift_back now (parseInt ds) unit).
Proof.
  intros Hds Hne Hc Htail Hend Hl Hlower Hunit.
  assert (truthy ds = true) as Htruthy by (by destruct ds).
  assert (trim (ds +:+ String c rest) = ds +:+ String c rest) as Htrim.
  { rewrite Htail, <- app_assoc_string. apply trim_id; [|done].
    rewrite app_assoc_string, <- Htail. destruct ds as [|d ds]; [done|].
    rewrite all_digits_cons in Hds. apply andb_true_iff in Hds as [Hd _].
    simpl. by rewrite (is_digit_space d Hd). }
  unfold parseLibraryTimestamp.
  assert (truthy (ds +:+ String c rest) = true) as -> by (by destruct ds).
  cbn [negb]. cbv zeta. rewrite Htrim.
  assert (strip_CCL (ds +:+ String c rest) = ds +:+ String c rest) as ->.
  { rewrite Htail, <- app_assoc_string. by apply strip_CCL_id. }
  rewrite Htrim, toLowerCase_app, (toLowerCase_digits ds Hds), Hlower.
  rewrite (shortRelMatch_digits ds c rest Hds Htruthy Hc).
  rewrite (relMatch_digits ds c rest Hds Htruthy Hc).
  destruct (shortRelMatch (String "0" (String c rest))) as [[amount unit']|]; simpl in *.
  - by subst.
  - destruct (relMatch (String "0" (String c rest))) as [[amount unit']|]; simpl in *;
      [|done]. by injection Hunit as ->.
Qed.

Lemma setMinutes_back z now amount :
  fixed_offset z →
  Date.setMinutes now (Date.getMinutes now - amount)
  = Date.TimeClip (now - amount * Date.msPerMinute).
Proof.
  intros Hz. unfold Date.setMinutes, Date.getMinutes, Date.LocalTime, Date.UTC.
  rewrite !Hz. f_equal.
  pose proof (time_parts (now + z)) as Hparts.
  unfold Date.MakeDate, Date.MakeTime in *. lia.
Qed.

Lemma setSeconds_back z now amount :
  fixed_offset z →
  Date.setSeconds now (Date.getSeconds now - amount)
  = Date.TimeClip (now - amount * Date.msPerSecond).
Proof.
  intros Hz. unfold Date.setSeconds, Date.getSeconds, Date.LocalTime, Date.UTC.
  rewrite !Hz. f_equal.
  pose proof (time_parts (now + z)) as Hparts.
  unfold Date.MakeDate, Date.MakeTime in *. lia.
Qed.

(** X24.  In a zone with a fixed offset, a number [n] followed by
    " hours ago", " hour ago" or "h" parses to the clock reading minus
    [n] hours, and likewise for minutes ("m") and seconds ("s"),
    whatever the number of digits, as long as the result is a valid
    time value. *)
Theorem parseLibraryTimestamp_relative (now z : Z) (digits : string) :
  fixed_offset z →
  Date.all_digits digits = true → digits ≠ "" →
  let n := parseInt digits in
  let back (ms : Z) (texts : list string) :=
    Z.abs (now - n * ms) ≤ 8640000000000000 →
    Forall (fun text => parseLibraryTimestamp now (digits +:+ text)
                        = Some (Some (now - n * ms))) texts in
  back 3600000 [" hours ago"; " hour ago"; "h"] ∧
  back 60000 [" minutes ago"; " minute ago"; "m"] ∧
  back 1000 [" seconds ago"; " second ago"; "s"].
Proof.
  intros Hz Hds Hne n back.
  assert (∀ ms, Z.abs (now - n * ms) ≤ 8640000000000000 →
                Date.TimeClip (now - n * ms) = Some (now - n * ms)) as Hclip.
  { intros ms Hrange. unfold Date.TimeClip. by rewrite (proj2 (Z.leb_le _ _) Hrange). }
  split; [|split]; intros Hrange; repeat constructor.
  - rewrite (parseLibraryTimestamp_digits now digits " " "hours ago" " hours ag" "o" Hour);
      try done. unfold shift_back. rewrite (setHours_back z) by done. f_equal. by apply (Hclip _ Hrange).
  - rewrite (parseLibraryTimestamp_digits now digits " " "hour ago" " hour ag" "o" Hour);
      try done. unfold shift_back. rewrite (setHours_back z) by done. f_equal. by apply (Hclip _ Hrange).
  - rewrite (parseLibraryTimestamp_digits now digits "h" "" "" "h" Hour);
      try done. unfold shift_back. rewrite (setHours_back z) by done. f_equal. by apply (Hclip _ Hrange).
  - rewrite (parseLibraryTimestamp_digits now digits " " "minutes ago" " minutes ag" "o" Minute);
      try done. unfold shift_back. rewrite (setMinutes_back z) by done. f_equal. by apply (Hclip _ Hrange).
  - rewrite (parseLibraryTimestamp_digits now digits " " "minute ago" " minute ag" "o" Minute);
      try done. unfold shift_back. rewrite (setMinutes_back z) by done. f_equal. by apply (Hclip _ Hrange).
  - rewrite (parseLibraryTimestamp_digits now digits "m" "" "" "m" Minute);
      try done. unfold shift_back. rewrite (setMinutes_back z) by done. f_equal. by apply (Hclip _ Hrange).
  - rewrite (parseLibraryTimestamp_digits now digits " " "seconds ago" " seconds ag" "o" Second);
      try done. unfold shift_back. rewrite (setSeconds_back z) by done. f_equal. by apply (Hclip _ Hrange).
  - rewrite (parseLibraryTimestamp_digits now digits " " "second ago" " second ag" "o" Second);
      try done. unfold shift_back. rewrite (setSeconds_back z) by done. f_equal. by apply (Hclip _ Hrange).
  - rewrite (parseLibraryTimestamp_digits now digits "s" "" "" "s" Second);
      try done. unfold shift_back. rewrite (setSeconds_back z) by done. f_equal. by apply (Hclip _ Hrange).
Qed.

End RelativeForms.

Section RelativeFormsExamples.
Import Js Utils ListConversations.

Lemma parseLibraryTimestamp_relative_witness :
  @parseLibraryTimestamp Date.utc_host midday "13h" = Some (Some (midday - 13 * 3600000)).
Proof.
  destruct (@parseLibraryTimestamp_relative Date.utc_host midday 0 "13")
    as (Hhours & _ & _).
  - intros t isUTC. reflexivity.
  - reflexivity.
  - intros Heq. discriminate Heq.
  - assert (Z.abs (midday - parseInt "13" * 3600000) ≤ 8640000000000000) as Hrange
      by (vm_compute; intros Hgt; discriminate Hgt).
    specialize (Hhours Hrange).
    apply Forall_cons in Hhours as [_ Hhours].
    apply Forall_cons in Hhours as [_ Hhours].
    apply Forall_cons in Hhours as [Hshort _]. exact Hshort.
Defined.

End RelativeFormsExamples.

(** ** The search index: indexer.ts *)

Section SearchIndex.
Import Js Fs Utils Indexer.






End SearchIndex.

Section SearchIndexExamples.
Import Js Fs Utils Indexer.


End SearchIndexExamples.

(** ** The export endpoint: server.ts *)

Section ExportEndpoint.
Import Server.

Lemma step_exports s ev :
  (isExporting s = true ↔ exports s = 1%nat) → (exports s ≤ 1)%nat →
  (isExporting (step s ev) = true ↔ exports (step s ev) = 1%nat) ∧
  (exports (step s ev) ≤ 1)%nat.
Proof.
  intros Hflag Hle. destruct ev; simpl.
  - unfold exportRequest. destruct (isExporting s) eqn:Hex; simpl.
    + rewrite Hex. by split.
    + assert (exports s = 0%nat) as ->.
      { destruct (exports s) as [|[|n]] eqn:Hn; [done| |lia].
        discriminate (proj2 Hflag eq_refl). }
      split; [done|lia].
  - unfold exportSettled. destruct (exports s) as [|n] eqn:Hn; simpl.
    + rewrite Hn. split; [done|lia].
    + split; [|lia]. split; [done|]. lia.
Qed.

(** X26.  At the export endpoint at most one export is in progress at
    any time, and [isExporting] is set exactly while one is; a request
    that arrives meanwhile is answered with status 429 and starts
    nothing, and a request that arrives otherwise is answered with 200
    and starts an export. *)
Theorem export_requests_do_not_overlap (events : list Event) :
  let s := run initial events in
  (exports s ≤ 1)%nat ∧
  (isExporting s = true ↔ exports s = 1%nat) ∧
  (exports s = 1%nat → exportRequest s = (429, s)) ∧
  (exports s = 0%nat → exportRequest s = (200, mkState true 1)).
Proof.
  assert (∀ s, (isExporting s = true ↔ exports s = 1%nat) → (exports s ≤ 1)%nat →
               (isExporting (run s events) = true ↔ exports (run s events) = 1%nat) ∧
               (exports (run s events) ≤ 1)%nat) as Hrun.
  { induction events as [|ev events IH]; intros s Hflag Hle; [done|].
    simpl. destruct (step_exports s ev Hflag Hle). by apply IH. }
  destruct (Hrun initial) as [Hflag Hle]; [done|simpl; lia|].
  cbv zeta. split; [done|]. split; [done|]. split.
  - intros Hone. unfold exportRequest. by rewrite (proj2 Hflag Hone).
  - intros Hnone. unfold exportRequest.
    destruct (isExporting (run initial events)) eqn:Hex.
    + rewrite (proj1 Hflag eq_refl) in Hnone. discriminate Hnone.
    + by rewrite Hnone.
Qed.

End ExportEndpoint.

(** ** The time stamp recorded for a thread *)

Section LatestStamp.
Import Js Types ConversationSaver AutoExport.

Lemma compare_refl s : String.compare s s = Eq.
Proof. by apply OrderedTypeEx.String_as_OT.cmp_eq. Qed.

Lemma leb_refl s : String.leb s s = true.
Proof. unfold String.leb. by rewrite compare_refl. Qed.

Lemma leb_trans a b c :
  String.leb a b = true → String.leb b c = true → String.leb a c = true.
Proof.
  unfold String.leb.
  destruct (String.compare a b) eqn:Hab; [| |done];
    destruct (String.compare b c) eqn:Hbc; try done; intros _ _.
  - apply String.compare_eq_iff in Hab as ->. by rewrite Hbc.
  - apply String.compare_eq_iff in Hab as ->. by rewrite Hbc.
  - apply String.compare_eq_iff in Hbc as <-. by rewrite Hab.
  - apply OrderedTypeEx.String_as_OT.cmp_lt in Hab, Hbc.
    pose proof (OrderedTypeEx.String_as_OT.lt_trans _ _ _ Hab Hbc) as Hac.
    apply OrderedTypeEx.String_as_OT.cmp_lt in Hac.
    unfold OrderedTypeEx.String_as_OT.cmp in Hac. by rewrite Hac.
Qed.

Lemma leb_empty s : String.leb "" s = true.
Proof. by destruct s. Qed.

(** The verdict of the default comparison of [sort()]. *)
Lemma after_compare_strings y x :
  after compare_strings y x = (if String.leb y x then false else true).
Proof.
  unfold after, compare_strings, String.leb. by destruct (String.compare y x).
Qed.

Lemma not_leb y x : String.leb y x = false → String.leb x y = true.
Proof. intros Hyx. by destruct (String.leb_total x y) as [?|?]; [|congruence]. Qed.

Lemma insert_sorted_strings x l :
  StronglySorted (fun a b => String.leb a b = true) l →
  StronglySorted (fun a b => String.leb a b = true) (insert_sorted compare_strings x l).
Proof.
  induction 1 as [|y l Hs IH Hy]; simpl; [repeat constructor|].
  rewrite after_compare_strings. destruct (String.leb y x) eqn:Hyx.
  - constructor; [done|]. rewrite insert_sorted_perm. by constructor.
  - apply not_leb in Hyx. constructor; [by constructor|]. constructor; [done|].
    eapply Forall_impl; [exact Hy|]. intros z Hz. by apply (leb_trans x y z).
Qed.

Lemma sort_strings_sorted l :
  StronglySorted (fun a b => String.leb a b = true) (sort compare_strings l).
Proof.
  unfold sort. assert (StronglySorted (fun a b => String.leb a b = true) []) as Hnil
    by constructor.
  revert Hnil. generalize (@nil string).
  induction l as [|x l IH]; intros sorted Hs; simpl; [done|].
  by apply IH, insert_sorted_strings.
Qed.

(** The last element of a sorted list of strings is the greatest. *)
Lemma last_greatest l m :
  StronglySorted (fun a b => String.leb a b = true) l →
  last l = Some m → ∀ x, x ∈ l → String.leb x m = true.
Proof.
  intros Hs [l' ->]%last_Some x [Hx|Hx%list_elem_of_singleton]%elem_of_app.
  - apply (StronglySorted_app_1_elem_of _ _ _ x m Hs); [done|by left].
  - subst. apply leb_refl.
Qed.

Lemma sort_strings_last l :
  match last (sort compare_strings l) with
  | Some m => m ∈ l ∧ ∀ x, x ∈ l → String.leb x m = true
  | None => l = []
  end.
Proof.
  pose proof (sort_perm compare_strings l) as Hperm.
  pose proof (sort_strings_sorted l) as Hs.
  destruct (last (sort compare_strings l)) as [m|] eqn:Hlast.
  - split.
    + rewrite <- Hperm. apply last_Some in Hlast as [l' ->].
      apply elem_of_app. right. by left.
    + intros x Hx. apply (last_greatest _ m Hs Hlast). by rewrite Hperm.
  - apply last_None in Hlast. rewrite Hlast in Hperm. by apply Permutation_nil_l in Hperm.
Qed.

(** X27.  The time stamp that [runAutoExport] records for a thread as
    [lastUpdated] is the greatest of the time stamps of its entries in
    the order of strings, the stamp of an entry being its
    [updated_datetime] or else its [entry_updated_datetime]; it is the
    clock reading when no entry has a time stamp. *)
Theorem latestUpdated_greatest (now : Z) (c : ConversationResponse) :
  let stamp e := or_else (updated_datetime e) (entry_updated_datetime e) in
  ((∀ e, e ∈ entries c → truthy (stamp e) = false) →
   latestUpdated now c = Date.toISOString now) ∧
  (∀ e0, e0 ∈ entries c → truthy (stamp e0) = true →
     (∃ e, e ∈ entries c ∧ latestUpdated now c = stamp e) ∧
     truthy (latestUpdated now c) = true ∧
     ∀ e, e ∈ entries c → String.leb (stamp e) (latestUpdated now c) = true).
Proof.
  intros stamp. unfold latestUpdated. cbv zeta. fold stamp.
  set (stamps := List.filter truthy (stamp <$> entries c)).
  assert (∀ s, s ∈ stamps ↔ (∃ e, e ∈ entries c ∧ s = stamp e) ∧ truthy s = true)
    as Hstamps.
  { intros s. unfold stamps. rewrite elem_of_filter, list_elem_of_fmap.
    split; intros [(e & ? & ?) ?]; (split; [|done]); by exists e. }
  pose proof (sort_strings_last stamps) as Hlast.
  destruct (last (sort compare_strings stamps)) as [m|]; simpl.
  - destruct Hlast as [Hm Hmax]. apply Hstamps in Hm as [(em & Hem & ->) Htruthy].
    assert (or_else (stamp em) (Date.toISOString now) = stamp em) as ->
      by (unfold or_else at 1; by rewrite Htruthy).
    split.
    + intros Hnone. by rewrite (Hnone em Hem) in Htruthy.
    + intros e0 He0 Ht0. split; [by exists em|]. split; [done|].
      intros e He. destruct (truthy (stamp e)) eqn:Hte.
      * apply Hmax, Hstamps. split; [by exists e|done].
      * assert (stamp e = "") as ->; [|apply leb_empty].
        unfold truthy in Hte. apply negb_false_iff in Hte. by apply String.eqb_eq in Hte.
  - split; [done|]. intros e0 He0 Ht0.
    assert (stamp e0 ∈ stamps) as Hin by (apply Hstamps; split; [by exists e0|done]).
    rewrite Hlast in Hin. by apply elem_of_nil in Hin.
Qed.

End LatestStamp.

Section LatestStampExamples.
Import Js Types ConversationSaver AutoExport.

Lemma latestUpdated_greatest_witness :
  latestUpdated 0 (mkResponse "ok" [mkEntry "a" "" "" "q"] false None None)
  = "1970-01-01T00:00:00.000Z" ∧
  String.leb morning
    (latestUpdated 0
       (mkResponse "ok"
          [mkEntry "a" noon "" "first"; mkEntry "b" "" morning "second";
           mkEntry "c" "" "" "third"] false None None)) = true.
Proof.
  split.
  - apply (proj1 (latestUpdated_greatest 0
                    (mkResponse "ok" [mkEntry "a" "" "" "q"] false None None))).
    intros e He. simpl in He. apply list_elem_of_singleton in He. by subst.
  - destruct (proj2 (latestUpdated_greatest 0
                       (mkResponse "ok"
                          [mkEntry "a" noon "" "first"; mkEntry "b" "" morning "second";
                           mkEntry "c" "" "" "third"] false None None))
                    (mkEntry "a" noon "" "first")) as (_ & _ & Hmax).
    + simpl. by left.
    + reflexivity.
    + apply (Hmax (mkEntry "b" "" morning "second")). simpl. right. by left.
Defined.

End LatestStampExamples.
